(** * A shallow embedding of the TypeScript agent's core

    The development follows the repository module by module:
    - [DiffViewer]: the LCS line-diff engine (DiffViewer.ts);
    - [JsString]: JavaScript strings as sequences of UTF-16 code units;
    - [ToolValidation]: the parameter validators (ToolValidation.ts);
    - [Interactive]: the interactive confirmation handler and its menu;
    - [JsValue]: JSON values as a response carries them;
    - [Effects]: a monad for calls that return or throw and change state;
    - [Mcp]: the JSON-RPC client and fail-soft tool discovery;
    - [Agent]: the orchestration loop of AIAgent.ts;
    - [DiffProperties], [DiffFormat], [DiffLayout], [DiffNewSide],
      [DiffSymmetry]: what the LCS, the diff walk, the statistics and the
      unified format guarantee;
    - [InteractiveProperties]: invariants of the interactive handler and the
      reading of answers;
    - [Tools]: the file system and shell tools (FileSystemTools.ts,
      ShellCommandTool.ts) and what they do to the outside;
    - [McpProperties]: remote tool calls and the requests on the wire;
    - [AgentProperties], [AgentTools], [Main]: the registry, the shape of
      the conversation, the code search sub-agent and the entry point;
    - [IdeApproval]: approval through the IntelliJ merge window.

    Loops whose termination is not evident from a counter take a fuel
    argument and return [None] when it runs out; the totality theorems show
    which fuel is enough. *)

From Stdlib Require Import ZArith NArith String Ascii List Lia Bool Floats.
From stdpp Require Import base option list strings gmap pretty.

Open Scope string_scope.
Open Scope nat_scope.
Open Scope list_scope.

(* ===================================================================== *)
(** ** DiffViewer *)
(* ===================================================================== *)

Module DiffViewer.

(** [type DiffLine = {type:'context'|'added'|'removed'; content}] *)
Inductive DiffLine : Type :=
| Context (content : string)
| Added (content : string)
| Removed (content : string).

#[global] Instance DiffLine_eq_dec : EqDecision DiffLine.
Proof. solve_decision. Defined.

(** [interface DiffStats] *)
Record DiffStats : Type := mkStats {
  additions : nat;
  deletions : nat;
  modifications : nat
}.

(** [s.split('\n')]: always at least one piece. *)
Fixpoint split_lines (s : string) : list string :=
  match s with
  | EmptyString => [EmptyString]
  | String c rest =>
      if Ascii.eqb c "010"%char then EmptyString :: split_lines rest
      else match split_lines rest with
           | l :: ls => String c l :: ls
           | [] => [String c EmptyString]
           end
  end.

(** [lines.join('\n')], used to write multi-line texts. *)
Fixpoint join_lines (lines : list string) : string :=
  match lines with
  | [] => EmptyString
  | [l] => l
  | l :: rest => (l ++ String "010"%char (join_lines rest))%string
  end.

(** [l[i]] read under a guard [i < l.length]. *)
Definition at_index (l : list string) (i : nat) : string := default "" (l !! i).

(** [l[i] === r[k]]; an index out of range reads [undefined]. *)
Definition same_line (l : list string) (i : nat) (r : list string) (k : nat) : bool :=
  bool_decide (l !! i = r !! k).

(** *** computeLCS: the DP table *)

(** [dp[i][j]] *)
Definition dp_get (dp : list (list nat)) (i j : nat) : nat :=
  default 0 (dp !! i ≫= (.!! j)).

(** [dp[i][j] = v] *)
Definition dp_set (dp : list (list nat)) (i j v : nat) : list (list nat) :=
  alter (<[j := v]>) i dp.

(** [Array(m + 1).fill(null).map(() => Array(n + 1).fill(0))] *)
Definition dp_init (m n : nat) : list (list nat) :=
  replicate (S m) (replicate (S n) 0).

(** Body of the two nested [for] loops. *)
Definition dp_cell (a b : list string) (dp : list (list nat)) (i j : nat) : list (list nat) :=
  if same_line a (i - 1) b (j - 1)
  then dp_set dp i j (dp_get dp (i - 1) (j - 1) + 1)
  else dp_set dp i j (Nat.max (dp_get dp (i - 1) j) (dp_get dp i (j - 1))).

(** [for (i = 1..m) for (j = 1..n) ...] *)
Definition dp_table (a b : list string) : list (list nat) :=
  foldl (fun dp i => foldl (fun dp j => dp_cell a b dp i j) dp (seq 1 (length b)))
        (dp_init (length a) (length b)) (seq 1 (length a)).

(** The reconstruction loop [while (i > 0 && j > 0)]; [lcs.unshift] is a
    cons.  [None]: out of fuel. *)
Fixpoint lcs_walk (fuel : nat) (a b : list string) (dp : list (list nat))
    (i j : nat) (lcs : list string) : option (list string) :=
  match fuel with
  | 0 => None
  | S fuel' =>
      if (0 <? i) && (0 <? j) then
        if same_line a (i - 1) b (j - 1) then
          lcs_walk fuel' a b dp (i - 1) (j - 1) (at_index a (i - 1) :: lcs)
        else if dp_get dp i (j - 1) <? dp_get dp (i - 1) j then
          lcs_walk fuel' a b dp (i - 1) j lcs
        else
          lcs_walk fuel' a b dp i (j - 1) lcs
      else Some lcs
  end.

Definition computeLCS_fuel (fuel : nat) (a b : list string) : option (list string) :=
  lcs_walk fuel a b (dp_table a b) (length a) (length b) [].

Definition computeLCS (a b : list string) : option (list string) :=
  computeLCS_fuel (S (length a + length b)) a b.

(** *** computeDiff *)

(** The inner [while (i < oldLines.length && oldLines[i] !== lcs[k])] of the
    second branch; returns the new [i] and the extended output. *)
Fixpoint skip_removed (fuel : nat) (oldLines lcs : list string) (k i : nat)
    (diffLines : list DiffLine) : option (nat * list DiffLine) :=
  match fuel with
  | 0 => None
  | S fuel' =>
      if (i <? length oldLines) && negb (same_line oldLines i lcs k) then
        skip_removed fuel' oldLines lcs k (S i)
          (diffLines ++ [Removed (at_index oldLines i)])
      else Some (i, diffLines)
  end.

(** The outer [while (i < oldLines.length || j < newLines.length)]. *)
Fixpoint diff_walk (fuel : nat) (oldLines newLines lcs : list string)
    (i j k : nat) (diffLines : list DiffLine) : option (list DiffLine) :=
  match fuel with
  | 0 => None
  | S fuel' =>
      if (i <? length oldLines) || (j <? length newLines) then
        if (k <? length lcs) && (i <? length oldLines) && same_line oldLines i lcs k then
          diff_walk fuel' oldLines newLines lcs (S i) (S j) (S k)
            (diffLines ++ [Context (at_index oldLines i)])
        else if (k <? length lcs) && (j <? length newLines) && same_line newLines j lcs k then
          match skip_removed fuel' oldLines lcs k i diffLines with
          | Some (i', diffLines') => diff_walk fuel' oldLines newLines lcs i' j k diffLines'
          | None => None
          end
        else
          let '(i1, d1) :=
            if (i <? length oldLines)
               && (negb (k <? length lcs) || negb (same_line oldLines i lcs k))
            then (S i, diffLines ++ [Removed (at_index oldLines i)])
            else (i, diffLines) in
          let '(j1, d2) :=
            if (j <? length newLines)
               && (negb (k <? length lcs) || negb (same_line newLines j lcs k))
            then (S j, d1 ++ [Added (at_index newLines j)])
            else (j, d1) in
          diff_walk fuel' oldLines newLines lcs i1 j1 k d2
      else Some diffLines
  end.

Definition computeDiff_fuel (fuel : nat) (oldLines newLines : list string)
    : option (list DiffLine) :=
  lcs ← computeLCS_fuel fuel oldLines newLines;
  diff_walk fuel oldLines newLines lcs 0 0 0 [].

Definition computeDiff (oldLines newLines : list string) : option (list DiffLine) :=
  computeDiff_fuel (S (length oldLines + length newLines)) oldLines newLines.

(** *** computeStats *)

(** JavaScript truthiness of a [string | undefined]: [undefined] and the
    empty string are falsy. *)
Definition truthy (content : option string) : bool :=
  match content with
  | None | Some EmptyString => false
  | Some _ => true
  end.

(** The string behind a truthy value. *)
Definition text (content : option string) : string := default "" content.

(** The counting loop [for (const line of diffLines)]: the pair is
    [(additions, deletions)]. *)
Definition count_step (counts : nat * nat) (line : DiffLine) : nat * nat :=
  let '(additions, deletions) := counts in
  match line with
  | Added _ => (S additions, deletions)
  | Removed _ => (additions, S deletions)
  | Context _ => (additions, deletions)
  end.

Definition count_changes (diffLines : list DiffLine) : nat * nat :=
  foldl count_step (0, 0) diffLines.

Definition computeStats (oldContent newContent : option string) : option DiffStats :=
  if negb (truthy oldContent) && negb (truthy newContent) then
    Some (mkStats 0 0 0)
  else if negb (truthy oldContent) then
    Some (mkStats (length (split_lines (text newContent))) 0 0)
  else if negb (truthy newContent) then
    Some (mkStats 0 (length (split_lines (text oldContent))) 0)
  else
    diffLines ← computeDiff (split_lines (text oldContent)) (split_lines (text newContent));
    let '(additions, deletions) := count_changes diffLines in
    let modifications := Nat.min additions deletions in
    Some (mkStats (additions - modifications) (deletions - modifications) modifications).

(** *** The reading of a diff as an edit script

    Following the specification's round-trip law: walk the emitted lines in
    order over the old text, keep the old line under a [Context], drop it
    under a [Removed], and insert the carried line at an [Added].  [None]
    when the script asks for an old line that is not there. *)
Fixpoint apply_edit_script (oldLines : list string) (diffLines : list DiffLine)
    : option (list string) :=
  match diffLines with
  | [] => Some oldLines
  | Context _ :: rest =>
      match oldLines with
      | l :: oldLines' => (l ::.) <$> apply_edit_script oldLines' rest
      | [] => None
      end
  | Removed _ :: rest =>
      match oldLines with
      | _ :: oldLines' => apply_edit_script oldLines' rest
      | [] => None
      end
  | Added l :: rest => (l ::.) <$> apply_edit_script oldLines rest
  end.

(** The raw counts of the specification: [count(Added)], [count(Removed)]. *)
Definition is_added (line : DiffLine) : bool :=
  match line with Added _ => true | _ => false end.
Definition is_removed (line : DiffLine) : bool :=
  match line with Removed _ => true | _ => false end.
Definition raw_added (diffLines : list DiffLine) : nat :=
  length (List.filter is_added diffLines).
Definition raw_removed (diffLines : list DiffLine) : nat :=
  length (List.filter is_removed diffLines).

(** The alignment invariant of [computeDiff]: the part of the LCS still to
    be matched is a subsequence of the part of [oldLines] still to be read. *)
Definition aligned (oldLines lcs : list string) (i k : nat) : Prop :=
  drop k lcs `sublist_of` drop i oldLines.

(** *** Termination of the loops *)

Lemma lcs_walk_total fuel a b dp i j lcs :
  i + j < fuel → is_Some (lcs_walk fuel a b dp i j lcs).
Proof.
  revert i j lcs. induction fuel as [|fuel IH]; intros i j lcs Hlt; [lia|].
  simpl. destruct (0 <? i) eqn:Hi; simpl; [|by eexists].
  destruct (0 <? j) eqn:Hj; simpl; [|by eexists].
  apply Nat.ltb_lt in Hi, Hj.
  destruct (same_line a (i - 1) b (j - 1)); [apply IH; lia|].
  destruct (dp_get dp i (j - 1) <? dp_get dp (i - 1) j); apply IH; lia.
Qed.

(** What the reconstruction adds in front of the accumulator is read off
    [a] from right to left, so it is a subsequence of [a]'s first [i]
    lines, whatever the table holds. *)
Lemma lcs_walk_sublist fuel a b dp i j lcs r :
  i ≤ length a →
  lcs_walk fuel a b dp i j lcs = Some r →
  ∃ p, r = p ++ lcs ∧ p `sublist_of` take i a.
Proof.
  revert i j lcs. induction fuel as [|fuel IH]; intros i j lcs Hi Hr; [done|].
  simpl in Hr. destruct (0 <? i) eqn:Hi0; simpl in Hr.
  2:{ exists []. split; [by simplify_eq|apply sublist_nil_l]. }
  destruct (0 <? j) eqn:Hj0; simpl in Hr.
  2:{ exists []. split; [by simplify_eq|apply sublist_nil_l]. }
  apply Nat.ltb_lt in Hi0.
  assert (Htake : take i a = take (i - 1) a ++ [at_index a (i - 1)]).
  { destruct (lookup_lt_is_Some_2 a (i - 1)) as [x Hx]; [lia|].
    unfold at_index. rewrite Hx. simpl.
    replace i with (S (i - 1)) at 1 by lia. by apply take_S_r. }
  destruct (same_line a (i - 1) b (j - 1)).
  - apply IH in Hr as (p & -> & Hp); [|lia].
    exists (p ++ [at_index a (i - 1)]). split; [by rewrite <- app_assoc|].
    rewrite Htake. by apply sublist_app.
  - destruct (dp_get dp i (j - 1) <? dp_get dp (i - 1) j).
    + apply IH in Hr as (p & -> & Hp); [|lia].
      exists p. split; [done|]. rewrite Htake. by apply sublist_inserts_r.
    + apply IH in Hr as (p & -> & Hp); [|lia]. by exists p.
Qed.

Lemma computeLCS_fuel_sublist fuel a b lcs :
  computeLCS_fuel fuel a b = Some lcs → lcs `sublist_of` a.
Proof.
  unfold computeLCS_fuel. intros (p & -> & Hp)%lcs_walk_sublist; [|done].
  rewrite app_nil_r. by rewrite firstn_all in Hp.
Qed.

Lemma aligned_in_range oldLines lcs i k :
  aligned oldLines lcs i k → k < length lcs → i < length oldLines.
Proof.
  intros H%sublist_length Hk. rewrite !length_drop in H. lia.
Qed.

Lemma aligned_skip oldLines lcs i k :
  aligned oldLines lcs i k → i < length oldLines →
  same_line oldLines i lcs k = false →
  aligned oldLines lcs (S i) k.
Proof.
  unfold aligned, same_line. intros H Hi Hne.
  apply bool_decide_eq_false in Hne.
  destruct (lookup_lt_is_Some_2 oldLines i Hi) as [x Hx].
  rewrite (drop_S _ _ _ Hx) in H.
  apply sublist_cons_r in H as [H|(l' & Hl' & _)]; [done|].
  exfalso. apply Hne. rewrite Hx.
  pose proof (lookup_drop lcs k 0) as E.
  rewrite Hl', Nat.add_0_r in E. by rewrite <- E.
Qed.

Lemma aligned_match oldLines lcs i k :
  aligned oldLines lcs i k → i < length oldLines → k < length lcs →
  aligned oldLines lcs (S i) (S k).
Proof.
  unfold aligned. intros H Hi Hk.
  destruct (lookup_lt_is_Some_2 oldLines i Hi) as [x Hx].
  destruct (lookup_lt_is_Some_2 lcs k Hk) as [y Hy].
  rewrite (drop_S _ _ _ Hx), (drop_S _ _ _ Hy) in H.
  apply sublist_cons_r in H as [H|(l' & Hl' & H)].
  - etrans; [|exact H]. by apply sublist_cons.
  - by simplify_eq.
Qed.

Lemma skip_removed_spec fuel oldLines lcs k i diffLines :
  length oldLines - i < fuel →
  ∃ i' d', skip_removed fuel oldLines lcs k i diffLines = Some (i', d')
    ∧ i ≤ i'
    ∧ (i < length oldLines → same_line oldLines i lcs k = false → i < i')
    ∧ (aligned oldLines lcs i k → aligned oldLines lcs i' k).
Proof.
  revert i diffLines. induction fuel as [|fuel IH]; intros i d Hlt; [lia|].
  simpl. destruct (i <? length oldLines) eqn:Hi; simpl.
  2:{ apply Nat.ltb_ge in Hi. exists i, d. repeat split; [done|lia|done]. }
  apply Nat.ltb_lt in Hi.
  destruct (same_line oldLines i lcs k) eqn:Heq; simpl.
  { exists i, d. repeat split; [done|congruence|done]. }
  destruct (IH (S i) (d ++ [Removed (at_index oldLines i)])) as (i' & d' & -> & Hle & _ & Hal);
    [lia|].
  exists i', d'. repeat split; [lia|lia|].
  intros H. by apply Hal, aligned_skip.
Qed.

Lemma diff_walk_total fuel oldLines newLines lcs i j k diffLines :
  aligned oldLines lcs i k →
  (length oldLines - i) + (length newLines - j) < fuel →
  is_Some (diff_walk fuel oldLines newLines lcs i j k diffLines).
Proof.
  revert i j k diffLines.
  induction fuel as [|fuel IH]; intros i j k d Hal Hlt; [lia|].
  simpl.
  destruct (i <? length oldLines) eqn:Hi; destruct (j <? length newLines) eqn:Hj;
    simpl; try (by eexists);
    first [apply Nat.ltb_lt in Hi | apply Nat.ltb_ge in Hi];
    first [apply Nat.ltb_lt in Hj | apply Nat.ltb_ge in Hj].
  - (* both cursors inside *)
    destruct (k <? length lcs) eqn:Hk; simpl.
    + apply Nat.ltb_lt in Hk.
      destruct (same_line oldLines i lcs k) eqn:Ho; simpl.
      * apply IH; [by apply aligned_match|lia].
      * destruct (same_line newLines j lcs k) eqn:Hn; simpl.
        -- destruct (skip_removed_spec fuel oldLines lcs k i d)
             as (i' & d' & -> & Hle & Hprog & Hal'); [lia|].
           specialize (Hprog Hi Ho). apply IH; [by apply Hal'|lia].
        -- apply IH; [by apply aligned_skip|lia].
    + apply IH; [|lia]. apply Nat.ltb_ge in Hk.
      unfold aligned. rewrite (drop_ge lcs) by lia. apply sublist_nil_l.
  - (* only the old cursor inside *)
    rewrite !andb_false_r. simpl.
    destruct (k <? length lcs) eqn:Hk; simpl.
    + apply Nat.ltb_lt in Hk.
      destruct (same_line oldLines i lcs k) eqn:Ho; simpl.
      * apply IH; [by apply aligned_match|lia].
      * apply IH; [by apply aligned_skip|lia].
    + apply IH; [|lia]. apply Nat.ltb_ge in Hk.
      unfold aligned. rewrite (drop_ge lcs) by lia. apply sublist_nil_l.
  - (* only the new cursor inside: the LCS is used up *)
    assert (Hk : length lcs ≤ k).
    { destruct (decide (k < length lcs)) as [Hk|]; [|lia].
      pose proof (aligned_in_range _ _ _ _ Hal Hk). lia. }
    apply Nat.ltb_ge in Hk. rewrite Hk. simpl.
    apply IH; [done|lia].
Qed.

(** *** More fuel never changes a result *)

Lemma lcs_walk_mono fuel fuel' a b dp i j lcs r :
  lcs_walk fuel a b dp i j lcs = Some r → fuel ≤ fuel' →
  lcs_walk fuel' a b dp i j lcs = Some r.
Proof.
  revert fuel' i j lcs. induction fuel as [|fuel IH]; intros fuel' i j lcs Hr Hle; [done|].
  destruct fuel' as [|fuel']; [lia|]. simpl in *.
  destruct ((0 <? i) && (0 <? j)); [|done].
  destruct (same_line a (i - 1) b (j - 1)); [apply IH; [done|lia]|].
  destruct (dp_get dp i (j - 1) <? dp_get dp (i - 1) j); apply IH; (done || lia).
Qed.

Lemma skip_removed_mono fuel fuel' oldLines lcs k i d r :
  skip_removed fuel oldLines lcs k i d = Some r → fuel ≤ fuel' →
  skip_removed fuel' oldLines lcs k i d = Some r.
Proof.
  revert fuel' i d. induction fuel as [|fuel IH]; intros fuel' i d Hr Hle; [done|].
  destruct fuel' as [|fuel']; [lia|]. simpl in *.
  destruct ((i <? length oldLines) && negb (same_line oldLines i lcs k)); [|done].
  apply IH; [done|lia].
Qed.

Lemma diff_walk_mono fuel fuel' oldLines newLines lcs i j k d r :
  diff_walk fuel oldLines newLines lcs i j k d = Some r → fuel ≤ fuel' →
  diff_walk fuel' oldLines newLines lcs i j k d = Some r.
Proof.
  revert fuel' i j k d.
  induction fuel as [|fuel IH]; intros fuel' i j k d Hr Hle; [done|].
  destruct fuel' as [|fuel']; [lia|]. simpl in *.
  destruct ((i <? length oldLines) || (j <? length newLines)); [|done].
  destruct ((k <? length lcs) && (i <? length oldLines) && same_line oldLines i lcs k);
    [apply IH; [done|lia]|].
  destruct ((k <? length lcs) && (j <? length newLines) && same_line newLines j lcs k).
  - destruct (skip_removed fuel oldLines lcs k i d) as [[i' d']|] eqn:Hs; [|done].
    rewrite (skip_removed_mono _ fuel' _ _ _ _ _ _ Hs) by lia.
    apply IH; [done|lia].
  - destruct (if (i <? length oldLines) && _ then _ else _) as [i1 d1].
    destruct (if (j <? length newLines) && _ then _ else _) as [j1 d2].
    apply IH; [done|lia].
Qed.

Lemma computeLCS_total a b : is_Some (computeLCS a b).
Proof. apply lcs_walk_total. lia. Qed.

Lemma computeDiff_total a b : is_Some (computeDiff a b).
Proof.
  unfold computeDiff, computeDiff_fuel.
  destruct (lcs_walk_total (S (length a + length b)) a b (dp_table a b)
              (length a) (length b) []) as [lcs Hlcs]; [lia|].
  unfold computeLCS_fuel. rewrite Hlcs.
  change (is_Some (diff_walk (S (length a + length b)) a b lcs 0 0 0 [])).
  apply diff_walk_total; [|lia].
  unfold aligned. rewrite !drop_0.
  by apply (computeLCS_fuel_sublist (S (length a + length b)) a b).
Qed.

(** C10. [computeLCS] and [computeDiff] terminate on every pair of finite
    line sequences (repeated lines, empty sequences and sequences without a
    common line included): with the fuel [length a + length b + 1] both
    loops of [computeLCS] and both loops of [computeDiff] run to their exit,
    and any larger fuel yields the same results. *)
Theorem computeLCS_computeDiff_total (a b : list string) :
  is_Some (computeLCS a b) ∧ is_Some (computeDiff a b) ∧
  ∀ fuel, length a + length b < fuel →
    computeLCS_fuel fuel a b = computeLCS a b ∧
    computeDiff_fuel fuel a b = computeDiff a b.
Proof.
  split; [apply computeLCS_total|]. split; [apply computeDiff_total|].
  intros fuel Hfuel.
  destruct (computeLCS_total a b) as [lcs Hlcs].
  destruct (computeDiff_total a b) as [d Hd].
  assert (Hl : computeLCS_fuel fuel a b = Some lcs).
  { eapply lcs_walk_mono; [exact Hlcs|lia]. }
  split; [by rewrite Hl, Hlcs|].
  rewrite Hd. unfold computeDiff, computeDiff_fuel in *.
  unfold computeLCS in Hlcs. rewrite Hlcs in Hd. rewrite Hl.
  change (diff_walk (S (length a + length b)) a b lcs 0 0 0 [] = Some d) in Hd.
  change (diff_walk fuel a b lcs 0 0 0 [] = Some d).
  eapply diff_walk_mono; [exact Hd|lia].
Qed.

(** C1. The round-trip law fails on the code: for the old text [a] and the
    new text [x; a], [computeDiff] emits [Context a; Added a]; read as an
    edit script over the old text this yields [a; a], which is not the new
    text. *)
Theorem computeDiff_round_trip_broken :
  computeDiff ["a"] ["x"; "a"] = Some [Context "a"; Added "a"] ∧
  apply_edit_script ["a"] [Context "a"; Added "a"] = Some ["a"; "a"] ∧
  ["a"; "a"] ≠ ["x"; "a"].
Proof. repeat split; [vm_compute; reflexivity..|discriminate]. Qed.

(** *** computeStats *)

Lemma count_step_raw d x y :
  foldl count_step (x, y) d = (x + raw_added d, y + raw_removed d).
Proof.
  unfold raw_added, raw_removed.
  revert x y. induction d as [|l d IH]; intros x y; simpl.
  - f_equal; lia.
  - destruct l; simpl; rewrite IH; f_equal; lia.
Qed.

Lemma count_changes_raw d : count_changes d = (raw_added d, raw_removed d).
Proof. apply count_step_raw. Qed.

Lemma truthy_false content :
  truthy content = false ↔ content = None ∨ content = Some "".
Proof.
  destruct content as [[|c r]|]; simpl; (split; [intros H|intros [H|H]]);
    try done; auto.
Qed.

Lemma truthy_Some s : s ≠ "" → truthy (Some s) = true.
Proof. by destruct s. Qed.

(** C7, as the code has it.  For two present, non-empty texts the
    modifications are the minimum of the raw added and removed counts of
    [computeDiff], and additions and deletions are the raw counts less the
    modifications.  An old text that is absent or empty, against a non-empty
    new text, counts every new line as an addition and nothing else;
    symmetrically for an absent or empty new text; two absent or empty texts
    give all zeros.  The two scenarios of the specification evaluate as it
    says. *)
Theorem computeStats_pairs_modifications :
  (∀ o n : string, o ≠ "" → n ≠ "" →
     ∃ d, computeDiff (split_lines o) (split_lines n) = Some d ∧
          let m := Nat.min (raw_added d) (raw_removed d) in
          computeStats (Some o) (Some n) =
            Some (mkStats (raw_added d - m) (raw_removed d - m) m)) ∧
  (∀ (old : option string) (n : string),
     old = None ∨ old = Some "" → n ≠ "" →
     computeStats old (Some n) = Some (mkStats (length (split_lines n)) 0 0)) ∧
  (∀ (o : string) (new : option string),
     new = None ∨ new = Some "" → o ≠ "" →
     computeStats (Some o) new = Some (mkStats 0 (length (split_lines o)) 0)) ∧
  (∀ old new : option string,
     old = None ∨ old = Some "" → new = None ∨ new = Some "" →
     computeStats old new = Some (mkStats 0 0 0)) ∧
  computeStats (Some (join_lines ["a"; "b"; "c"])) (Some (join_lines ["a"; "x"; "c"]))
    = Some (mkStats 0 0 1) ∧
  computeStats None (Some (join_lines ["line1"; "line2"])) = Some (mkStats 2 0 0).
Proof.
  split; [|split; [|split; [|split; [|split]]]].
  - intros o n Ho Hn. destruct (computeDiff_total (split_lines o) (split_lines n)) as [d Hd].
    exists d. split; [done|]. unfold computeStats.
    rewrite (truthy_Some o Ho), (truthy_Some n Hn). simpl.
    rewrite Hd. simpl. by rewrite count_changes_raw.
  - intros old n Hold%truthy_false Hn. unfold computeStats.
    by rewrite Hold, (truthy_Some n Hn).
  - intros o new Hnew%truthy_false Ho. unfold computeStats.
    by rewrite Hnew, (truthy_Some o Ho).
  - intros old new Hold%truthy_false Hnew%truthy_false. unfold computeStats.
    by rewrite Hold, Hnew.
  - vm_compute. reflexivity.
  - vm_compute. reflexivity.
Qed.

(** C7 as stated fails for an empty old text: against the new text [x] the
    raw diff of the line sequences holds one removal and one addition, so the
    stated rule gives one modification, while [computeStats] takes the
    pure-creation branch and reports one addition and no modification. *)
Lemma computeStats_empty_old_not_paired :
  ∃ d s, computeDiff (split_lines "") (split_lines "x") = Some d ∧
         computeStats (Some "") (Some "x") = Some s ∧
         d = [Removed ""; Added "x"] ∧ s = mkStats 1 0 0 ∧
         modifications s ≠ Nat.min (raw_added d) (raw_removed d).
Proof.
  exists [Removed ""; Added "x"], (mkStats 1 0 0).
  repeat split; try (vm_compute; reflexivity). vm_compute. discriminate.
Qed.

End DiffViewer.

(* ===================================================================== *)
(** ** JavaScript strings *)
(* ===================================================================== *)

Module JsString.

(** A JavaScript string is a sequence of UTF-16 code units; [s.length]
    counts them. *)
Definition jsstring : Type := list N.

(** The code units of an ASCII literal. *)
Fixpoint js (s : string) : jsstring :=
  match s with
  | EmptyString => []
  | String c rest => N_of_ascii c :: js rest
  end.

(** The code units [String.prototype.trim] strips: ECMAScript WhiteSpace
    and LineTerminator. *)
Definition is_white_space (c : N) : bool :=
  ((9 <=? c) && (c <=? 13) || (c =? 32) || (c =? 160) || (c =? 5760)
   || (8192 <=? c) && (c <=? 8202) || (c =? 8232) || (c =? 8233)
   || (c =? 8239) || (c =? 8287) || (c =? 12288) || (c =? 65279))%N.

Fixpoint trim_start (s : jsstring) : jsstring :=
  match s with
  | c :: rest => if is_white_space c then trim_start rest else s
  | [] => []
  end.

(** [s.trim()] *)
Definition trim (s : jsstring) : jsstring :=
  rev (trim_start (rev (trim_start s))).

(** [s === t] on strings. *)
Definition str_eqb (s t : jsstring) : bool := bool_decide (s = t).

End JsString.

(* ===================================================================== *)
(** ** ToolValidation *)
(* ===================================================================== *)

Module ToolValidation.
Import JsString.

(** [type ValidationResult]: [{isValid: true, errorMessage: null}] or
    [{isValid: false, errorMessage}]. *)
Inductive ValidationResult : Type :=
| valid
| invalid (errorMessage : string).

Definition isValid (r : ValidationResult) : bool :=
  match r with valid => true | invalid _ => false end.

(** [s.startsWith(needle)] at position 0. *)
Fixpoint starts_with (needle s : jsstring) : bool :=
  match needle, s with
  | [], _ => true
  | _ :: _, [] => false
  | x :: needle', c :: s' => (x =? c)%N && starts_with needle' s'
  end.

(** [s.includes(needle)] *)
Fixpoint includes (needle s : jsstring) : bool :=
  starts_with needle s ||
  match s with
  | [] => false
  | _ :: s' => includes needle s'
  end.

(** [!s] for a string: only the empty string is falsy. *)
Definition is_empty (s : jsstring) : bool :=
  match s with [] => true | _ => false end.

(** The double-quote character. *)
Definition quote : string := String "034"%char EmptyString.

Definition validatePath (path : jsstring) : ValidationResult :=
  if is_empty path || (length (trim path) =? 0) then
    invalid "Path cannot be empty or blank"
  else if includes (js "..") path then
    invalid ("Path traversal not allowed (path contains " ++ quote ++ ".."
             ++ quote ++ ")")%string
  else valid.

Definition MAX_SIZE : N := 1000000.

Definition validateContent (content : jsstring) : ValidationResult :=
  if length content =? 0 then invalid "Content cannot be empty"
  else if (MAX_SIZE <? N.of_nat (length content))%N then
    invalid ("Content exceeds maximum size of " ++ pretty MAX_SIZE
             ++ " characters (got " ++ pretty (N.of_nat (length content)) ++ ")")%string
  else valid.

Definition validateCommand (command : jsstring) : ValidationResult :=
  if is_empty command || (length (trim command) =? 0) then
    invalid "Command cannot be empty or blank"
  else valid.

(** [timeoutSeconds] is a JavaScript number, an IEEE 754 double. *)
Definition validateTimeout (timeoutSeconds : float) : ValidationResult :=
  if PrimFloat.leb timeoutSeconds 0%float then
    invalid "Timeout must be greater than 0"
  else if PrimFloat.ltb 600%float timeoutSeconds then
    invalid "Timeout cannot exceed 600 seconds (10 minutes)"
  else valid.

(** *** The conditions in the specification's words *)

(** Blank: nothing but white space (the empty string included). *)
Definition blank (s : jsstring) : Prop := Forall (fun c => is_white_space c = true) s.

(** Two consecutive dots somewhere in the string. *)
Definition contains_dotdot (s : jsstring) : Prop :=
  ∃ pre post, s = pre ++ js ".." ++ post.

(** The segments of a path: the maximal runs between separators [/] and
    [\]. *)
Definition is_separator (c : N) : bool := ((c =? 47) || (c =? 92))%N.

Fixpoint segments (path : jsstring) : list jsstring :=
  match path with
  | [] => [[]]
  | c :: rest =>
      if is_separator c then [] :: segments rest
      else match segments rest with
           | seg :: segs => (c :: seg) :: segs
           | [] => [[c]]
           end
  end.

(** A path-traversal segment is a segment that is exactly [..]. *)
Definition has_traversal_segment (path : jsstring) : bool :=
  bool_decide (js ".." ∈ segments path).

(** *** Properties *)

Lemma trim_start_nil s : trim_start s = [] ↔ blank s.
Proof.
  unfold blank. induction s as [|c s IH]; simpl.
  - split; [constructor|done].
  - destruct (is_white_space c) eqn:Hc.
    + rewrite IH. split; [by constructor|by inversion 1].
    + split; [done|]. inversion 1; congruence.
Qed.

Lemma trim_start_blank s : blank (trim_start s) ↔ blank s.
Proof.
  unfold blank. induction s as [|c s IH]; simpl; [done|].
  destruct (is_white_space c) eqn:Hc; [|done].
  rewrite IH. split; [by constructor|by inversion 1].
Qed.

Lemma blank_rev s : blank (rev s) ↔ blank s.
Proof.
  unfold blank. split; intros H; [|by apply Forall_rev].
  rewrite <- (rev_involutive s). by apply Forall_rev.
Qed.

Lemma trim_nil s : length (trim s) = 0 ↔ blank s.
Proof.
  unfold trim.
  rewrite length_rev, length_zero_iff_nil, trim_start_nil, blank_rev.
  apply trim_start_blank.
Qed.

Lemma blank_test s :
  is_empty s || (length (trim s) =? 0) = true ↔ blank s.
Proof.
  rewrite orb_true_iff, Nat.eqb_eq, trim_nil. split; [|by right].
  intros [He|?]; [|done]. destruct s; [constructor|done].
Qed.

Lemma starts_with_spec needle s :
  starts_with needle s = true ↔ ∃ post, s = needle ++ post.
Proof.
  revert s. induction needle as [|x needle IH]; intros s; simpl.
  - split; [by exists s|done].
  - destruct s as [|c s]; [split; [done|by intros [? ?]]|].
    rewrite andb_true_iff, N.eqb_eq, IH. split.
    + intros [-> [post ->]]. by exists post.
    + intros [post Hp]. simplify_eq. eauto.
Qed.

Lemma includes_spec needle s :
  includes needle s = true ↔ ∃ pre post, s = pre ++ needle ++ post.
Proof.
  induction s as [|c s IH]; simpl.
  - rewrite orb_false_r, starts_with_spec. split.
    + intros [post Hp]. by exists [], post.
    + intros (pre & post & Hp). destruct pre; [by exists post|done].
  - rewrite orb_true_iff, starts_with_spec, IH. split.
    + intros [[post Hp]|(pre & post & ->)]; [by exists [], post|].
      by exists (c :: pre), post.
    + intros (pre & post & Hp). destruct pre as [|c' pre]; [left; by exists post|].
      right. simpl in Hp. simplify_eq. by exists pre, post.
Qed.

Lemma validatePath_rejects path :
  isValid (validatePath path) = false ↔ blank path ∨ contains_dotdot path.
Proof.
  unfold validatePath, contains_dotdot.
  destruct (is_empty path || (length (trim path) =? 0)) eqn:Hb.
  - apply blank_test in Hb. cbn [isValid]. split; auto.
  - assert (¬ blank path) as Hnb by (rewrite <- blank_test; congruence).
    destruct (includes (js "..") path) eqn:Hi; cbn [isValid].
    + apply includes_spec in Hi. split; auto.
    + split; [done|]. intros [?|Hd]; [done|].
      apply includes_spec in Hd. congruence.
Qed.

Lemma validateCommand_rejects command :
  isValid (validateCommand command) = false ↔ blank command.
Proof.
  unfold validateCommand.
  destruct (is_empty command || (length (trim command) =? 0)) eqn:Hb; simpl.
  - by apply blank_test in Hb.
  - split; [done|]. rewrite <- blank_test. congruence.
Qed.

Lemma validateContent_rejects content :
  isValid (validateContent content) = false
  ↔ content = [] ∨ (1000000 < N.of_nat (length content))%N.
Proof.
  unfold validateContent, MAX_SIZE.
  destruct (length content =? 0) eqn:H0; simpl.
  - apply Nat.eqb_eq, length_zero_iff_nil in H0. split; auto.
  - apply Nat.eqb_neq in H0.
    destruct (1000000 <? N.of_nat (length content))%N eqn:Hm; simpl.
    + apply N.ltb_lt in Hm. split; auto.
    + apply N.ltb_ge in Hm. split; [done|].
      intros [->|?]; [done|lia].
Qed.

Lemma validateTimeout_rejects t :
  isValid (validateTimeout t) = false
  ↔ PrimFloat.leb t 0%float = true ∨ PrimFloat.ltb 600%float t = true.
Proof.
  unfold validateTimeout.
  destruct (PrimFloat.leb t 0%float); simpl; [split; auto|].
  destruct (PrimFloat.ltb 600%float t); simpl; [split; auto|].
  split; [done|]. intros [?|?]; done.
Qed.

(** C9, as the code has it.  [validatePath] rejects exactly the blank paths
    (the empty one included) and the paths with two consecutive dots
    anywhere; [validateContent] rejects exactly the empty string and content
    of more than 1,000,000 code units; [validateCommand] rejects exactly the
    blank commands; [validateTimeout] rejects exactly the numbers that
    compare [<= 0] or [> 600]. *)
Theorem validation_rejects_exactly :
  (∀ path, isValid (validatePath path) = false ↔ blank path ∨ contains_dotdot path) ∧
  (∀ content, isValid (validateContent content) = false
              ↔ content = [] ∨ (1000000 < N.of_nat (length content))%N) ∧
  (∀ command, isValid (validateCommand command) = false ↔ blank command) ∧
  (∀ t, isValid (validateTimeout t) = false
        ↔ PrimFloat.leb t 0%float = true ∨ PrimFloat.ltb 600%float t = true).
Proof.
  split; [exact validatePath_rejects|].
  split; [exact validateContent_rejects|].
  split; [exact validateCommand_rejects|exact validateTimeout_rejects].
Qed.

(** C9 as stated fails for [validatePath]: the path [a..b] is not blank and
    none of its segments is [..], yet it is rejected. *)
Lemma validatePath_rejects_dots_inside_a_name :
  isValid (validatePath (js "a..b")) = false ∧
  segments (js "a..b") = [js "a..b"] ∧
  has_traversal_segment (js "a..b") = false ∧
  is_empty (js "a..b") || (length (trim (js "a..b")) =? 0) = false.
Proof. repeat split; vm_compute; reflexivity. Qed.

End ToolValidation.

(* ===================================================================== *)
(** ** InteractiveMenu and InteractiveConfirmationHandler *)
(* ===================================================================== *)

Module Interactive.
Import JsString.

(** [type FileWriteConfirmation] *)
Inductive FileWriteConfirmation : Type :=
| approved
| rejected
| error (message : string).

(** [enum Choice] *)
Inductive Choice : Type := YES | NO | ALWAYS | DENY | VIEW | IDE | HELP.

(** [enum ApprovalResult] *)
Inductive ApprovalResult : Type := APPROVED | REJECTED | IDE_NOT_AVAILABLE.

(** *** InteractiveMenu *)

(** [toLowerCase] on the letters A to Z.  No other code unit lowers to a
    string that occurs in the keywords of [parseChoice], so this is all of
    [toLowerCase] that the switch can observe. *)
Definition lower (c : N) : N :=
  if ((65 <=? c) && (c <=? 90))%N then (c + 32)%N else c.

Definition toLowerCase (s : jsstring) : jsstring := map lower s.

(** [parseChoice]: the [switch (input.toLowerCase())]. *)
Definition parseChoice (input : jsstring) : option Choice :=
  let s := toLowerCase input in
  if str_eqb s (js "y") || str_eqb s (js "yes") then Some YES
  else if str_eqb s (js "n") || str_eqb s (js "no") then Some NO
  else if str_eqb s (js "a") || str_eqb s (js "always") then Some ALWAYS
  else if str_eqb s (js "d") || str_eqb s (js "deny") then Some DENY
  else if str_eqb s (js "v") || str_eqb s (js "view") then Some VIEW
  else if str_eqb s (js "i") || str_eqb s (js "ide") then Some IDE
  else if str_eqb s (js "?") || str_eqb s (js "help") then Some HELP
  else None.

(** One answer of the user to a menu: the line typed at the text menu (or
    the value picked in the list menu).  [showTextMenu] hands
    [answer.trim().toLowerCase()] to [parseChoice]; the values of the list
    menu are unchanged by that. *)
Definition showTextMenu (answer : jsstring) : option Choice :=
  parseChoice (toLowerCase (trim answer)).

Definition showMenu (answer : jsstring) : option Choice :=
  showTextMenu answer.

(** *** The handler and its surroundings *)

(** The private fields of [InteractiveConfirmationHandler]. *)
Record Handler : Type := mkHandler {
  alwaysApprove : bool;
  alwaysDeny : bool;
  consecutiveNulls : nat
}.

(** [new InteractiveConfirmationHandler()] *)
Definition fresh : Handler := mkHandler false false 0.

Definition MAX_CONSECUTIVE_NULLS : nat := 3.

(** What the handler reads from outside: whether stdin is a TTY, the
    answers the user will give to the coming prompts, and the outcome of
    each coming IntelliJ escalation ([None]: [isIntelliJAvailable()] is
    false). *)
Record Terminal : Type := mkTerminal {
  isTTY : bool;
  answers : list jsstring;
  ideRuns : list (option ApprovalResult)
}.

(** The argument of [requestFileWriteConfirmation]. *)
Record WriteOptions : Type := mkOptions {
  path : jsstring;
  overwrite : bool;
  oldContent : option string;
  newContent : option string
}.

(** A confirmation call that returned: outcome, handler fields and what is
    left of the terminal's input.  A call that is still waiting for an
    answer (or for the IDE) when the input ends is [None]. *)
Definition Returned : Type := FileWriteConfirmation * Handler * Terminal.

(** [tryIDEApproval], on the outcome of one escalation. *)
Definition tryIDEApproval (run : option ApprovalResult) : option FileWriteConfirmation :=
  match run with
  | None => None
  | Some APPROVED => Some approved
  | Some REJECTED => Some rejected
  | Some IDE_NOT_AVAILABLE => None
  end.

Definition set_nulls (h : Handler) (n : nat) : Handler :=
  mkHandler (alwaysApprove h) (alwaysDeny h) n.
Definition set_alwaysApprove (h : Handler) : Handler :=
  mkHandler true (alwaysDeny h) (consecutiveNulls h).
Definition set_alwaysDeny (h : Handler) : Handler :=
  mkHandler (alwaysApprove h) true (consecutiveNulls h).

(** One turn of a [while (true)] prompt loop: the loop returns, or goes
    round again, or waits for an IDE that does not come back. *)
Inductive Turn : Type :=
| Return (c : FileWriteConfirmation) (h : Handler) (ide : list (option ApprovalResult))
| Again (h : Handler) (ide : list (option ApprovalResult))
| Waiting.

(** The handler fields a turn leaves behind. *)
Definition handler_after (turn : Turn) : option Handler :=
  match turn with
  | Return _ h _ | Again h _ => Some h
  | Waiting => None
  end.

(** The body of the loop of [getUserChoice], on one answer. *)
Definition file_turn (h : Handler) (answer : jsstring)
    (ide : list (option ApprovalResult)) : Turn :=
  match showMenu answer with
  | None =>
      let h1 := set_nulls h (S (consecutiveNulls h)) in
      if MAX_CONSECUTIVE_NULLS <=? consecutiveNulls h1
      then Return rejected h1 ide
      else Again h1 ide
  | Some choice =>
      let h1 := set_nulls h 0 in
      match choice with
      | YES => Return approved h1 ide
      | NO => Return rejected h1 ide
      | ALWAYS => Return approved (set_alwaysApprove h1) ide
      | DENY => Return rejected (set_alwaysDeny h1) ide
      | VIEW => Again h1 ide
      | IDE =>
          match ide with
          | [] => Waiting
          | run :: ide' =>
              match tryIDEApproval run with
              | Some ideResult => Return ideResult h1 ide'
              | None => Again h1 ide'
              end
          end
      | HELP => Again h1 ide
      end
  end.

(** The body of the loop of [getUserChoiceForCommand], on one answer. *)
Definition command_turn (h : Handler) (answer : jsstring)
    (ide : list (option ApprovalResult)) : Turn :=
  match showTextMenu answer with
  | None => Again h ide
  | Some YES => Return approved h ide
  | Some NO => Return rejected h ide
  | Some ALWAYS => Return approved (set_alwaysApprove h) ide
  | Some DENY => Return rejected (set_alwaysDeny h) ide
  | Some HELP => Again h ide
  | Some _ => Again h ide
  end.

(** [while (true) { ... }]: one turn per answer of the user; [None] when the
    answers end before the loop returns. *)
Fixpoint prompt_loop (turn : Handler → jsstring → list (option ApprovalResult) → Turn)
    (h : Handler) (tty : bool) (input : list jsstring)
    (ide : list (option ApprovalResult)) : option Returned :=
  match input with
  | [] => None
  | answer :: input' =>
      match turn h answer ide with
      | Return c h1 ide1 => Some (c, h1, mkTerminal tty input' ide1)
      | Again h1 ide1 => prompt_loop turn h1 tty input' ide1
      | Waiting => None
      end
  end.

Definition getUserChoice : Handler → bool → list jsstring →
    list (option ApprovalResult) → option Returned :=
  prompt_loop file_turn.

Definition getUserChoiceForCommand : Handler → bool → list jsstring →
    list (option ApprovalResult) → option Returned :=
  prompt_loop command_turn.

Definition requestFileWriteConfirmation (options : WriteOptions)
    (h : Handler) (t : Terminal) : option Returned :=
  if alwaysDeny h then Some (rejected, h, t)
  else if alwaysApprove h then Some (approved, h, t)
  else if negb (isTTY t) then Some (approved, h, t)
  else getUserChoice h (isTTY t) (answers t) (ideRuns t).

Definition requestShellCommandConfirmation (command : jsstring)
    (h : Handler) (t : Terminal) : option Returned :=
  if alwaysDeny h then Some (rejected, h, t)
  else if alwaysApprove h then Some (approved, h, t)
  else if negb (isTTY t) then Some (approved, h, t)
  else getUserChoiceForCommand h (isTTY t) (answers t) (ideRuns t).

(** The two entry points of the [ConfirmationHandler] interface. *)
Inductive Request : Type :=
| FileWrite (options : WriteOptions)
| ShellCommand (command : jsstring).

Definition request (r : Request) : Handler → Terminal → option Returned :=
  match r with
  | FileWrite options => requestFileWriteConfirmation options
  | ShellCommand command => requestShellCommandConfirmation command
  end.

(** A series of calls on one handler instance, one after the other. *)
Fixpoint session (rs : list Request) (h : Handler) (t : Terminal)
    : option (list FileWriteConfirmation * Handler * Terminal) :=
  match rs with
  | [] => Some ([], h, t)
  | r :: rs' =>
      '(c, h1, t1) ← request r h t;
      '(cs, h2, t2) ← session rs' h1 t1;
      Some (c :: cs, h2, t2)
  end.

(** Going round the loop again never touches the two sticky flags. *)
Definition keeps_flags (h h1 : Handler) : Prop :=
  alwaysApprove h1 = alwaysApprove h ∧ alwaysDeny h1 = alwaysDeny h.

(** *** Properties of the prompt loops *)

Lemma file_turn_again h a ide h1 ide1 :
  file_turn h a ide = Again h1 ide1 → keeps_flags h h1.
Proof.
  unfold file_turn, keeps_flags. intros H.
  destruct (showMenu a) as [[]|]; simpl in H;
    repeat match type of H with
    | context [match ?x with _ => _ end] => destruct x; simpl in H
    end; by simplify_eq.
Qed.

Lemma command_turn_again h a ide h1 ide1 :
  command_turn h a ide = Again h1 ide1 → keeps_flags h h1.
Proof.
  unfold command_turn, keeps_flags. intros H.
  destruct (showTextMenu a) as [[]|]; by simplify_eq.
Qed.

(** A prompt loop that returns has consumed a prefix of the answers; the
    last answer consumed is the one whose turn returned, and the turns
    before it left the flags alone. *)
Lemma prompt_loop_returns turn h tty input ide c h' t' :
  (∀ h a ide h1 ide1, turn h a ide = Again h1 ide1 → keeps_flags h h1) →
  prompt_loop turn h tty input ide = Some (c, h', t') →
  ∃ pre a h0 ide0,
    input = pre ++ a :: answers t' ∧ keeps_flags h h0 ∧
    turn h0 a ide0 = Return c h' (ideRuns t').
Proof.
  intros Hagain. revert h ide.
  induction input as [|a input IH]; intros h ide Hr; simpl in Hr; [done|].
  destruct (turn h a ide) as [c1 h1 ide1|h1 ide1|] eqn:Ht; [| |done].
  - simplify_eq. exists [], a, h, ide. by repeat split.
  - apply IH in Hr as (pre & a' & h0 & ide0 & -> & [Hf1 Hf2] & Hturn).
    destruct (Hagain _ _ _ _ _ Ht) as [Hg1 Hg2].
    exists (a :: pre), a', h0, ide0. repeat split; [congruence..|done].
Qed.

Lemma last_answer_unique {A} (pre pre' : list A) a a' tl :
  pre ++ a :: tl = pre' ++ a' :: tl → a = a'.
Proof.
  intros H.
  assert ((pre ++ [a]) ++ tl = (pre' ++ [a']) ++ tl) as H'
    by (by rewrite <- !app_assoc).
  apply app_inv_tail in H'. by apply app_inj_tail in H' as [_ ?].
Qed.

Lemma no_answer_consumed {A} (pre : list A) a tl : tl ≠ pre ++ a :: tl.
Proof.
  intros H. apply (f_equal length) in H.
  rewrite length_app in H. simpl in H. lia.
Qed.

(** What the deciding answer of a returned call says about its result. *)
Lemma request_decided r h t c h' t' pre a :
  request r h t = Some (c, h', t') →
  answers t = pre ++ a :: answers t' →
  alwaysApprove h = false ∧ alwaysDeny h = false ∧
  ((∃ h0 ide0, keeps_flags h h0 ∧ file_turn h0 a ide0 = Return c h' (ideRuns t')) ∨
   (∃ h0 ide0, keeps_flags h h0 ∧ command_turn h0 a ide0 = Return c h' (ideRuns t'))).
Proof.
  intros Hr Hans.
  assert (Hret : ∀ x : Returned, Some x = Some (c, h', t') → x.2 = t → False).
  { intros [[? ?] ?] ? ?. simplify_eq/=.
    by apply no_answer_consumed in Hans. }
  destruct r as [options|command]; simpl in Hr;
    unfold requestFileWriteConfirmation, requestShellCommandConfirmation in Hr.
  - destruct (alwaysDeny h) eqn:Hd; [by destruct (Hret _ Hr)|].
    destruct (alwaysApprove h) eqn:Ha; [by destruct (Hret _ Hr)|].
    destruct (isTTY t); simpl in Hr; [|by destruct (Hret _ Hr)].
    apply prompt_loop_returns in Hr as (pre' & a' & h0 & ide0 & Hin & Hk & Ht);
      [|exact file_turn_again].
    rewrite Hin in Hans. apply last_answer_unique in Hans as ->.
    repeat split. left. by exists h0, ide0.
  - destruct (alwaysDeny h) eqn:Hd; [by destruct (Hret _ Hr)|].
    destruct (alwaysApprove h) eqn:Ha; [by destruct (Hret _ Hr)|].
    destruct (isTTY t); simpl in Hr; [|by destruct (Hret _ Hr)].
    apply prompt_loop_returns in Hr as (pre' & a' & h0 & ide0 & Hin & Hk & Ht);
      [|exact command_turn_again].
    rewrite Hin in Hans. apply last_answer_unique in Hans as ->.
    repeat split. right. by exists h0, ide0.
Qed.

Lemma session_always_approves rs h t :
  alwaysApprove h = true → alwaysDeny h = false →
  session rs h t = Some (replicate (length rs) approved, h, t).
Proof.
  intros Ha Hd. induction rs as [|r rs IH]; simpl; [done|].
  assert (request r h t = Some (approved, h, t)) as ->.
  { destruct r; simpl;
      unfold requestFileWriteConfirmation, requestShellCommandConfirmation;
      by rewrite Hd, Ha. }
  simpl. by rewrite IH.
Qed.

Lemma session_always_rejects rs h t :
  alwaysDeny h = true →
  session rs h t = Some (replicate (length rs) rejected, h, t).
Proof.
  intros Hd. induction rs as [|r rs IH]; simpl; [done|].
  assert (request r h t = Some (rejected, h, t)) as ->.
  { destruct r; simpl;
      unfold requestFileWriteConfirmation, requestShellCommandConfirmation;
      by rewrite Hd. }
  simpl. by rewrite IH.
Qed.

(** Asking for help any number of times leaves the prompt where it was,
    with the two flags as they were. *)
Lemma prompt_loop_helps turn h tty helps input ide :
  (∀ h a ide, showMenu a = Some HELP →
     ∃ h1, turn h a ide = Again h1 ide ∧ keeps_flags h h1) →
  Forall (λ a, showMenu a = Some HELP) helps →
  ∃ h0, keeps_flags h h0 ∧
        prompt_loop turn h tty (helps ++ input) ide = prompt_loop turn h0 tty input ide.
Proof.
  intros Hhelp Hall. revert h.
  induction Hall as [|a helps Ha _ IH]; intros h; [by exists h|].
  destruct (Hhelp h a ide Ha) as (h1 & Ht & [Hk1 Hk2]).
  destruct (IH h1) as (h0 & [Hk3 Hk4] & Hloop).
  exists h0. split; [split; congruence|]. simpl. by rewrite Ht.
Qed.

Lemma file_turn_help h a ide :
  showMenu a = Some HELP → ∃ h1, file_turn h a ide = Again h1 ide ∧ keeps_flags h h1.
Proof. intros Ha. unfold file_turn. rewrite Ha. by eexists. Qed.

Lemma command_turn_help h a ide :
  showMenu a = Some HELP → ∃ h1, command_turn h a ide = Again h1 ide ∧ keeps_flags h h1.
Proof.
  intros Ha. unfold command_turn. unfold showMenu in Ha. rewrite Ha. by eexists.
Qed.

(** A prompt of either entry point at which the user, after asking for help
    any number of times, answers [a]: the call is decided by the turn on
    [a], taken with the flags as they were. *)
Lemma request_prompts r h t helps a rest :
  alwaysApprove h = false → alwaysDeny h = false → isTTY t = true →
  Forall (λ a, showMenu a = Some HELP) helps →
  answers t = helps ++ a :: rest →
  ∃ h0, keeps_flags h h0 ∧
    request r h t
    = match (match r with
             | FileWrite _ => file_turn
             | ShellCommand _ => command_turn
             end) h0 a (ideRuns t) with
      | Return c h1 ide1 => Some (c, h1, mkTerminal true rest ide1)
      | Again h1 ide1 =>
          prompt_loop (match r with
                       | FileWrite _ => file_turn
                       | ShellCommand _ => command_turn
                       end) h1 true rest ide1
      | Waiting => None
      end.
Proof.
  intros Ha Hd Htty Hhelps Hans.
  destruct r as [options|command]; simpl;
    unfold requestFileWriteConfirmation, requestShellCommandConfirmation,
      getUserChoice, getUserChoiceForCommand;
    rewrite Ha, Hd, Htty, Hans; simpl.
  - destruct (prompt_loop_helps file_turn h true helps (a :: rest) (ideRuns t)
                file_turn_help Hhelps) as (h0 & Hk & ->).
    by exists h0.
  - destruct (prompt_loop_helps command_turn h true helps (a :: rest) (ideRuns t)
                command_turn_help Hhelps) as (h0 & Hk & ->).
    by exists h0.
Qed.

(** C8. On either entry point, a handler with both flags off on a TTY
    prompts; when the user (after asking for help any number of times)
    chooses Always, the call returns approved and sets [alwaysApprove], and
    every later series of calls on this handler, on either entry point and
    whatever the terminal then offers, is approved call by call, leaving
    handler and terminal untouched (nothing is prompted, no answer is
    read).  When the user chooses Deny-all, the same holds with rejected
    and [alwaysDeny].  Conversely, whenever a call that returned was decided
    by the answer Always (resp. Deny-all), it was approved (resp. rejected)
    and the later calls are as said.  A call on a handler whose flag is set
    returns at once. *)
Theorem always_and_deny_are_sticky (r : Request) (h : Handler) (t : Terminal) :
  (∀ helps a rest,
     alwaysApprove h = false → alwaysDeny h = false → isTTY t = true →
     Forall (λ a, showMenu a = Some HELP) helps →
     showMenu a = Some ALWAYS →
     answers t = helps ++ a :: rest →
     ∃ h', request r h t = Some (approved, h', mkTerminal true rest (ideRuns t)) ∧
           alwaysApprove h' = true ∧ alwaysDeny h' = false ∧
           ∀ rs tn, session rs h' tn = Some (replicate (length rs) approved, h', tn)) ∧
  (∀ helps a rest,
     alwaysApprove h = false → alwaysDeny h = false → isTTY t = true →
     Forall (λ a, showMenu a = Some HELP) helps →
     showMenu a = Some DENY →
     answers t = helps ++ a :: rest →
     ∃ h', request r h t = Some (rejected, h', mkTerminal true rest (ideRuns t)) ∧
           alwaysDeny h' = true ∧
           ∀ rs tn, session rs h' tn = Some (replicate (length rs) rejected, h', tn)) ∧
  (∀ c h' t' pre a,
     request r h t = Some (c, h', t') →
     answers t = pre ++ a :: answers t' →
     (showMenu a = Some ALWAYS →
        c = approved ∧ alwaysApprove h' = true ∧
        ∀ rs tn, session rs h' tn = Some (replicate (length rs) approved, h', tn)) ∧
     (showMenu a = Some DENY →
        c = rejected ∧ alwaysDeny h' = true ∧
        ∀ rs tn, session rs h' tn = Some (replicate (length rs) rejected, h', tn))) ∧
  (alwaysDeny h = false → alwaysApprove h = true →
     request r h t = Some (approved, h, t)) ∧
  (alwaysDeny h = true → request r h t = Some (rejected, h, t)).
Proof.
  split; [|split; [|split; [|split]]].
  - intros helps a rest Ha Hd Htty Hhelps Hchoice Hans.
    destruct (request_prompts r h t helps a rest Ha Hd Htty Hhelps Hans)
      as (h0 & [Hk1 Hk2] & ->).
    destruct r as [options|command].
    + unfold file_turn. rewrite Hchoice. cbv beta iota zeta.
      eexists. split; [reflexivity|].
      assert (alwaysDeny (set_alwaysApprove (set_nulls h0 0)) = false) as Hd'
        by (simpl; congruence).
      split; [done|]. split; [done|].
      intros rs tn. by apply session_always_approves.
    + unfold command_turn. unfold showMenu in Hchoice. rewrite Hchoice.
      eexists. split; [reflexivity|].
      assert (alwaysDeny (set_alwaysApprove h0) = false) as Hd'
        by (simpl; congruence).
      split; [done|]. split; [done|].
      intros rs tn. by apply session_always_approves.
  - intros helps a rest Ha Hd Htty Hhelps Hchoice Hans.
    destruct (request_prompts r h t helps a rest Ha Hd Htty Hhelps Hans)
      as (h0 & [Hk1 Hk2] & ->).
    destruct r as [options|command].
    + unfold file_turn. rewrite Hchoice. cbv beta iota zeta.
      eexists. split; [reflexivity|]. split; [done|].
      intros rs tn. by apply session_always_rejects.
    + unfold command_turn. unfold showMenu in Hchoice. rewrite Hchoice.
      eexists. split; [reflexivity|]. split; [done|].
      intros rs tn. by apply session_always_rejects.
  - intros c h' t' pre a Hr Hans.
    destruct (request_decided _ _ _ _ _ _ _ _ Hr Hans) as (Ha & Hd & Hturn).
    split; intros Hchoice.
    + assert (c = approved ∧ alwaysApprove h' = true ∧ alwaysDeny h' = false)
        as (-> & Ha' & Hd').
      { destruct Hturn as [(h0 & ide0 & [Hk1 Hk2] & Ht)|(h0 & ide0 & [Hk1 Hk2] & Ht)].
        - unfold file_turn in Ht. rewrite Hchoice in Ht. simplify_eq/=.
          repeat split. congruence.
        - unfold command_turn in Ht. unfold showMenu in Hchoice.
          rewrite Hchoice in Ht. simplify_eq/=. repeat split. congruence. }
      split; [done|]. split; [done|]. intros rs tn. by apply session_always_approves.
    + assert (c = rejected ∧ alwaysDeny h' = true) as (-> & Hd').
      { destruct Hturn as [(h0 & ide0 & _ & Ht)|(h0 & ide0 & _ & Ht)].
        - unfold file_turn in Ht. rewrite Hchoice in Ht. by simplify_eq/=.
        - unfold command_turn in Ht. unfold showMenu in Hchoice.
          rewrite Hchoice in Ht. by simplify_eq/=. }
      split; [done|]. split; [done|]. intros rs tn. by apply session_always_rejects.
  - intros Hd Ha. destruct r; simpl;
      unfold requestFileWriteConfirmation, requestShellCommandConfirmation;
      by rewrite Hd, Ha.
  - intros Hd. destruct r; simpl;
      unfold requestFileWriteConfirmation, requestShellCommandConfirmation;
      by rewrite Hd.
Qed.

(** Fresh handlers on a TTY.  At the prompt of a file write the user asks
    for help and then answers [a]; at the prompt of a shell command the
    user answers [always]; at either prompt the user answers [d] or
    [deny].  In each case two later calls, one per entry point, are settled
    although the terminal has no answer left. *)
Lemma always_and_deny_are_sticky_witness :
  let options := mkOptions (js "src/main.ts") true (Some "old") (Some "new") in
  let later := [ShellCommand (js "rm -rf build"); FileWrite options] in
  let silent := mkTerminal true [] [] in
  (∃ h', request (FileWrite options) fresh (mkTerminal true [js "?"; js "a"] [])
           = Some (approved, h', silent) ∧
         session later h' silent = Some ([approved; approved], h', silent)) ∧
  (∃ h', request (ShellCommand (js "npm test")) fresh (mkTerminal true [js "always"] [])
           = Some (approved, h', silent) ∧
         session later h' silent = Some ([approved; approved], h', silent)) ∧
  (∃ h', request (FileWrite options) fresh (mkTerminal true [js "d"] [])
           = Some (rejected, h', silent) ∧
         session later h' silent = Some ([rejected; rejected], h', silent)) ∧
  (∃ h', request (ShellCommand (js "npm test")) fresh (mkTerminal true [js "deny"] [])
           = Some (rejected, h', silent) ∧
         session later h' silent = Some ([rejected; rejected], h', silent)).
Proof.
  intros options later silent.
  split; [|split; [|split]].
  - destruct (always_and_deny_are_sticky (FileWrite options) fresh
                (mkTerminal true [js "?"; js "a"] [])) as (Halways & _).
    destruct (Halways [js "?"] (js "a") [] eq_refl eq_refl eq_refl
                (Forall_cons_2 (λ a, showMenu a = Some HELP) (js "?") [] eq_refl
                   (Forall_nil_2 _))
                eq_refl eq_refl)
      as (h' & Hr & _ & _ & Hs).
    exists h'. split; [exact Hr|exact (Hs later silent)].
  - destruct (always_and_deny_are_sticky (ShellCommand (js "npm test")) fresh
                (mkTerminal true [js "always"] [])) as (Halways & _).
    destruct (Halways [] (js "always") [] eq_refl eq_refl eq_refl
                (Forall_nil_2 _) eq_refl eq_refl)
      as (h' & Hr & _ & _ & Hs).
    exists h'. split; [exact Hr|exact (Hs later silent)].
  - destruct (always_and_deny_are_sticky (FileWrite options) fresh
                (mkTerminal true [js "d"] [])) as (_ & Hdeny & _).
    destruct (Hdeny [] (js "d") [] eq_refl eq_refl eq_refl
                (Forall_nil_2 _) eq_refl eq_refl)
      as (h' & Hr & _ & Hs).
    exists h'. split; [exact Hr|exact (Hs later silent)].
  - destruct (always_and_deny_are_sticky (ShellCommand (js "npm test")) fresh
                (mkTerminal true [js "deny"] [])) as (_ & Hdeny & _).
    destruct (Hdeny [] (js "deny") [] eq_refl eq_refl eq_refl
                (Forall_nil_2 _) eq_refl eq_refl)
      as (h' & Hr & _ & Hs).
    exists h'. split; [exact Hr|exact (Hs later silent)].
Defined.

(** C5, as the code has it.  On the file-write path, with the counter at
    zero, the third invalid answer in a row forces [rejected], and a turn on
    a valid answer leaves the counter at zero.  The shell-command path has
    no limit: an invalid answer only prompts again, and no turn changes the
    counter. *)
Theorem invalid_input_limit :
  (∀ h tty a1 a2 a3 rest ide,
     consecutiveNulls h = 0 →
     showMenu a1 = None → showMenu a2 = None → showMenu a3 = None →
     ∃ h', getUserChoice h tty (a1 :: a2 :: a3 :: rest) ide
             = Some (rejected, h', mkTerminal tty rest ide) ∧
           keeps_flags h h') ∧
  (∀ h a ide h1,
     is_Some (showMenu a) → handler_after (file_turn h a ide) = Some h1 →
     consecutiveNulls h1 = 0) ∧
  (∀ h tty a rest ide,
     showTextMenu a = None →
     getUserChoiceForCommand h tty (a :: rest) ide
       = getUserChoiceForCommand h tty rest ide) ∧
  (∀ h a ide h1,
     handler_after (command_turn h a ide) = Some h1 →
     consecutiveNulls h1 = consecutiveNulls h).
Proof.
  split; [|split; [|split]].
  - intros h tty a1 a2 a3 rest ide H0 H1 H2 H3.
    exists (set_nulls h 3). split; [|done].
    unfold getUserChoice. simpl. unfold file_turn.
    rewrite H1. simpl. rewrite H0. simpl.
    unfold file_turn. rewrite H2. simpl.
    unfold file_turn. rewrite H3. done.
  - intros h a ide h1 [choice Hc] Hafter. unfold file_turn in Hafter.
    rewrite Hc in Hafter.
    destruct choice; simpl in Hafter; try by simplify_eq.
    destruct ide as [|run ide']; [done|].
    destruct (tryIDEApproval run); by simplify_eq/=.
  - intros h tty a rest ide Ha. unfold getUserChoiceForCommand. simpl.
    unfold command_turn. by rewrite Ha.
  - intros h a ide h1 Hafter. unfold command_turn in Hafter.
    destruct (showTextMenu a) as [[]|]; by simplify_eq/=.
Qed.

(** C5 as stated fails twice.  On the file-write path three invalid answers
    to a fresh handler force [rejected] but leave the counter at 3.  On the
    shell-command path three invalid answers force nothing: the fourth
    answer, [y], is still read and approves. *)
Lemma invalid_inputs_counter_not_reset_and_no_limit_for_commands :
  let options := mkOptions (js "notes.txt") false None (Some "text") in
  showMenu (js "q") = None ∧ showMenu (js "w") = None ∧ showMenu (js "e") = None ∧
  requestFileWriteConfirmation options fresh
      (mkTerminal true [js "q"; js "w"; js "e"] [])
    = Some (rejected, mkHandler false false 3, mkTerminal true [] []) ∧
  requestShellCommandConfirmation (js "ls") fresh
      (mkTerminal true [js "q"; js "w"; js "e"; js "y"] [])
    = Some (approved, fresh, mkTerminal true [] []).
Proof. repeat split; vm_compute; reflexivity. Qed.

End Interactive.

(* ===================================================================== *)
(** ** JSON values, as JavaScript reads them *)
(* ===================================================================== *)

Module JsValue.

(** What [JSON.parse] gives, and so what the body of a response can be:
    [null], a boolean, a number (a double), a string, an array or an object
    with its members in the order of the text. *)
#[warnings="-register-all"] Inductive Json : Type :=
| JNull
| JBool (b : bool)
| JNumber (n : float)
| JString (s : string)
| JArray (items : list Json)
| JObject (members : list (string * Json)).

(** A value read from such data: [None] is [undefined]. *)
Definition JsValue : Type := option Json.

(** [members[key]]: [JSON.parse] keeps the last member of a name. *)
Fixpoint property (key : string) (members : list (string * Json)) : JsValue :=
  match members with
  | [] => None
  | (k, v) :: rest =>
      match property key rest with
      | Some later => Some later
      | None => if String.eqb k key then Some v else None
      end
  end.

(** [value.key] on a value that is not [null], for a key that is no
    built-in property of arrays, strings, numbers and booleans: the member
    of an object, [undefined] on anything else. *)
Definition field (key : string) (value : Json) : JsValue :=
  match value with
  | JObject members => property key members
  | _ => None
  end.

(** Truthiness: [if (v)], [!v]. *)
Definition to_boolean (v : JsValue) : bool :=
  match v with
  | None | Some JNull => false
  | Some (JBool b) => b
  | Some (JNumber n) => negb (PrimFloat.eqb n 0%float) && PrimFloat.eqb n n
  | Some (JString s) => negb (String.eqb s "")
  | Some (JArray _) | Some (JObject _) => true
  end.

End JsValue.

(* ===================================================================== *)
(** ** Effects: state that survives exceptions *)
(* ===================================================================== *)

Module Effects.

(** A value thrown in JavaScript: an [Error] of some class with its
    message, or a value that is not an [Error].  An axios error carries the
    status of the response, if there was one ([error.response?.status]); an
    [McpException] carries its [code]. *)
Inductive JsError : Type :=
| Error (message : string)
| TypeError (message : string)
| SyntaxError (message : string)
| AxiosError (message : string) (status : JsValue.JsValue)
| McpException (message : string) (code : JsValue.JsValue)
| NotAnError (shown : string).

(** [error instanceof Error ? error.message : String(error)] *)
Definition describe (e : JsError) : string :=
  match e with
  | Error m | TypeError m | SyntaxError m | AxiosError m _ | McpException m _ => m
  | NotAnError shown => shown
  end.

(** An [async] computation over a state [St]: it returns or throws, and
    what it did to the state stays done either way. *)
Inductive Outcome (A : Type) : Type :=
| Returns (a : A)
| Throws (e : JsError).
Arguments Returns {A} a.
Arguments Throws {A} e.

Definition M (St A : Type) : Type := St → Outcome A * St.

Definition ret {St A} (a : A) : M St A := fun s => (Returns a, s).

Definition throw {St A} (e : JsError) : M St A := fun s => (Throws e, s).

Definition bind {St A B} (c : M St A) (k : A → M St B) : M St B :=
  fun s => match c s with
           | (Returns a, s1) => k a s1
           | (Throws e, s1) => (Throws e, s1)
           end.

(** [try { body } catch (error) { handler }] *)
Definition try_catch {St A} (body : M St A) (handler : JsError → M St A) : M St A :=
  fun s => match body s with
           | (Returns a, s1) => (Returns a, s1)
           | (Throws e, s1) => handler e s1
           end.

Definition get {St} : M St St := fun s => (Returns s, s).
Definition put {St} (s : St) : M St unit := fun _ => (Returns tt, s).

(** [if (cond) { c }] as a statement. *)
Definition when {St} (cond : bool) (c : M St unit) : M St unit :=
  if cond then c else ret tt.

Module Notations.
Notation "'let!' x := c 'in' k" := (bind c (fun x => k))
  (at level 10, x name, c at level 100, k at level 200).
Notation "'do!' c 'in' k" := (bind c (fun _ => k))
  (at level 10, c at level 100, k at level 200).
End Notations.

Definition returns {St A} (c : M St A) (s : St) : Prop :=
  ∃ a s', c s = (Returns a, s').

Lemma try_catch_returns {St A} (body : M St A) handler s :
  (∀ e s', returns (handler e) s') → returns (try_catch body handler) s.
Proof.
  intros Hh. unfold returns, try_catch.
  destruct (body s) as [[a|e] s1]; [by eexists _, _|apply Hh].
Qed.

End Effects.

(* ===================================================================== *)
(** ** McpClient and McpToolDiscovery *)
(* ===================================================================== *)

Module Mcp.
Import Effects Effects.Notations JsValue.

(** McpProtocol.ts declares the data of the protocol as interfaces
    ([JsonRpcRequest], [JsonRpcResponse], [McpTool], [InitializeResult],
    [ToolsListResponse]).  The requests are built by the client and have
    the declared shape.  The responses come off the wire: interfaces are
    erased when the program runs and nothing checks a response against
    them, so a response is whatever value its body parsed to, and the
    client's reads of it are JavaScript's property reads. *)
Inductive Params : Type :=
| InitializeParams (protocolVersion clientName clientVersion : string)
| NoParams
| CallParams (name : JsValue) (arguments : string).

(** [interface JsonRpcRequest] *)
Record JsonRpcRequest : Type := mkRequest {
  jsonrpc : string;
  id : nat;
  method : string;
  params : Params
}.

(** [class McpToolAdapter]: the fields its constructor copies from a tool
    descriptor.  Each is what the descriptor had under that name: any
    value, or [undefined]. *)
Record McpToolAdapter : Type := mkAdapter {
  name : JsValue;
  description : JsValue;
  schema : JsValue
}.

(** [s.replace(pattern, replacement)] with a string pattern: the first
    occurrence only. *)
Fixpoint replace_first (pattern replacement s : string) : string :=
  if String.prefix pattern s
  then (replacement ++ String.substring (String.length pattern)
                         (String.length s - String.length pattern) s)%string
  else match s with
       | EmptyString => EmptyString
       | String c rest => String c (replace_first pattern replacement rest)
       end.

(** The [TypeError] of a property read on [undefined] or [null]. *)
Definition cannot_read (base key : string) : JsError :=
  TypeError ("Cannot read properties of " ++ base ++ " (reading '" ++ key ++ "')").

(** The part of the read [v.key] that can throw. *)
Definition readable {St} (key : string) (v : JsValue) : M St unit :=
  match v with
  | None => throw (cannot_read "undefined" key)
  | Some JNull => throw (cannot_read "null" key)
  | Some _ => ret tt
  end.

(** [v.key]: a [TypeError] on [undefined] and [null], else the field. *)
Definition member {St} (key : string) (v : JsValue) : M St JsValue :=
  do! readable key v in
  ret (match v with Some value => field key value | None => None end).

Section Client.

(** The network, seen from the client: the state of the outside world and
    the two axios calls, each of which returns or throws.  A GET returns the
    status of the response, a POST its parsed body ([response.data]). *)
Variable World : Type.
Variable axios_get : string → World → Outcome Z * World.
Variable axios_post : string → JsonRpcRequest → World → Outcome Json * World.

(** JavaScript's conversion to a string of a number, an array or an object:
    the text, or the [TypeError] of an object that has no primitive
    value. *)
Variable ToString : Json → JsError + string.

(** One [McpClient] instance and the world it talks to. *)
Record ClientState : Type := mkState {
  world : World;
  requestId : nat
}.

Definition http_get (url : string) : M ClientState Z :=
  fun s => let '(r, w) := axios_get url (world s) in (r, mkState w (requestId s)).

Definition http_post (url : string) (request : JsonRpcRequest) : M ClientState Json :=
  fun s => let '(r, w) := axios_post url request (world s) in (r, mkState w (requestId s)).

(** [nextId]: [return ++this.requestId] *)
Definition nextId : M ClientState nat :=
  fun s => (Returns (S (requestId s)), mkState (world s) (S (requestId s))).

(** [String(v)], also the conversion of [`${v}`]: the text, or what the
    conversion throws. *)
Definition String_of (v : JsValue) : JsError + string :=
  match v with
  | None => inr "undefined"
  | Some JNull => inr "null"
  | Some (JBool true) => inr "true"
  | Some (JBool false) => inr "false"
  | Some (JString s) => inr s
  | Some value => ToString value
  end.

Definition to_text (v : JsValue) : M ClientState string :=
  match String_of v with
  | inl e => throw e
  | inr text => ret text
  end.

(** The [message] of [new Error(message)]: empty for [undefined], else the
    argument converted to a string. *)
Definition error_message (message : JsValue) : M ClientState string :=
  match message with
  | None => ret ""
  | Some _ => to_text message
  end.

(** [isServerAvailable] *)
Definition isServerAvailable (serverUrl : string) : M ClientState bool :=
  try_catch
    (let healthUrl := replace_first "/mcp" "/health" serverUrl in
     let! status := http_get healthUrl in
     ret (bool_decide (status = 200%Z)))
    (fun _ => ret false).

(** The [catch] of [sendRequest]: an [McpException] is thrown again, any
    other error is wrapped in one. *)
Definition rethrow_as_mcp {A} (error : JsError) : M ClientState A :=
  match error with
  | McpException _ _ => throw error
  | AxiosError message status => throw (McpException ("HTTP error: " ++ message) status)
  | _ => throw (McpException (describe error) None)
  end.

(** [sendRequest] *)
Definition sendRequest (serverUrl : string) (request : JsonRpcRequest) : M ClientState Json :=
  try_catch
    (let! data := http_post serverUrl request in
     let! error := member "error" (Some data) in
     if to_boolean error then
       let! message := member "message" error in
       let! code := member "code" error in
       do! member "data" error in
       let! text := error_message message in
       throw (McpException text code)
     else
       let! result := member "result" (Some data) in
       match result with
       | None => throw (McpException "No result in response" None)
       | Some value => ret value
       end)
    rethrow_as_mcp.

(** [initialize] *)
Definition initialize (serverUrl : string) : M ClientState Json :=
  let! i := nextId in
  sendRequest serverUrl
    (mkRequest "2.0" i "initialize"
       (InitializeParams "2024-11-05" "typescript-ai-agent" "1.0.0")).

(** [listTools]: [return response.tools] *)
Definition listTools (serverUrl : string) : M ClientState JsValue :=
  let! i := nextId in
  let! response := sendRequest serverUrl (mkRequest "2.0" i "tools/list" NoParams) in
  member "tools" (Some response).

(** [new McpToolAdapter(mcpTool, client)]: three reads of [mcpTool]. *)
Definition newAdapter (mcpTool : Json) : M ClientState McpToolAdapter :=
  let! name := member "name" (Some mcpTool) in
  let! description := member "description" (Some mcpTool) in
  let! inputSchema := member "inputSchema" (Some mcpTool) in
  ret (mkAdapter name description inputSchema).

(** [items.map(f)] with an [f] that may throw. *)
Fixpoint map_m {A B} (f : A → M ClientState B) (l : list A) : M ClientState (list B) :=
  match l with
  | [] => ret []
  | x :: l' => let! y := f x in let! ys := map_m f l' in ret (y :: ys)
  end.

(** [mcpTools.map(f)]: a [TypeError] unless [mcpTools] is an array. *)
Definition array_map {B} (f : Json → M ClientState B) (mcpTools : JsValue)
    : M ClientState (list B) :=
  do! readable "map" mcpTools in
  match mcpTools with
  | Some (JArray items) => map_m f items
  | _ => throw (TypeError "mcpTools.map is not a function")
  end.

(** The verbose log after [initialize] reads [initResult.serverInfo.name]
    and [initResult.serverInfo.version]. *)
Definition log_initialized (initResult : Json) : M ClientState unit :=
  let! serverInfo := member "serverInfo" (Some initResult) in
  do! member "name" serverInfo in
  let! serverInfo := member "serverInfo" (Some initResult) in
  do! member "version" serverInfo in
  ret tt.

(** [`${mcpTools.length}`]: the read throws on [undefined] and [null]; the
    length of an array or of a string is a number and a missing length is
    [undefined], whose conversions do not throw; an object has the member
    of that name, if any. *)
Definition log_length (mcpTools : JsValue) : M ClientState unit :=
  do! readable "length" mcpTools in
  match mcpTools with
  | Some (JObject members) => do! to_text (property "length" members) in ret tt
  | _ => ret tt
  end.

(** The verbose log after [listTools] shows [mcpTools.length] and [t.name]
    of every entry. *)
Definition log_discovered (mcpTools : JsValue) : M ClientState unit :=
  do! log_length mcpTools in
  do! array_map (fun t => member "name" (Some t)) mcpTools in
  ret tt.

(** The [try] block of [discoverTools]; [new McpClient] starts the request
    counter at 0. *)
Definition discover_body (serverUrl : string) (verbose : bool) : M ClientState (list McpToolAdapter) :=
  let! s := get in
  do! put (mkState (world s) 0) in
  let! available := isServerAvailable serverUrl in
  if negb available then ret []
  else
    let! initResult := initialize serverUrl in
    do! when verbose (log_initialized initResult) in
    let! mcpTools := listTools serverUrl in
    do! when verbose (log_discovered mcpTools) in
    let! tools := array_map newAdapter mcpTools in
    ret tools.

(** [discoverTools] *)
Definition discoverTools (serverUrl : string) (verbose : bool) : M ClientState (list McpToolAdapter) :=
  try_catch (discover_body serverUrl verbose) (fun _ => ret []).

(** The state of the client that [discoverTools] creates. *)
Definition new_client (s : ClientState) : ClientState := mkState (world s) 0.

(** The adapter of a descriptor that is not [null]. *)
Definition adapter_of (mcpTool : Json) : McpToolAdapter :=
  mkAdapter (field "name" mcpTool) (field "description" mcpTool)
    (field "inputSchema" mcpTool).

(** A handshake result from whose [serverInfo] a property can be read. *)
Definition names_server (initResult : Json) : bool :=
  match field "serverInfo" initResult with
  | None | Some JNull => false
  | Some _ => true
  end.

(** *** Reading a response *)

Lemma null_or_not (value : Json) : value = JNull ∨ value ≠ JNull.
Proof. destruct value; first [by left | by right]. Qed.

Lemma member_defined {St} key value (s : St) :
  value ≠ JNull → member key (Some value) s = (Returns (field key value), s).
Proof. intros Hv. unfold member, bind, readable. by destruct value. Qed.

Lemma member_truthy {St} key v (s : St) :
  to_boolean v = true →
  member key v s
  = (Returns (match v with Some value => field key value | None => None end), s).
Proof. intros Hv. unfold member, bind, readable. by destruct v as [[]|]. Qed.

Lemma member_state {St} key v (s : St) : (member key v s).2 = s.
Proof. unfold member, bind, readable. by destruct v as [[]|]. Qed.

Lemma to_text_state v s : (to_text v s).2 = s.
Proof. unfold to_text. by destruct (String_of v). Qed.

Lemma error_message_state message s : (error_message message s).2 = s.
Proof. destruct message; [apply to_text_state|done]. Qed.

(** Whatever [sendRequest] catches leaves it as an [McpException]. *)
Lemma rethrow_as_mcp_throws {A} error s :
  ∃ message code, rethrow_as_mcp (A := A) error s = (Throws (McpException message code), s).
Proof. destruct error; by eexists _, _. Qed.

(** [sendRequest] posts once and leaves the counter alone.  It returns the
    [result] member of a body that is not [null], has no truthy [error]
    member and has a [result] member; on a transport error and on every
    other body it throws an [McpException]. *)
Lemma sendRequest_spec serverUrl request s :
  ∃ outcome w,
    axios_post serverUrl request (world s) = (outcome, w) ∧
    match outcome with
    | Returns data =>
        if to_boolean (field "error" data)
        then ∃ message code,
               sendRequest serverUrl request s
               = (Throws (McpException message code), mkState w (requestId s))
        else match field "result" data with
             | Some value =>
                 sendRequest serverUrl request s
                 = (Returns value, mkState w (requestId s))
             | None =>
                 ∃ message code,
                   sendRequest serverUrl request s
                   = (Throws (McpException message code), mkState w (requestId s))
             end
    | Throws e =>
        ∃ message code,
          sendRequest serverUrl request s
          = (Throws (McpException message code), mkState w (requestId s))
    end.
Proof.
  destruct (axios_post serverUrl request (world s)) as [outcome w] eqn:Hpost.
  exists outcome, w. split; [done|].
  assert (Hrun : sendRequest serverUrl request s
    = match outcome with
      | Returns data =>
          try_catch
            (let! error := member "error" (Some data) in
             if to_boolean error then
               let! message := member "message" error in
               let! code := member "code" error in
               do! member "data" error in
               let! text := error_message message in
               throw (McpException text code)
             else
               let! result := member "result" (Some data) in
               match result with
               | None => throw (McpException "No result in response" None)
               | Some value => ret value
               end)
            rethrow_as_mcp (mkState w (requestId s))
      | Throws e => rethrow_as_mcp e (mkState w (requestId s))
      end).
  { unfold sendRequest, try_catch, bind at 1, http_post. rewrite Hpost.
    by destruct outcome. }
  rewrite Hrun. clear Hrun Hpost.
  destruct outcome as [data|e]; [|apply rethrow_as_mcp_throws].
  set (s1 := mkState w (requestId s)).
  destruct (null_or_not data) as [->|Hdata].
  { cbn. by eexists _, _. }
  destruct (to_boolean (field "error" data)) eqn:Herror;
    [|destruct (field "result" data) as [value|] eqn:Hresult];
    unfold try_catch, bind at 1; rewrite (member_defined _ _ _ Hdata);
    cbv beta iota; rewrite Herror.
  - unfold bind at 1. rewrite (member_truthy _ _ _ Herror).
    unfold bind at 1. rewrite (member_truthy _ _ _ Herror).
    unfold bind at 1. rewrite (member_truthy _ _ _ Herror).
    unfold bind.
    match goal with
    | |- context [error_message ?m s1] =>
        pose proof (error_message_state m s1) as Hs;
        destruct (error_message m s1) as [[text|e] s2]; cbn [snd] in Hs; subst s2
    end.
    + by eexists _, _.
    + apply rethrow_as_mcp_throws.
  - unfold bind. rewrite (member_defined _ _ _ Hdata). by rewrite Hresult.
  - unfold bind. rewrite (member_defined _ _ _ Hdata). rewrite Hresult.
    by eexists _, _.
Qed.

Lemma initialize_run serverUrl s :
  initialize serverUrl s
  = sendRequest serverUrl
      (mkRequest "2.0" (S (requestId s)) "initialize"
         (InitializeParams "2024-11-05" "typescript-ai-agent" "1.0.0"))
      (mkState (world s) (S (requestId s))).
Proof. done. Qed.

Lemma listTools_run serverUrl s :
  listTools serverUrl s
  = (let! response :=
       sendRequest serverUrl (mkRequest "2.0" (S (requestId s)) "tools/list" NoParams) in
     member "tools" (Some response)) (mkState (world s) (S (requestId s))).
Proof. done. Qed.

(** *** Fail-soft discovery *)

Lemma isServerAvailable_returns serverUrl s :
  ∃ b s', isServerAvailable serverUrl s = (Returns b, s').
Proof.
  unfold isServerAvailable, try_catch, bind, http_get, ret.
  destruct (axios_get _ (world s)) as [[status|e] w]; by eexists _, _.
Qed.

(** The probe is negative on a network error and on any status but 200. *)
Lemma isServerAvailable_negative serverUrl s :
  let healthUrl := replace_first "/mcp" "/health" serverUrl in
  (∀ e w, axios_get healthUrl (world s) = (Throws e, w) →
     isServerAvailable serverUrl s = (Returns false, mkState w (requestId s))) ∧
  (∀ status w, axios_get healthUrl (world s) = (Returns status, w) → status ≠ 200%Z →
     isServerAvailable serverUrl s = (Returns false, mkState w (requestId s))).
Proof.
  unfold isServerAvailable, try_catch, bind, http_get, ret. split.
  - intros e w ->. done.
  - intros status w -> Hne. by rewrite bool_decide_eq_false_2.
Qed.

Lemma discoverTools_returns serverUrl verbose s :
  returns (discoverTools serverUrl verbose) s.
Proof. apply try_catch_returns. intros e s'. by eexists _, _. Qed.

Lemma discoverTools_catches serverUrl verbose s e s' :
  discover_body serverUrl verbose s = (Throws e, s') →
  discoverTools serverUrl verbose s = (Returns [], s').
Proof. unfold discoverTools, try_catch. by intros ->. Qed.

Lemma discoverTools_short_circuit serverUrl verbose s s1 :
  isServerAvailable serverUrl (new_client s) = (Returns false, s1) →
  discoverTools serverUrl verbose s = (Returns [], s1).
Proof.
  intros Hp. unfold discoverTools, try_catch, discover_body, bind, get, put.
  fold (new_client s). by rewrite Hp.
Qed.

(** Mapping over an array: every call returns, or one of them throws. *)
Lemma map_m_returns {A B} (f : A → M ClientState B) (g : A → B) items s :
  Forall (λ x, f x s = (Returns (g x), s)) items →
  map_m f items s = (Returns (g <$> items), s).
Proof.
  induction 1 as [|x items Hx _ IH]; [done|].
  cbn [map_m]. unfold bind at 1. rewrite Hx. unfold bind. by rewrite IH.
Qed.

Lemma map_m_throws {A B} (f : A → M ClientState B) items s :
  (∀ x, (f x s).2 = s) →
  Exists (λ x, ∃ e, f x s = (Throws e, s)) items →
  ∃ e, map_m f items s = (Throws e, s).
Proof.
  intros Hstate. induction 1 as [x items [e Hx]|x items _ IH].
  - cbn [map_m]. unfold bind at 1. rewrite Hx. by exists e.
  - cbn [map_m]. unfold bind at 1. pose proof (Hstate x) as Hs.
    destruct (f x s) as [[y|e] s1]; cbn [snd] in Hs; subst s1; [|by exists e].
    unfold bind. destruct IH as [e ->]. by exists e.
Qed.

Lemma newAdapter_returns mcpTool s :
  mcpTool ≠ JNull → newAdapter mcpTool s = (Returns (adapter_of mcpTool), s).
Proof.
  intros Hn. unfold newAdapter, bind. by rewrite !(member_defined _ _ _ Hn).
Qed.

Lemma newAdapter_state mcpTool s : (newAdapter mcpTool s).2 = s.
Proof.
  destruct (null_or_not mcpTool) as [->|Hn]; [done|].
  by rewrite newAdapter_returns.
Qed.

Lemma not_an_array_or_array (mcpTools : JsValue) :
  (∃ items, mcpTools = Some (JArray items)) ∨ (∀ items, mcpTools ≠ Some (JArray items)).
Proof. destruct mcpTools as [[]|]; first [by left; eexists | by right]. Qed.

(** [mcpTools.map] throws on everything but an array. *)
Lemma array_map_not_an_array {B} (f : Json → M ClientState B) mcpTools s :
  (∀ items, mcpTools ≠ Some (JArray items)) →
  ∃ e, array_map f mcpTools s = (Throws e, s).
Proof.
  intros Hn. unfold array_map, bind, readable.
  destruct mcpTools as [[| | | |items|]|]; try by eexists.
  by destruct (Hn items).
Qed.

Lemma array_map_array {B} (f : Json → M ClientState B) items s :
  array_map f (Some (JArray items)) s = map_m f items s.
Proof. done. Qed.

Lemma without_null_entry items :
  Forall (λ t, t ≠ JNull) items ∨ Exists (λ t, t = JNull) items.
Proof.
  induction items as [|t items [IH|IH]]; [by left| |by right; right].
  destruct (null_or_not t) as [->|Hn]; [by right; left|by left; constructor].
Qed.

(** The verbose logs only read: they return or throw and change nothing.
    The first returns exactly when the handshake result names the server,
    the second exactly when the listing is an array without a [null]
    entry. *)
Lemma log_initialized_spec initResult s :
  if names_server initResult
  then log_initialized initResult s = (Returns tt, s)
  else ∃ e, log_initialized initResult s = (Throws e, s).
Proof.
  unfold names_server.
  destruct (null_or_not initResult) as [->|Hn]; [by eexists|].
  assert (Hread : ∀ k : JsValue → M ClientState unit,
    (let! serverInfo := member "serverInfo" (Some initResult) in k serverInfo) s
    = k (field "serverInfo" initResult) s).
  { intros k. unfold bind. by rewrite (member_defined _ _ _ Hn). }
  unfold log_initialized.
  destruct (field "serverInfo" initResult) as [serverInfo|] eqn:Hinfo.
  2: { rewrite Hread, ?Hinfo. by eexists. }
  destruct (null_or_not serverInfo) as [->|Hs].
  { rewrite Hread, ?Hinfo. by eexists. }
  assert (log_initialized initResult s = (Returns tt, s)) as Hlog.
  { unfold log_initialized. rewrite Hread, ?Hinfo.
    unfold bind at 1. rewrite (member_defined _ _ _ Hs).
    rewrite Hread, ?Hinfo. unfold bind. by rewrite (member_defined _ _ _ Hs). }
  by destruct serverInfo.
Qed.

Lemma log_length_state mcpTools s : (log_length mcpTools s).2 = s.
Proof.
  unfold log_length, bind at 1, readable.
  destruct mcpTools as [[| | | | |members]|]; try done.
  cbn [ret]. unfold bind. pose proof (to_text_state (property "length" members) s) as Hs.
  destruct (to_text _ s) as [[text|e] s1]. cbn [snd] in Hs. by subst s1.
  cbn [snd] in Hs. by subst s1.
Qed.

Lemma log_length_array items s : log_length (Some (JArray items)) s = (Returns tt, s).
Proof. done. Qed.

Lemma log_discovered_spec mcpTools s :
  (∀ items, mcpTools = Some (JArray items) → Forall (λ t, t ≠ JNull) items →
     log_discovered mcpTools s = (Returns tt, s)) ∧
  ((∀ items, mcpTools = Some (JArray items) → Exists (λ t, t = JNull) items) →
     ∃ e, log_discovered mcpTools s = (Throws e, s)).
Proof.
  split.
  - intros items -> Hall. unfold log_discovered, bind at 1. rewrite log_length_array.
    unfold bind. rewrite array_map_array.
    rewrite (map_m_returns _ (field "name")); [done|].
    eapply Forall_impl; [exact Hall|]. intros t Ht. by apply member_defined.
  - intros Hbad. unfold log_discovered.
    destruct (not_an_array_or_array mcpTools) as [[items ->]|Hn].
    + unfold bind at 1. rewrite log_length_array. unfold bind. rewrite array_map_array.
      destruct (map_m_throws (λ t, member "name" (Some t)) items s) as [e ->].
      * intros t. apply member_state.
      * eapply Exists_impl; [exact (Hbad items eq_refl)|]. intros t ->. by eexists.
      * by exists e.
    + unfold bind at 1. pose proof (log_length_state mcpTools s) as Hs.
      destruct (log_length mcpTools s) as [[[]|e] s1]; cbn [snd] in Hs; subst s1;
        [|by exists e].
      unfold bind.
      destruct (array_map_not_an_array (λ t, member "name" (Some t)) mcpTools s Hn)
        as [e ->].
      by exists e.
Qed.

Lemma when_log_initialized verbose initResult s :
  verbose = false ∨ names_server initResult = true →
  when verbose (log_initialized initResult) s = (Returns tt, s).
Proof.
  intros [->|Hnames]; [done|]. destruct verbose; [|done]. cbn [when].
  pose proof (log_initialized_spec initResult s) as Hlog. by rewrite Hnames in Hlog.
Qed.

Lemma when_log_discovered verbose mcpTools s :
  (∀ items, mcpTools = Some (JArray items) → Forall (λ t, t ≠ JNull) items →
     when verbose (log_discovered mcpTools) s = (Returns tt, s)) ∧
  ((∀ items, mcpTools = Some (JArray items) → Exists (λ t, t = JNull) items) →
     ∃ r, when verbose (log_discovered mcpTools) s = (r, s)).
Proof.
  destruct verbose; cbn [when]; [|by split; eexists].
  destruct (log_discovered_spec mcpTools s) as [Hgood Hbad].
  split; [done|]. intros Hno. destruct (Hbad Hno) as [e ->]. by eexists.
Qed.

(** Past a positive probe, discovery is the rest of the [try] block in the
    state the probe left. *)
Lemma discoverTools_past_probe serverUrl verbose s s1 :
  isServerAvailable serverUrl (new_client s) = (Returns true, s1) →
  discoverTools serverUrl verbose s
  = try_catch
      (let! initResult := initialize serverUrl in
       do! when verbose (log_initialized initResult) in
       let! mcpTools := listTools serverUrl in
       do! when verbose (log_discovered mcpTools) in
       let! tools := array_map newAdapter mcpTools in
       ret tools)
      (fun _ => ret []) s1.
Proof.
  intros Hp. unfold discoverTools, try_catch, discover_body, bind at 1 2 3, get, put.
  fold (new_client s). by rewrite Hp.
Qed.

(** The end of the [try] block, from the listing on: the adapters of an
    array without a [null] entry, and the empty list for anything else. *)
Lemma adapters_of_listing verbose mcpTools s :
  let rest :=
    try_catch
      (do! when verbose (log_discovered mcpTools) in
       let! tools := array_map newAdapter mcpTools in
       ret tools)
      (fun _ => ret []) in
  (∀ items, mcpTools = Some (JArray items) → Forall (λ t, t ≠ JNull) items →
     rest s = (Returns (adapter_of <$> items), s)) ∧
  ((∀ items, mcpTools = Some (JArray items) → Exists (λ t, t = JNull) items) →
     rest s = (Returns [], s)).
Proof.
  intros rest. subst rest.
  destruct (when_log_discovered verbose mcpTools s) as [Hgood Hbad].
  split.
  - intros items -> Hall.
    unfold try_catch, bind at 1. rewrite (Hgood items eq_refl Hall).
    unfold bind. rewrite array_map_array.
    rewrite (map_m_returns _ adapter_of); [done|].
    eapply Forall_impl; [exact Hall|]. intros t Ht. by apply newAdapter_returns.
  - intros Hno. unfold try_catch, bind at 1.
    destruct (Hbad Hno) as [r ->]. destruct r as [[]|e]; [|done]. unfold bind.
    destruct (not_an_array_or_array mcpTools) as [[items ->]|Hn].
    + rewrite array_map_array.
      destruct (map_m_throws newAdapter items s) as [e ->]; [| |done].
      * intros t. apply newAdapter_state.
      * eapply Exists_impl; [exact (Hno items eq_refl)|]. intros t ->. by eexists.
    + by destruct (array_map_not_an_array newAdapter mcpTools s Hn) as [e ->].
Qed.

(** Past a positive probe: what each stage does to the result. *)
Lemma discoverTools_stages serverUrl verbose s s1 :
  isServerAvailable serverUrl (new_client s) = (Returns true, s1) →
  (∀ e s2, initialize serverUrl s1 = (Throws e, s2) →
     discoverTools serverUrl verbose s = (Returns [], s2)) ∧
  (∀ initResult s2, initialize serverUrl s1 = (Returns initResult, s2) →
     (verbose = true → names_server initResult = false →
        discoverTools serverUrl verbose s = (Returns [], s2)) ∧
     (verbose = false ∨ names_server initResult = true →
        (∀ e s3, listTools serverUrl s2 = (Throws e, s3) →
           discoverTools serverUrl verbose s = (Returns [], s3)) ∧
        (∀ mcpTools s3, listTools serverUrl s2 = (Returns mcpTools, s3) →
           (∀ items, mcpTools ≠ Some (JArray items)) →
           discoverTools serverUrl verbose s = (Returns [], s3)) ∧
        (∀ items s3, listTools serverUrl s2 = (Returns (Some (JArray items)), s3) →
           Exists (λ t, t = JNull) items →
           discoverTools serverUrl verbose s = (Returns [], s3)) ∧
        (∀ items s3, listTools serverUrl s2 = (Returns (Some (JArray items)), s3) →
           Forall (λ t, t ≠ JNull) items →
           discoverTools serverUrl verbose s = (Returns (adapter_of <$> items), s3)))).
Proof.
  intros Hp. rewrite (discoverTools_past_probe _ _ _ _ Hp).
  split.
  { intros e s2 Hi. unfold try_catch, bind at 1. by rewrite Hi. }
  intros initResult s2 Hi. split.
  { intros -> Hnames. unfold try_catch, bind at 1. rewrite Hi.
    unfold bind at 1. cbn [when].
    pose proof (log_initialized_spec initResult s2) as Hlog. rewrite Hnames in Hlog.
    by destruct Hlog as [e ->]. }
  intros Hquiet.
  assert (Hrest : ∀ r : Outcome JsValue * ClientState,
    listTools serverUrl s2 = r →
    try_catch
      (let! initResult := initialize serverUrl in
       do! when verbose (log_initialized initResult) in
       let! mcpTools := listTools serverUrl in
       do! when verbose (log_discovered mcpTools) in
       let! tools := array_map newAdapter mcpTools in
       ret tools)
      (fun _ => ret []) s1
    = match r with
      | (Returns mcpTools, s3) =>
          try_catch
            (do! when verbose (log_discovered mcpTools) in
             let! tools := array_map newAdapter mcpTools in
             ret tools)
            (fun _ => ret []) s3
      | (Throws e, s3) => (Returns [], s3)
      end).
  { intros r <-. unfold try_catch at 1, bind at 1. rewrite Hi.
    unfold bind at 1. rewrite (when_log_initialized _ _ _ Hquiet).
    unfold bind at 1. by destruct (listTools serverUrl s2) as [[mcpTools|e] s3]. }
  split; [|split; [|split]].
  - intros e s3 Hl. by rewrite (Hrest _ Hl).
  - intros mcpTools s3 Hl Hn. rewrite (Hrest _ Hl).
    apply adapters_of_listing. intros items ->. by destruct (Hn items).
  - intros items s3 Hl Hex. rewrite (Hrest _ Hl).
    apply adapters_of_listing. by intros ? [= <-].
  - intros items s3 Hl Hall. rewrite (Hrest _ Hl).
    by apply adapters_of_listing.
Qed.

(** [listTools] throws what [sendRequest] throws, throws on a [null]
    result, and else returns the [tools] member of the result, whatever it
    is. *)
Lemma listTools_spec serverUrl s :
  match sendRequest serverUrl (mkRequest "2.0" (S (requestId s)) "tools/list" NoParams)
          (mkState (world s) (S (requestId s))) with
  | (Returns JNull, s1) => ∃ e, listTools serverUrl s = (Throws e, s1)
  | (Returns result, s1) => listTools serverUrl s = (Returns (field "tools" result), s1)
  | (Throws e, s1) => listTools serverUrl s = (Throws e, s1)
  end.
Proof.
  rewrite listTools_run. unfold bind.
  destruct (sendRequest _ _ _) as [[result|e] s1]; [|done].
  destruct result; first [by eexists | done].
Qed.

(** Each call of the client posts once and advances the counter as
    [nextId] does, whatever comes back. *)
Lemma sendRequest_posts_once serverUrl request s :
  ∃ r outcome w,
    axios_post serverUrl request (world s) = (outcome, w) ∧
    sendRequest serverUrl request s = (r, mkState w (requestId s)).
Proof.
  destruct (sendRequest_spec serverUrl request s) as (outcome & w & Hpost & Hrun).
  destruct outcome as [data|e].
  - destruct (to_boolean (field "error" data)).
    + destruct Hrun as (? & ? & ->). by eexists _, _, _.
    + destruct (field "result" data).
      * rewrite Hrun. by eexists _, _, _.
      * destruct Hrun as (? & ? & ->). by eexists _, _, _.
  - destruct Hrun as (? & ? & ->). by eexists _, _, _.
Qed.

Lemma initialize_posts_once serverUrl s :
  ∃ r outcome w,
    axios_post serverUrl
      (mkRequest "2.0" (S (requestId s)) "initialize"
         (InitializeParams "2024-11-05" "typescript-ai-agent" "1.0.0")) (world s)
    = (outcome, w) ∧
    initialize serverUrl s = (r, mkState w (S (requestId s))).
Proof.
  rewrite initialize_run.
  exact (sendRequest_posts_once serverUrl _ (mkState (world s) (S (requestId s)))).
Qed.

Lemma listTools_posts_once serverUrl s :
  ∃ r outcome w,
    axios_post serverUrl
      (mkRequest "2.0" (S (requestId s)) "tools/list" NoParams) (world s)
    = (outcome, w) ∧
    listTools serverUrl s = (r, mkState w (S (requestId s))).
Proof.
  rewrite listTools_run. unfold bind.
  destruct (sendRequest_posts_once serverUrl
              (mkRequest "2.0" (S (requestId s)) "tools/list" NoParams)
              (mkState (world s) (S (requestId s)))) as (r & outcome & w & Hpost & ->).
  destruct r as [response|e]; [|by eexists _, _, _].
  pose proof (member_state "tools" (Some response) (mkState w (S (requestId s)))) as Hs.
  destruct (member _ _ _) as [r s1]. cbn [snd] in Hs. subst s1.
  by eexists _, _, _.
Qed.

Lemma log_initialized_state initResult s : (log_initialized initResult s).2 = s.
Proof.
  pose proof (log_initialized_spec initResult s) as Hlog.
  destruct (names_server initResult); [by rewrite Hlog|].
  by destruct Hlog as [e ->].
Qed.

Lemma array_map_state {B} (f : Json → M ClientState B) mcpTools s :
  (∀ t, (f t s).2 = s) → (array_map f mcpTools s).2 = s.
Proof.
  intros Hf.
  destruct (not_an_array_or_array mcpTools) as [[items ->]|Hn].
  - rewrite array_map_array. induction items as [|t items IH]; [done|].
    cbn [map_m]. unfold bind at 1. pose proof (Hf t) as Ht.
    destruct (f t s) as [[y|e] s1]; cbn [snd] in Ht; subst s1; [|done].
    unfold bind. by destruct (map_m f items s) as [[ys|e] s1].
  - by destruct (array_map_not_an_array f mcpTools s Hn) as [e ->].
Qed.

Lemma log_discovered_state mcpTools s : (log_discovered mcpTools s).2 = s.
Proof.
  unfold log_discovered, bind at 1. pose proof (log_length_state mcpTools s) as Hs.
  destruct (log_length mcpTools s) as [[[]|e] s1]; cbn [snd] in Hs; subst s1; [|done].
  unfold bind.
  pose proof (array_map_state (λ t, member "name" (Some t)) mcpTools s
                (λ t, member_state "name" (Some t) s)) as Hm.
  destruct (array_map _ mcpTools s) as [[?|?] s1]; cbn [snd] in Hm; by subst s1.
Qed.

(** C6, as the code has it.  [discoverTools] never raises, for every server
    URL and every behaviour of the network.  The probe runs first, on a
    fresh client; it is negative on a network error and on any status other
    than 200, and a negative probe ends discovery with the empty list in the
    state the probe left.  Whatever throws inside the [try] block gives the
    empty list: a handshake or a listing that throws (and [sendRequest]
    throws on a transport error, on a body with a truthy [error] member and
    on a body without a [result] member, [listTools] also on a [null]
    result), a handshake result without a [serverInfo] to read from when
    [verbose] is set, a listing whose [tools] is not an array or has a
    [null] entry.  Nothing else empties the list: when [verbose] is off the
    handshake result is not looked at, and every entry of [tools] that is
    not [null] is adapted as it is, with the name, description and schema
    it has or lacks. *)
Theorem discoverTools_fail_soft serverUrl verbose s :
  returns (discoverTools serverUrl verbose) s ∧
  (∀ s1, isServerAvailable serverUrl (new_client s) = (Returns false, s1) →
     discoverTools serverUrl verbose s = (Returns [], s1)) ∧
  (let healthUrl := replace_first "/mcp" "/health" serverUrl in
   (∀ e w, axios_get healthUrl (world s) = (Throws e, w) →
      discoverTools serverUrl verbose s = (Returns [], mkState w 0)) ∧
   (∀ status w, axios_get healthUrl (world s) = (Returns status, w) →
      status ≠ 200%Z →
      discoverTools serverUrl verbose s = (Returns [], mkState w 0))) ∧
  (∀ e s', discover_body serverUrl verbose s = (Throws e, s') →
     discoverTools serverUrl verbose s = (Returns [], s')) ∧
  (∀ s1, isServerAvailable serverUrl (new_client s) = (Returns true, s1) →
     (∀ e s2, initialize serverUrl s1 = (Throws e, s2) →
        discoverTools serverUrl verbose s = (Returns [], s2)) ∧
     (∀ initResult s2, initialize serverUrl s1 = (Returns initResult, s2) →
        (verbose = true → names_server initResult = false →
           discoverTools serverUrl verbose s = (Returns [], s2)) ∧
        (verbose = false ∨ names_server initResult = true →
           (∀ e s3, listTools serverUrl s2 = (Throws e, s3) →
              discoverTools serverUrl verbose s = (Returns [], s3)) ∧
           (∀ mcpTools s3, listTools serverUrl s2 = (Returns mcpTools, s3) →
              (∀ items, mcpTools ≠ Some (JArray items)) →
              discoverTools serverUrl verbose s = (Returns [], s3)) ∧
           (∀ items s3, listTools serverUrl s2 = (Returns (Some (JArray items)), s3) →
              Exists (λ t, t = JNull) items →
              discoverTools serverUrl verbose s = (Returns [], s3)) ∧
           (∀ items s3, listTools serverUrl s2 = (Returns (Some (JArray items)), s3) →
              Forall (λ t, t ≠ JNull) items →
              discoverTools serverUrl verbose s
              = (Returns (adapter_of <$> items), s3))))) ∧
  (∀ request s0,
     ∃ outcome w,
       axios_post serverUrl request (world s0) = (outcome, w) ∧
       match outcome with
       | Returns data =>
           if to_boolean (field "error" data)
           then ∃ message code,
                  sendRequest serverUrl request s0
                  = (Throws (McpException message code), mkState w (requestId s0))
           else match field "result" data with
                | Some value =>
                    sendRequest serverUrl request s0
                    = (Returns value, mkState w (requestId s0))
                | None =>
                    ∃ message code,
                      sendRequest serverUrl request s0
                      = (Throws (McpException message code), mkState w (requestId s0))
                end
       | Throws e =>
           ∃ message code,
             sendRequest serverUrl request s0
             = (Throws (McpException message code), mkState w (requestId s0))
       end) ∧
  (∀ s0,
     match sendRequest serverUrl
             (mkRequest "2.0" (S (requestId s0)) "tools/list" NoParams)
             (mkState (world s0) (S (requestId s0))) with
     | (Returns JNull, s1) => ∃ e, listTools serverUrl s0 = (Throws e, s1)
     | (Returns result, s1) =>
         listTools serverUrl s0 = (Returns (field "tools" result), s1)
     | (Throws e, s1) => listTools serverUrl s0 = (Throws e, s1)
     end).
Proof.
  split; [apply discoverTools_returns|].
  split; [apply discoverTools_short_circuit|].
  split.
  { destruct (isServerAvailable_negative serverUrl (new_client s)) as [H1 H2].
    split.
    - intros e w Hg. apply discoverTools_short_circuit. by apply (H1 e).
    - intros status w Hg Hne. apply discoverTools_short_circuit.
      by apply (H2 status). }
  split; [apply discoverTools_catches|].
  split; [apply discoverTools_stages|].
  split; [intros request s0; apply sendRequest_spec|].
  intros s0. apply listTools_spec.
Qed.

End Client.

(** *** Three servers *)

(** In the runs below no number, array or object is converted to a string. *)
Definition unconverted (value : Json) : JsError + string :=
  inl (TypeError "Cannot convert object to primitive value").

(** Every connection is refused. *)
Definition refused {A} (w : unit) : Outcome A * unit :=
  (Throws (AxiosError "connect ECONNREFUSED 127.0.0.1:8080" None), w).

(** Discovery against an unreachable server returns the empty list. *)
Example discoverTools_unreachable :
  discoverTools unit (λ _, refused) (λ _ _, refused) unconverted
      "http://localhost:8080/mcp" false (mkState unit tt 0)
    = (Returns [], mkState unit tt 0).
Proof. reflexivity. Qed.

(** A server that is up. *)
Definition healthy_get (url : string) (w : unit) : Outcome Z * unit :=
  if String.eqb url "http://localhost:8080/health" then (Returns 200%Z, w)
  else (Throws (AxiosError "Request failed with status code 404"
                  (Some (JNumber 404%float))), w).

(** The body of a response with the given [result]. *)
Definition response (id : float) (result : Json) : Json :=
  JObject [("jsonrpc", JString "2.0"); ("id", JNumber id); ("result", result)].

Definition handshake : Json :=
  JObject [("protocolVersion", JString "2024-11-05");
           ("capabilities", JObject []);
           ("serverInfo", JObject [("name", JString "demo");
                                   ("version", JString "0.1")])].

Definition search : Json :=
  JObject [("name", JString "search");
           ("description", JString "Searches the index");
           ("inputSchema", JObject [("type", JString "object");
                                    ("properties", JObject [])])].

(** It answers the handshake with [initResult] and lists [tools]. *)
Definition serving (initResult : Json) (tools : Json)
    (url : string) (request : JsonRpcRequest) (w : unit) : Outcome Json * unit :=
  if String.eqb (method request) "initialize"
  then (Returns (response 1%float initResult), w)
  else (Returns (response 2%float (JObject [("tools", tools)])), w).

Example discoverTools_healthy :
  discoverTools unit healthy_get (serving handshake (JArray [search])) unconverted
      "http://localhost:8080/mcp" true (mkState unit tt 7)
    = (Returns [mkAdapter (Some (JString "search"))
                  (Some (JString "Searches the index"))
                  (Some (JObject [("type", JString "object");
                                  ("properties", JObject [])]))],
       mkState unit tt 2).
Proof. reflexivity. Qed.

(** C6 as stated fails: a malformed response does not always empty the
    list.  A server that answers the handshake with the result [null] still
    has its tool discovered, and a server that lists an empty object and a
    number as tools has both adapted, nameless.  (With [verbose] set, the
    first of these discoveries reads the handshake result and gives the
    empty list.) *)
Lemma discoverTools_keeps_tools_of_malformed_responses :
  discoverTools unit healthy_get (serving JNull (JArray [search])) unconverted
      "http://localhost:8080/mcp" false (mkState unit tt 0)
    = (Returns [mkAdapter (Some (JString "search"))
                  (Some (JString "Searches the index"))
                  (Some (JObject [("type", JString "object");
                                  ("properties", JObject [])]))],
       mkState unit tt 2) ∧
  discoverTools unit healthy_get
      (serving handshake (JArray [JObject []; JNumber 42%float])) unconverted
      "http://localhost:8080/mcp" false (mkState unit tt 0)
    = (Returns [mkAdapter None None None; mkAdapter None None None],
       mkState unit tt 2) ∧
  discoverTools unit healthy_get (serving JNull (JArray [search])) unconverted
      "http://localhost:8080/mcp" true (mkState unit tt 0)
    = (Returns [], mkState unit tt 1).
Proof. repeat split. Qed.

End Mcp.


(* ===================================================================== *)
(** ** AIAgent *)
(* ===================================================================== *)

Module Agent.
Import Effects Effects.Notations.

(** [ChatCompletionMessageToolCall]: [{id, function: {name, arguments}}] *)
Record ToolCall : Type := mkCall {
  call_id : string;
  function_name : string;
  function_arguments : string
}.

Inductive Role : Type := system | user | assistant | tool.

(** [interface Message] *)
Record Message : Type := mkMessage {
  role : Role;
  content : string;
  tool_calls : option (list ToolCall);
  tool_call_id : option string
}.

(** [completion.choices[0]?.message]: [content] may be [null],
    [tool_calls] may be missing. *)
Record Reply : Type := mkReply {
  reply_content : option string;
  reply_tool_calls : option (list ToolCall)
}.

Section Orchestrator.

(** The world outside the agent (files, processes, the network) and the
    parsed form of a tool's arguments. *)
Variable World : Type.
Variable Json : Type.

(** [JSON.parse]: a value, or the [SyntaxError] it throws. *)
Variable JSON_parse : string → JsError + Json.

(** [interface Tool]: [execute] returns a text or throws, and acts on the
    world. *)
Record Tool : Type := mkTool {
  name : string;
  execute : Json → World → Outcome string * World
}.

(** [getCompletion] followed by [completion.choices[0]?.message], as a
    call into the world that sees the conversation: it throws what the
    completion call throws, and returns [None] when the completion has no
    message. *)
Variable getCompletion : list Message → World → Outcome (option Reply) * World.

(** [interface AIAgentConfig] (the fields the loop reads). *)
Record AIAgentConfig : Type := mkConfig {
  systemPrompt : string;
  tools : list Tool;
  maxIterations : option Z
}.

(** The fields of an [AIAgent] that change, and the world. *)
Record AgentState : Type := mkAgent {
  messages : list Message;
  world : World
}.

Variable config : AIAgentConfig.

(** [config.maxIterations || 20] *)
Definition effectiveMaxIterations : Z :=
  match maxIterations config with
  | None | Some 0%Z => 20%Z
  | Some n => n
  end.

(** The constructor's [toolMap]: a later tool of the same name replaces an
    earlier one. *)
Definition toolMap : gmap string Tool :=
  foldl (fun m t => <[name t := t]> m) ∅ (tools config).

(** The constructor's conversation: the system prompt. *)
Definition initialMessages : list Message :=
  [mkMessage system (systemPrompt config) None None].

(** [this.messages.push(m)] *)
Definition push (m : Message) : M AgentState unit :=
  fun s => (Returns tt, mkAgent (messages s ++ [m]) (world s)).

(** A call into the world. *)
Definition in_world {A} (f : World → Outcome A * World) : M AgentState A :=
  fun s => let '(r, w) := f (world s) in (r, mkAgent (messages s) w).

Definition parse_arguments (text : string) : M AgentState Json :=
  match JSON_parse text with
  | inl e => throw e
  | inr args => ret args
  end.

Definition toolMessage (toolCall : ToolCall) (text : string) : Message :=
  mkMessage tool text None (Some (call_id toolCall)).

(** The body of the [for] loop of [executeToolCalls]. *)
Definition dispatch (toolCall : ToolCall) : M AgentState unit :=
  match toolMap !! function_name toolCall with
  | None =>
      push (toolMessage toolCall
              ("ERROR: Tool '" ++ function_name toolCall ++ "' not found"))
  | Some t =>
      try_catch
        (let! args := parse_arguments (function_arguments toolCall) in
         let! result := in_world (execute t args) in
         push (toolMessage toolCall result))
        (fun error => push (toolMessage toolCall ("ERROR: " ++ describe error)))
  end.

(** [executeToolCalls]: [for (const toolCall of toolCalls)] *)
Fixpoint executeToolCalls (toolCalls : list ToolCall) : M AgentState unit :=
  match toolCalls with
  | [] => ret tt
  | toolCall :: rest => do! dispatch toolCall in executeToolCalls rest
  end.

(** The error thrown after the loop. *)
Definition iterationLimit : JsError :=
  Error ("Max iterations (" ++ pretty effectiveMaxIterations ++ ") reached").

Definition noMessage : JsError := Error "No message in completion".

(** The assistant message pushed for a reply: [message.content || ''] and
    the reply's tool calls. *)
Definition assistantMessage (reply : Reply) : Message :=
  mkMessage assistant (default "" (reply_content reply)) (reply_tool_calls reply) None.

(** The [while (iterations < maxIterations)] loop of [run], by the number
    of iterations still allowed. *)
Fixpoint run_loop (remaining : nat) : M AgentState string :=
  match remaining with
  | 0 => throw iterationLimit
  | S remaining' =>
      let! message := (fun s => in_world (getCompletion (messages s)) s) in
      match message with
      | None => throw noMessage
      | Some reply =>
          do! push (assistantMessage reply) in
          match reply_tool_calls reply with
          | Some (toolCall :: rest) =>
              do! executeToolCalls (toolCall :: rest) in
              run_loop remaining'
          | _ => ret (default "" (reply_content reply))
          end
      end
  end.

(** [run] *)
Definition run (userInput : string) : M AgentState string :=
  do! push (mkMessage user userInput None None) in
  run_loop (Z.to_nat effectiveMaxIterations).

(** A tool message that answers a request. *)
Definition is_result_of (toolCall : ToolCall) (m : Message) : Prop :=
  role m = tool ∧ tool_call_id m = Some (call_id toolCall).

Definition is_assistant (m : Message) : bool :=
  match role m with assistant => true | _ => false end.

(** [message.tool_calls && message.tool_calls.length > 0] *)
Definition has_tool_calls (m : Message) : bool :=
  match tool_calls m with Some (_ :: _) => true | _ => false end.

(** How a loop allowed [N] iterations ended, read off the messages it
    appended.  Returning [text]: the last appended message is an assistant
    message without tool calls whose content is [text], and it is the first
    such assistant message.  Throwing: every assistant message appended has
    tool calls; either there are [N] of them and the error is the
    iteration-limit error, or there are fewer and the error is the
    no-message error or one the completion call threw. *)
Definition ended_by (N : nat) (r : Outcome string) (appended : list Message) : Prop :=
  let replies := List.filter is_assistant appended in
  match r with
  | Returns text =>
      ∃ earlier m,
        replies = earlier ++ [m] ∧ last appended = Some m ∧
        Forall (λ m, has_tool_calls m = true) earlier ∧
        has_tool_calls m = false ∧ content m = text ∧ length earlier < N
  | Throws e =>
      Forall (λ m, has_tool_calls m = true) replies ∧
      ((length replies = N ∧ e = iterationLimit) ∨
       (length replies < N ∧
        (e = noMessage ∨
         ∃ history w w', getCompletion history w = (Throws e, w'))))
  end.

(** *** Tool dispatch *)

(** Every path through the loop body pushes one tool message for the call
    and returns. *)
Lemma dispatch_pushes_one toolCall s :
  ∃ text w',
    dispatch toolCall s
      = (Returns tt, mkAgent (messages s ++ [toolMessage toolCall text]) w').
Proof.
  unfold dispatch. destruct (toolMap !! function_name toolCall) as [t|].
  - unfold try_catch, bind, parse_arguments.
    destruct (JSON_parse (function_arguments toolCall)) as [e|args]; simpl.
    + by eexists _, _.
    + unfold in_world. destruct (execute t args (world s)) as [[result|e] w'];
        by eexists _, _.
  - by eexists _, _.
Qed.

Lemma executeToolCalls_appends toolCalls s :
  ∃ results w',
    executeToolCalls toolCalls s = (Returns tt, mkAgent (messages s ++ results) w') ∧
    Forall2 is_result_of toolCalls results.
Proof.
  revert s. induction toolCalls as [|toolCall rest IH]; intros s; simpl.
  - exists [], (world s). rewrite app_nil_r. by destruct s.
  - unfold bind. destruct (dispatch_pushes_one toolCall s) as (text & w1 & ->).
    destruct (IH (mkAgent (messages s ++ [toolMessage toolCall text]) w1))
      as (results & w' & -> & Hall).
    exists (toolMessage toolCall text :: results), w'. simpl.
    rewrite <- app_assoc. split; [done|]. by constructor.
Qed.

Lemma executeToolCalls_app first rest s :
  executeToolCalls (first ++ rest) s
  = (do! executeToolCalls first in executeToolCalls rest) s.
Proof.
  revert s. induction first as [|toolCall first IH]; intros s; simpl; [done|].
  unfold bind. destruct (dispatch toolCall s) as [[[]|e] s1]; [|done].
  rewrite IH. done.
Qed.

(** One iteration whose reply carries tool calls: the assistant message is
    pushed, the calls are executed, and the loop goes round again. *)
Lemma run_loop_tool_calls remaining s reply w1 toolCalls :
  getCompletion (messages s) (world s) = (Returns (Some reply), w1) →
  reply_tool_calls reply = Some toolCalls → toolCalls ≠ [] →
  run_loop (S remaining) s
  = (do! executeToolCalls toolCalls in run_loop remaining)
      (mkAgent (messages s ++ [assistantMessage reply]) w1).
Proof.
  intros Hc Ht Hne. simpl. unfold bind at 1, in_world. rewrite Hc.
  unfold bind at 1, push. simpl. rewrite Ht.
  by destruct toolCalls.
Qed.

(** C3. Executing the tool calls of an assistant message returns and
    appends to the conversation exactly one tool message per request: the
    appended messages pair off with the requests in order, each a [tool]
    message carrying the id of its request.  The calls run one after the
    other: executing a sequence is executing its first part, then its
    second part in the state the first part left.  An iteration whose reply
    carries at least one tool call pushes the assistant message, executes
    the calls in this way, and goes on with the next iteration. *)
Theorem tool_results_follow_requests (toolCalls : list ToolCall) (s : AgentState) :
  (∃ results w',
     executeToolCalls toolCalls s = (Returns tt, mkAgent (messages s ++ results) w') ∧
     length results = length toolCalls ∧
     Forall2 is_result_of toolCalls results) ∧
  (∀ first rest, toolCalls = first ++ rest →
     executeToolCalls toolCalls s
     = (do! executeToolCalls first in executeToolCalls rest) s) ∧
  (∀ remaining reply w1,
     getCompletion (messages s) (world s) = (Returns (Some reply), w1) →
     reply_tool_calls reply = Some toolCalls → toolCalls ≠ [] →
     ∃ results w',
       run_loop (S remaining) s
       = run_loop remaining
           (mkAgent (messages s ++ assistantMessage reply :: results) w') ∧
       length results = length toolCalls ∧
       Forall2 is_result_of toolCalls results).
Proof.
  split; [|split].
  - destruct (executeToolCalls_appends toolCalls s) as (results & w' & He & Hall).
    exists results, w'. repeat split; [done| |done].
    symmetry. by eapply Forall2_length.
  - intros first rest ->. apply executeToolCalls_app.
  - intros remaining reply w1 Hc Ht Hne.
    rewrite (run_loop_tool_calls _ _ _ _ _ Hc Ht Hne). unfold bind.
    destruct (executeToolCalls_appends toolCalls
                (mkAgent (messages s ++ [assistantMessage reply]) w1))
      as (results & w' & -> & Hall).
    exists results, w'. simpl. rewrite <- app_assoc. repeat split; [|done].
    symmetry. by eapply Forall2_length.
Qed.









(** *** How a run ends *)

Lemma results_are_not_replies toolCalls results :
  Forall2 is_result_of toolCalls results → List.filter is_assistant results = [].
Proof.
  induction 1 as [|toolCall m ? ? [Hrole _] _ IH]; simpl; [done|].
  unfold is_assistant. by rewrite Hrole.
Qed.

(** One iteration, with the effects written out. *)
Lemma run_loop_S remaining s :
  run_loop (S remaining) s
  = match getCompletion (messages s) (world s) with
    | (Returns (Some reply), w1) =>
        let s1 := mkAgent (messages s ++ [assistantMessage reply]) w1 in
        match reply_tool_calls reply with
        | Some (toolCall :: rest) =>
            match executeToolCalls (toolCall :: rest) s1 with
            | (Returns _, s2) => run_loop remaining s2
            | (Throws e, s2) => (Throws e, s2)
            end
        | _ => (Returns (default "" (reply_content reply)), s1)
        end
    | (Returns None, w1) => (Throws noMessage, mkAgent (messages s) w1)
    | (Throws e, w1) => (Throws e, mkAgent (messages s) w1)
    end.
Proof.
  simpl. unfold bind at 1, in_world.
  destruct (getCompletion (messages s) (world s)) as [[[reply|]|e] w1]; [|done..].
  unfold bind at 1, push. simpl.
  destruct (reply_tool_calls reply) as [[|toolCall rest]|]; done.
Qed.

Lemma run_loop_ends remaining s :
  ∃ appended,
    messages (run_loop remaining s).2 = messages s ++ appended ∧
    ended_by remaining (run_loop remaining s).1 appended.
Proof.
  revert s. induction remaining as [|remaining IH]; intros s.
  { exists []. simpl. rewrite app_nil_r. split; [done|]. split; [done|]. by left. }
  rewrite run_loop_S.
  destruct (getCompletion (messages s) (world s)) as [[[reply|]|e] w1] eqn:Hc.
  - assert (Hfinal : ∀ text,
      text = default "" (reply_content reply) →
      has_tool_calls (assistantMessage reply) = false →
      ended_by (S remaining) (Returns text) [assistantMessage reply]).
    { intros text -> Hno. exists [], (assistantMessage reply). simpl.
      repeat split; [done..|lia]. }
    destruct (reply_tool_calls reply) as [[|toolCall rest]|] eqn:Ht.
    + exists [assistantMessage reply]. split; [done|].
      apply Hfinal; [done|]. unfold has_tool_calls. simpl. by rewrite Ht.
    + cbv zeta.
      destruct (executeToolCalls_appends (toolCall :: rest)
                  (mkAgent (messages s ++ [assistantMessage reply]) w1))
        as (results & w' & -> & Hall).
      destruct (IH (mkAgent ((messages s ++ [assistantMessage reply]) ++ results) w'))
        as (appended & Hm & Hend).
      destruct (run_loop remaining _) as [r s2]. simpl in *.
      exists (assistantMessage reply :: results ++ appended).
      split; [by rewrite Hm, <- !app_assoc|].
      assert (Hreplies :
        List.filter is_assistant (assistantMessage reply :: results ++ appended)
        = assistantMessage reply :: List.filter is_assistant appended).
      { simpl. by rewrite List.filter_app, (results_are_not_replies _ _ Hall). }
      assert (Hcalls : has_tool_calls (assistantMessage reply) = true).
      { unfold has_tool_calls. simpl. by rewrite Ht. }
      unfold ended_by in *. rewrite Hreplies. destruct r as [text|e].
      * destruct Hend as (earlier & m & -> & Hlast & Hearlier & Hno & Hc' & Hlen).
        exists (assistantMessage reply :: earlier), m.
        repeat split; [|by constructor|done..|simpl; lia].
        rewrite last_cons, last_app, Hlast. done.
      * destruct Hend as (Hall' & Hcase). split; [by constructor|].
        simpl. destruct Hcase as [[Hlen ->]|[Hlen He]]; [left|right];
          (split; [lia|done]).
    + exists [assistantMessage reply]. split; [done|].
      apply Hfinal; [done|]. unfold has_tool_calls. simpl. by rewrite Ht.
  - exists []. rewrite app_nil_r. split; [done|]. split; [done|].
    right. split; [simpl; lia|by left].
  - exists []. rewrite app_nil_r. split; [done|]. split; [done|].
    right. split; [simpl; lia|]. right. by eexists _, _, _.
Qed.

(** C2, as the code has it.  [run] pushes the user message and then: it
    returns the content of the first assistant message without tool calls,
    which is then the last message of the conversation; or it throws the
    iteration-limit error, exactly when [maxIterations || 20] assistant
    messages were appended and each carries tool calls; or, with fewer
    assistant messages appended and all of them carrying tool calls, it
    throws the no-message error of a completion without a message, or the
    error that the completion call itself threw.  The bound is 20 when the
    configuration gives none (or 0). *)
Theorem run_ends (userInput : string) (s : AgentState) :
  (∃ appended,
     messages (run userInput s).2
       = messages s ++ mkMessage user userInput None None :: appended ∧
     ended_by (Z.to_nat effectiveMaxIterations) (run userInput s).1 appended) ∧
  (maxIterations config = None ∨ maxIterations config = Some 0%Z →
   effectiveMaxIterations = 20%Z).
Proof.
  split.
  - unfold run, bind, push. simpl.
    destruct (run_loop_ends (Z.to_nat effectiveMaxIterations)
                (mkAgent (messages s ++ [mkMessage user userInput None None]) (world s)))
      as (appended & Hm & Hend).
    exists appended. split; [|done]. rewrite Hm. simpl. by rewrite <- app_assoc.
  - unfold effectiveMaxIterations. by intros [-> | ->].
Qed.

End Orchestrator.

(** *** Concrete runs *)

Module Scenario.

(** The world is the log of what the tools did; arguments stay text, and
    only the text [{] fails to parse. *)
Definition parse (text : string) : JsError + string :=
  if String.eqb text "{" then inl (SyntaxError "Unexpected end of JSON input")
  else inr text.

Definition echo : Tool (list string) string :=
  mkTool _ _ "echo" (λ args w, (Returns args, w ++ ["echo"])).

Definition boom : Tool (list string) string :=
  mkTool _ _ "boom" (λ args w, (Throws (Error "kaboom"), w ++ ["boom"])).

Definition config : AIAgentConfig (list string) string :=
  mkConfig _ _ "You are an agent." [echo; boom] None.

Definition has_reply (history : list Message) : bool :=
  existsb (λ m, match role m with assistant => true | _ => false end) history.

(** A completion service that first asks for three tools, one of them
    unknown, and then answers. *)
Definition scripted (history : list Message) (w : list string)
    : Outcome (option Reply) * list string :=
  if has_reply history
  then (Returns (Some (mkReply (Some "done") None)), w)
  else (Returns (Some (mkReply None
          (Some [mkCall "call_1" "foo" "x"; mkCall "call_2" "boom" "y";
                 mkCall "call_3" "echo" "hi"]))), w).

(** A completion service whose completions carry no message. *)
Definition silent (history : list Message) (w : list string)
    : Outcome (option Reply) * list string :=
  (Returns None, w).

(** A completion service that cannot be reached. *)
Definition offline (history : list Message) (w : list string)
    : Outcome (option Reply) * list string :=
  (Throws (Error "Connection error."), w).

Definition start : AgentState (list string) :=
  mkAgent _ (initialMessages _ _ config) [].

(** The unknown tool and the throwing tool each leave an error result, the
    third call still runs, and the next iteration ends the run. *)
Example run_scripted :
  run _ _ parse scripted config "go" start
  = (Returns "done",
     mkAgent _
       [mkMessage system "You are an agent." None None;
        mkMessage user "go" None None;
        mkMessage assistant ""
          (Some [mkCall "call_1" "foo" "x"; mkCall "call_2" "boom" "y";
                 mkCall "call_3" "echo" "hi"]) None;
        mkMessage tool "ERROR: Tool 'foo' not found" None (Some "call_1");
        mkMessage tool "ERROR: kaboom" None (Some "call_2");
        mkMessage tool "hi" None (Some "call_3");
        mkMessage assistant "done" None None]
       ["boom"; "echo"]).
Proof. vm_compute. reflexivity. Qed.

(** C2 as stated fails: with the default bound of 20, a completion without
    a message makes [run] throw the no-message error, and an unreachable
    completion service makes it throw that service's error.  Neither is the
    iteration-limit error, and in neither run was an assistant message
    produced. *)
Lemma run_throws_other_errors :
  run _ _ parse silent config "go" start
    = (Throws (Error "No message in completion"),
       mkAgent _ [mkMessage system "You are an agent." None None;
                  mkMessage user "go" None None] []) ∧
  run _ _ parse offline config "go" start
    = (Throws (Error "Connection error."),
       mkAgent _ [mkMessage system "You are an agent." None None;
                  mkMessage user "go" None None] []) ∧
  iterationLimit _ _ config = Error "Max iterations (20) reached" ∧
  Error "No message in completion" ≠ iterationLimit _ _ config ∧
  Error "Connection error." ≠ iterationLimit _ _ config.
Proof. repeat split; try (vm_compute; reflexivity); vm_compute; discriminate. Qed.

End Scenario.

End Agent.

(* ===================================================================== *)
(** ** DiffViewer: what the LCS and the diff walk guarantee *)
(* ===================================================================== *)

Module DiffProperties.
Import DiffViewer.

(** The length of a longest common subsequence of the first [i] lines of
    [a] and the first [j] lines of [b]: the recurrence that the table of
    [computeLCS] is filled by. *)
Fixpoint lcs_length (a b : list string) (i : nat) : nat → nat :=
  match i with
  | 0 => fun _ => 0
  | S i' =>
      fix row (j : nat) : nat :=
        match j with
        | 0 => 0
        | S j' =>
            if same_line a i' b j' then S (lcs_length a b i' j')
            else Nat.max (lcs_length a b i' j) (row j')
        end
  end.

(** The lines an edit script keeps or drops: the old side of the diff. *)
Fixpoint old_side (diffLines : list DiffLine) : list string :=
  match diffLines with
  | [] => []
  | Context c :: rest | Removed c :: rest => c :: old_side rest
  | Added _ :: rest => old_side rest
  end.

(** The unchanged lines of a diff. *)
Fixpoint contexts (diffLines : list DiffLine) : list string :=
  match diffLines with
  | [] => []
  | Context c :: rest => c :: contexts rest
  | _ :: rest => contexts rest
  end.

(** The alignment of the LCS with the new text. *)
Definition aligned_new (newLines lcs : list string) (j k : nat) : Prop :=
  drop k lcs `sublist_of` drop j newLines.

(** *** The result of [computeLCS] is a common subsequence *)

Lemma same_line_at a i b j :
  i < length a → same_line a i b j = true → at_index a i = at_index b j.
Proof.
  unfold same_line, at_index. intros Hi H%bool_decide_eq_true. by rewrite H.
Qed.

Lemma lcs_walk_sublist_b fuel a b dp i j lcs r :
  i ≤ length a → j ≤ length b →
  lcs_walk fuel a b dp i j lcs = Some r →
  ∃ p, r = p ++ lcs ∧ p `sublist_of` take j b.
Proof.
  revert i j lcs. induction fuel as [|fuel IH]; intros i j lcs Hi Hj Hr; [done|].
  simpl in Hr. destruct (0 <? i) eqn:Hi0; simpl in Hr.
  2:{ exists []. split; [by simplify_eq|apply sublist_nil_l]. }
  destruct (0 <? j) eqn:Hj0; simpl in Hr.
  2:{ exists []. split; [by simplify_eq|apply sublist_nil_l]. }
  apply Nat.ltb_lt in Hi0, Hj0.
  assert (Htake : take j b = take (j - 1) b ++ [at_index b (j - 1)]).
  { destruct (lookup_lt_is_Some_2 b (j - 1)) as [x Hx]; [lia|].
    unfold at_index. rewrite Hx. simpl.
    replace j with (S (j - 1)) at 1 by lia. by apply take_S_r. }
  destruct (same_line a (i - 1) b (j - 1)) eqn:Hsame.
  - apply IH in Hr as (p & -> & Hp); [|lia..].
    exists (p ++ [at_index a (i - 1)]). split; [by rewrite <- app_assoc|].
    rewrite Htake, (same_line_at a (i - 1) b (j - 1)) by (done || lia).
    by apply sublist_app.
  - destruct (dp_get dp i (j - 1) <? dp_get dp (i - 1) j).
    + apply IH in Hr as (p & -> & Hp); [|lia..]. by exists p.
    + apply IH in Hr as (p & -> & Hp); [|lia..].
      exists p. split; [done|]. rewrite Htake. by apply sublist_inserts_r.
Qed.

Lemma computeLCS_common a b lcs :
  computeLCS a b = Some lcs → lcs `sublist_of` a ∧ lcs `sublist_of` b.
Proof.
  intros H. split; [by eapply computeLCS_fuel_sublist|].
  unfold computeLCS, computeLCS_fuel in H.
  apply lcs_walk_sublist_b in H as (p & -> & Hp); [|done..].
  rewrite app_nil_r. by rewrite firstn_all in Hp.
Qed.

(** *** The table of [computeLCS] holds the LCS lengths *)

Lemma lcs_length_S a b i j :
  lcs_length a b (S i) (S j)
  = if same_line a i b j then S (lcs_length a b i j)
    else Nat.max (lcs_length a b i (S j)) (lcs_length a b (S i) j).
Proof. reflexivity. Qed.

Lemma lcs_length_0_r a b i : lcs_length a b i 0 = 0.
Proof. by destruct i. Qed.

(** The table is [m + 1] rows of [n + 1] cells. *)
Definition shape (m n : nat) (dp : list (list nat)) : Prop :=
  length dp = S m ∧ Forall (fun row => length row = S n) dp.

Lemma dp_set_shape m n dp i j v : shape m n dp → shape m n (dp_set dp i j v).
Proof.
  unfold shape, dp_set. intros [Hlen Hrows]. split; [by rewrite length_alter|].
  apply Forall_alter; [done|]. intros row _ Hrow. by rewrite length_insert.
Qed.

Lemma dp_get_set_eq m n dp i j v :
  shape m n dp → i ≤ m → j ≤ n → dp_get (dp_set dp i j v) i j = v.
Proof.
  unfold shape, dp_get, dp_set. intros [Hlen Hrows] Hi Hj.
  destruct (lookup_lt_is_Some_2 dp i) as [row Hrow]; [lia|].
  rewrite list_lookup_alter_eq, Hrow. simpl.
  rewrite list_lookup_insert_eq; [done|].
  rewrite Forall_lookup in Hrows. rewrite (Hrows _ _ Hrow). lia.
Qed.

Lemma dp_get_set_ne dp i j v i' j' :
  i' ≠ i ∨ j' ≠ j → dp_get (dp_set dp i j v) i' j' = dp_get dp i' j'.
Proof.
  unfold dp_get, dp_set. intros Hne.
  destruct (decide (i' = i)) as [->|Hi].
  - rewrite list_lookup_alter_eq. destruct (dp !! i) as [row|]; simpl; [|done].
    rewrite list_lookup_insert_ne; [done|]. destruct Hne; congruence.
  - by rewrite list_lookup_alter_ne.
Qed.

(** The table while it is being filled: the rows before [r] and the cells
    of row [r] up to column [c] hold the LCS lengths, every other cell is
    still zero. *)
Definition filled (a b : list string) (r c : nat) (dp : list (list nat)) : Prop :=
  shape (length a) (length b) dp ∧
  ∀ i j, i ≤ length a → j ≤ length b →
    dp_get dp i j
    = if decide (i < r ∨ (i = r ∧ j ≤ c)) then lcs_length a b i j else 0.

Lemma dp_init_get m n i j : dp_get (dp_init m n) i j = 0.
Proof.
  unfold dp_get, dp_init. generalize (S m), (S n). intros M N.
  destruct (replicate M (replicate N 0) !! i) as [row|] eqn:Hrow; [|done].
  apply lookup_replicate in Hrow as [-> _]. simpl.
  destruct (replicate N 0 !! j) as [x|] eqn:Hx; [|done].
  by apply lookup_replicate in Hx as [-> _].
Qed.

Lemma filled_init a b : filled a b 0 (length b) (dp_init (length a) (length b)).
Proof.
  split.
  - unfold dp_init. split; [by rewrite length_replicate|].
    apply Forall_replicate. by rewrite length_replicate.
  - intros i j Hi Hj. rewrite dp_init_get. case_decide as H; [|done].
    destruct H as [?|[-> _]]; [lia|done].
Qed.

Lemma filled_next_row a b r dp :
  filled a b r (length b) dp → filled a b (S r) 0 dp.
Proof.
  intros [Hshape Hcells]. split; [done|]. intros i j Hi Hj.
  rewrite Hcells by done. repeat case_decide; try done; try lia.
  - assert (i = S r ∧ j = 0) as [-> ->] by lia. by rewrite lcs_length_0_r.
Qed.

Lemma filled_cell a b r c dp :
  r < length a → c < length b →
  filled a b (S r) c dp → filled a b (S r) (S c) (dp_cell a b dp (S r) (S c)).
Proof.
  intros Hr Hc [Hshape Hcells].
  assert (Hval : ∀ i j, i ≤ length a → j ≤ length b →
            i < S r ∨ (i = S r ∧ j ≤ c) → dp_get dp i j = lcs_length a b i j).
  { intros i j Hi Hj Hdone. rewrite Hcells by done. by rewrite decide_True. }
  set (v := if same_line a r b c then S (lcs_length a b r c)
            else Nat.max (lcs_length a b r (S c)) (lcs_length a b (S r) c)).
  assert (Hcell : dp_cell a b dp (S r) (S c) = dp_set dp (S r) (S c) v).
  { unfold dp_cell, v. simpl. rewrite !Nat.sub_0_r.
    rewrite !Hval by lia. destruct (same_line a r b c); f_equal; lia. }
  rewrite Hcell. split; [by apply dp_set_shape|]. intros i j Hi Hj.
  destruct (decide (i = S r ∧ j = S c)) as [[-> ->]|Hne].
  - rewrite (dp_get_set_eq (length a) (length b)) by (done || lia).
    rewrite decide_True by lia. by rewrite lcs_length_S.
  - rewrite dp_get_set_ne by lia. rewrite Hcells by done.
    repeat case_decide; try done; lia.
Qed.

Lemma foldl_seq_invariant {A} (P : nat → A → Prop) (f : A → nat → A) n x :
  P 0 x → (∀ c y, c < n → P c y → P (S c) (f y (S c))) →
  P n (foldl f x (seq 1 n)).
Proof.
  induction n as [|n IH]; intros H0 Hstep; [done|].
  rewrite seq_S, foldl_app. simpl. apply Hstep; [lia|].
  apply IH; [done|]. intros c y Hc. apply Hstep. lia.
Qed.

Lemma dp_table_filled a b :
  filled a b (length a) (length b) (dp_table a b).
Proof.
  unfold dp_table.
  apply (foldl_seq_invariant (fun r dp => filled a b r (length b) dp)).
  - apply filled_init.
  - intros r dp Hr Hfilled.
    apply (foldl_seq_invariant (fun c dp => filled a b (S r) c dp)).
    + by apply filled_next_row.
    + intros c dp' Hc. by apply filled_cell.
Qed.

Lemma dp_table_get a b i j :
  i ≤ length a → j ≤ length b → dp_get (dp_table a b) i j = lcs_length a b i j.
Proof.
  intros Hi Hj. destruct (dp_table_filled a b) as [_ Hcells].
  rewrite Hcells by done. rewrite decide_True; [done|lia].
Qed.

(** *** The result of [computeLCS] is as long as a common subsequence gets *)

Lemma lcs_walk_length fuel a b i j lcs r :
  i ≤ length a → j ≤ length b →
  lcs_walk fuel a b (dp_table a b) i j lcs = Some r →
  length r = lcs_length a b i j + length lcs.
Proof.
  revert i j lcs. induction fuel as [|fuel IH]; intros i j lcs Hi Hj Hr; [done|].
  simpl in Hr. destruct i as [|i]; [by simplify_eq/=|].
  destruct j as [|j]; [by simplify_eq/=|].
  simpl in Hr. rewrite !Nat.sub_0_r in Hr. rewrite lcs_length_S.
  destruct (same_line a i b j).
  - apply IH in Hr; [|lia..]. simpl in Hr. lia.
  - rewrite !dp_table_get in Hr by lia.
    destruct (lcs_length a b (S i) j <? lcs_length a b i (S j)) eqn:Hlt.
    + apply Nat.ltb_lt in Hlt. apply IH in Hr; [|lia..]. lia.
    + apply Nat.ltb_ge in Hlt. apply IH in Hr; [|lia..]. lia.
Qed.

Lemma sublist_snoc_r {A} (s l : list A) x :
  s `sublist_of` l ++ [x] →
  s `sublist_of` l ∨ ∃ s', s = s' ++ [x] ∧ s' `sublist_of` l.
Proof.
  intros (l1 & l2 & -> & H1 & H2)%sublist_app_r.
  apply sublist_cons_r in H2 as [H2|(l' & -> & H2)];
    apply sublist_nil_r in H2 as ->.
  - left. by rewrite app_nil_r.
  - right. by exists l1.
Qed.

Lemma sublist_snoc_inv {A} (s l : list A) x :
  s ++ [x] `sublist_of` l → s `sublist_of` l.
Proof. intros H. etrans; [|exact H]. by apply sublist_inserts_r. Qed.

Lemma common_sublist_bound a b i j s :
  i ≤ length a → j ≤ length b →
  s `sublist_of` take i a → s `sublist_of` take j b →
  length s ≤ lcs_length a b i j.
Proof.
  revert j s. induction i as [|i IHi]; intros j s Hi Hj Ha Hb.
  { apply sublist_nil_r in Ha as ->. simpl. lia. }
  revert s Ha Hb. induction j as [|j IHj]; intros s Ha Hb.
  { apply sublist_nil_r in Hb as ->. simpl. lia. }
  destruct (lookup_lt_is_Some_2 a i) as [x Hx]; [lia|].
  destruct (lookup_lt_is_Some_2 b j) as [y Hy]; [lia|].
  rewrite (take_S_r _ _ _ Hx) in Ha. rewrite (take_S_r _ _ _ Hy) in Hb.
  rewrite lcs_length_S. unfold same_line. rewrite Hx, Hy.
  destruct (sublist_snoc_r _ _ _ Ha) as [Ha'|(s' & -> & Ha')].
  - (* the last line of [a] is not used *)
    assert (length s ≤ lcs_length a b i (S j)) as Hbound.
    { apply IHi; [lia|done|done|]. by rewrite (take_S_r _ _ _ Hy). }
    case_bool_decide as Heq; [|lia].
    simplify_eq. destruct (sublist_snoc_r _ _ _ Hb) as [Hb'|(s' & -> & Hb')].
    + assert (length s ≤ lcs_length a b i j) by (apply IHi; (done || lia)). lia.
    + assert (length s' ≤ lcs_length a b i j).
      { apply IHi; [lia..| |done]. by eapply sublist_snoc_inv. }
      rewrite length_app. simpl. lia.
  - (* the last line of [a] is the last line of the subsequence *)
    destruct (sublist_snoc_r _ _ _ Hb) as [Hb'|(s'' & Heq & Hb')].
    + assert (length (s' ++ [x]) ≤ lcs_length a b (S i) j) as Hbound.
      { apply IHj; [lia| |done]. by rewrite (take_S_r _ _ _ Hx). }
      case_bool_decide as Heq; [|lia].
      assert (length s' ≤ lcs_length a b i j).
      { apply IHi; [lia..|done|]. by eapply sublist_snoc_inv. }
      rewrite length_app. simpl. lia.
    + apply app_inj_tail in Heq as [<- <-].
      rewrite bool_decide_eq_true_2 by done.
      assert (length s' ≤ lcs_length a b i j) by (apply IHi; (done || lia)).
      rewrite length_app. simpl. lia.
Qed.

Lemma computeLCS_longest (a b : list string) :
  ∃ lcs, computeLCS a b = Some lcs ∧
    lcs `sublist_of` a ∧ lcs `sublist_of` b ∧
    ∀ s, s `sublist_of` a → s `sublist_of` b → length s ≤ length lcs.
Proof.
  destruct (computeLCS_total a b) as [lcs Hlcs]. exists lcs.
  destruct (computeLCS_common _ _ _ Hlcs) as [Ha Hb].
  repeat split; [done..|]. intros s Hsa Hsb.
  unfold computeLCS, computeLCS_fuel in Hlcs.
  apply lcs_walk_length in Hlcs; [|done..]. simpl in Hlcs.
  rewrite Hlcs, Nat.add_0_r.
  apply common_sublist_bound; [done..| |]; by rewrite firstn_all.
Qed.

(** X1. [computeLCS] returns a longest common subsequence: its result is a
    subsequence of both inputs, and no common subsequence is longer. *)
Theorem computeLCS_longest_common_subsequence (a b : list string) :
  ∃ lcs, computeLCS a b = Some lcs ∧
    lcs `sublist_of` a ∧ lcs `sublist_of` b ∧
    ∀ s, s `sublist_of` a → s `sublist_of` b → length s ≤ length lcs.
Proof. apply computeLCS_longest. Qed.

(** *** What the walk of [computeDiff] emits *)

Lemma old_side_snoc d line :
  old_side (d ++ [line])
  = old_side d ++ match line with Context c | Removed c => [c] | Added _ => [] end.
Proof.
  induction d as [|[c|c|c] d IH]; simpl; [by destruct line|by rewrite IH..].
Qed.

Lemma contexts_snoc d line :
  contexts (d ++ [line])
  = contexts d ++ match line with Context c => [c] | _ => [] end.
Proof.
  induction d as [|[c|c|c] d IH]; simpl; [by destruct line|by rewrite IH..].
Qed.

Lemma raw_added_snoc d line :
  raw_added (d ++ [line])
  = raw_added d + match line with Added _ => 1 | _ => 0 end.
Proof.
  unfold raw_added. rewrite List.filter_app, length_app. by destruct line.
Qed.

Lemma drop_at_index l i :
  i < length l → drop i l = at_index l i :: drop (S i) l.
Proof.
  intros Hi. destruct (lookup_lt_is_Some_2 l i Hi) as [x Hx].
  unfold at_index. rewrite Hx. by apply drop_S.
Qed.

Lemma skip_removed_output fuel oldLines lcs k i d i' d' :
  skip_removed fuel oldLines lcs k i d = Some (i', d') →
  old_side d' ++ drop i' oldLines = old_side d ++ drop i oldLines ∧
  contexts d' = contexts d ∧ raw_added d' = raw_added d ∧
  (aligned oldLines lcs i k → aligned oldLines lcs i' k).
Proof.
  revert i d. induction fuel as [|fuel IH]; intros i d Hs; [done|].
  simpl in Hs. destruct (i <? length oldLines) eqn:Hi; simpl in Hs;
    [|by simplify_eq].
  apply Nat.ltb_lt in Hi.
  destruct (same_line oldLines i lcs k) eqn:Hsame; simpl in Hs; [by simplify_eq|].
  apply IH in Hs as (Hold & Hctx & Hadd & Hal).
  rewrite old_side_snoc, contexts_snoc, raw_added_snoc in *.
  rewrite app_nil_r in Hctx. rewrite Nat.add_0_r in Hadd.
  repeat split; [|done..|].
  - by rewrite Hold, <- app_assoc, (drop_at_index oldLines i).
  - intros H. by apply Hal, aligned_skip.
Qed.

Lemma aligned_done l lcs i k : length lcs ≤ k → aligned l lcs i k.
Proof. intros Hk. unfold aligned. rewrite (drop_ge lcs) by done. apply sublist_nil_l. Qed.

(** The walk came out of its loop with [d]: then [d] keeps or drops the
    unread old lines in order, keeps exactly the unmatched LCS lines, and
    adds as many lines as the new text has left beyond the LCS. *)
Lemma diff_walk_output fuel oldLines newLines lcs i j k acc d :
  diff_walk fuel oldLines newLines lcs i j k acc = Some d →
  aligned oldLines lcs i k → aligned newLines lcs j k →
  old_side d = old_side acc ++ drop i oldLines ∧
  contexts d = contexts acc ++ drop k lcs ∧
  raw_added d + (length lcs - k) = raw_added acc + (length newLines - j).
Proof.
  revert i j k acc.
  induction fuel as [|fuel IH]; intros i j k acc Hd Hold Hnew; [done|].
  simpl in Hd.
  destruct (decide (k < length lcs)) as [Hk|Hk].
  - (* LCS lines are left: both cursors are inside *)
    pose proof (aligned_in_range _ _ _ _ Hold Hk) as Hi.
    pose proof (aligned_in_range _ _ _ _ Hnew Hk) as Hj.
    rewrite (proj2 (Nat.ltb_lt _ _) Hk), (proj2 (Nat.ltb_lt _ _) Hi),
      (proj2 (Nat.ltb_lt _ _) Hj) in Hd. simpl in Hd.
    destruct (same_line oldLines i lcs k) eqn:Ho; simpl in Hd.
    + apply IH in Hd as (H1 & H2 & H3); [|by apply aligned_match..].
      rewrite old_side_snoc, contexts_snoc, raw_added_snoc in *.
      rewrite <- !app_assoc in *. simpl in *.
      rewrite (drop_at_index oldLines i Hi), (drop_at_index lcs k Hk).
      rewrite <- (same_line_at oldLines i lcs k Hi Ho).
      repeat split; [done..|lia].
    + destruct (same_line newLines j lcs k) eqn:Hn; simpl in Hd.
      * destruct (skip_removed fuel oldLines lcs k i acc) as [[i' acc']|] eqn:Hs;
          [|done].
        apply skip_removed_output in Hs as (Hs1 & Hs2 & Hs3 & Hs4).
        apply IH in Hd as (H1 & H2 & H3); [|by auto..].
        rewrite Hs2, Hs3 in *. by rewrite H1, Hs1.
      * apply IH in Hd as (H1 & H2 & H3);
          [|by apply aligned_skip..].
        rewrite raw_added_snoc, contexts_snoc, old_side_snoc in *.
        rewrite raw_added_snoc, contexts_snoc, old_side_snoc in *.
        rewrite !app_nil_r, <- ?app_assoc in *. simpl in *.
        rewrite (drop_at_index oldLines i Hi).
        repeat split; [done..|lia].
  - (* the LCS is used up *)
    assert (length lcs ≤ k) as Hk' by lia.
    rewrite (proj2 (Nat.ltb_ge _ _) Hk') in Hd. simpl in Hd.
    rewrite (drop_ge lcs) by done. rewrite app_nil_r.
    destruct (i <? length oldLines) eqn:Hi; destruct (j <? length newLines) eqn:Hj;
      simpl in Hd;
      first [apply Nat.ltb_lt in Hi | apply Nat.ltb_ge in Hi];
      first [apply Nat.ltb_lt in Hj | apply Nat.ltb_ge in Hj].
    + apply IH in Hd as (H1 & H2 & H3); [|by apply aligned_done..].
      rewrite raw_added_snoc, contexts_snoc, old_side_snoc in *.
      rewrite raw_added_snoc, contexts_snoc, old_side_snoc in *.
      rewrite (drop_ge lcs) in H2 by done.
      rewrite !app_nil_r, <- ?app_assoc in *. simpl in *.
      rewrite (drop_at_index oldLines i Hi).
      repeat split; [done..|lia].
    + apply IH in Hd as (H1 & H2 & H3); [|by apply aligned_done..].
      rewrite contexts_snoc, old_side_snoc, raw_added_snoc in *.
      rewrite (drop_ge lcs) in H2 by done.
      rewrite !app_nil_r, <- ?app_assoc in *. simpl in *.
      rewrite (drop_at_index oldLines i Hi).
      repeat split; [done..|lia].
    + apply IH in Hd as (H1 & H2 & H3); [|by apply aligned_done..].
      rewrite contexts_snoc, old_side_snoc, raw_added_snoc in *.
      rewrite (drop_ge lcs) in H2 by done.
      rewrite !app_nil_r in *.
      repeat split; [done..|lia].
    + simplify_eq. rewrite (drop_ge oldLines) by done. rewrite app_nil_r.
      repeat split. lia.
Qed.

Lemma old_side_length d :
  length (old_side d) = length (contexts d) + raw_removed d.
Proof.
  unfold raw_removed.
  induction d as [|[c|c|c] d IH]; simpl; lia.
Qed.

Lemma sublist_full {A} (l1 l2 : list A) :
  l1 `sublist_of` l2 → length l2 ≤ length l1 → l1 = l2.
Proof.
  induction 1 as [|x l1 l2 H IH|x l1 l2 H IH]; simpl; intros Hlen; [done| |].
  - f_equal. apply IH. lia.
  - apply sublist_length in H. lia.
Qed.

Lemma only_contexts d :
  raw_added d = 0 → raw_removed d = 0 → d = Context <$> contexts d.
Proof.
  unfold raw_added, raw_removed.
  induction d as [|[c|c|c] d IH]; simpl; intros Ha Hr; [done| |done..].
  f_equal. by apply IH.
Qed.

(** All that holds of the output of [computeDiff], with the LCS it walks
    against. *)
Lemma computeDiff_output oldLines newLines :
  ∃ lcs d,
    computeLCS oldLines newLines = Some lcs ∧
    computeDiff oldLines newLines = Some d ∧
    old_side d = oldLines ∧ contexts d = lcs ∧
    raw_removed d + length lcs = length oldLines ∧
    raw_added d + length lcs = length newLines.
Proof.
  destruct (computeLCS_total oldLines newLines) as [lcs Hlcs].
  destruct (computeDiff_total oldLines newLines) as [d Hd].
  exists lcs, d. split; [done|]. split; [done|].
  destruct (computeLCS_common _ _ _ Hlcs) as [Ha Hb].
  unfold computeDiff, computeDiff_fuel in Hd.
  unfold computeLCS in Hlcs. rewrite Hlcs in Hd.
  change (diff_walk (S (length oldLines + length newLines)) oldLines newLines
            lcs 0 0 0 [] = Some d) in Hd.
  apply diff_walk_output in Hd as (H1 & H2 & H3);
    [|unfold aligned; by rewrite !drop_0..].
  rewrite drop_0 in H1, H2. simpl in H1, H2, H3.
  pose proof (old_side_length d) as Hlen. rewrite H1, H2 in Hlen.
  repeat split; [done..|lia|].
  unfold raw_added in *. simpl in H3. lia.
Qed.

(** X2. An edit script of [computeDiff] accounts for the whole old text:
    its Context and Removed lines, in the order emitted, are the old lines,
    and its Context lines are the longest common subsequence that
    [computeLCS] returns. *)
Theorem computeDiff_keeps_or_removes_every_old_line (oldLines newLines : list string) :
  ∃ lcs d,
    computeLCS oldLines newLines = Some lcs ∧
    computeDiff oldLines newLines = Some d ∧
    old_side d = oldLines ∧ contexts d = lcs.
Proof.
  destruct (computeDiff_output oldLines newLines)
    as (lcs & d & H1 & H2 & H3 & H4 & _).
  by exists lcs, d.
Qed.

(** X3. The counts of a diff balance with the lengths of the texts: the
    removals are the old lines outside the LCS and the additions number the
    new lines outside the LCS, so additions less removals is the growth of
    the text.  [computeStats] inherits the balance for two non-empty texts,
    and it never reports additions and deletions together. *)
Theorem diff_counts_balance :
  (∀ oldLines newLines, ∃ lcs d,
     computeLCS oldLines newLines = Some lcs ∧
     computeDiff oldLines newLines = Some d ∧
     raw_removed d + length lcs = length oldLines ∧
     raw_added d + length lcs = length newLines ∧
     raw_added d + length oldLines = raw_removed d + length newLines) ∧
  (∀ oldContent newContent, ∃ stats,
     computeStats oldContent newContent = Some stats ∧
     (additions stats = 0 ∨ deletions stats = 0) ∧
     (truthy oldContent = true → truthy newContent = true →
      additions stats + length (split_lines (text oldContent))
      = deletions stats + length (split_lines (text newContent)))).
Proof.
  split.
  - intros oldLines newLines.
    destruct (computeDiff_output oldLines newLines)
      as (lcs & d & H1 & H2 & _ & _ & H5 & H6).
    exists lcs, d. repeat split; [done..|lia].
  - intros oldContent newContent. unfold computeStats.
    destruct (truthy oldContent) eqn:Ho, (truthy newContent) eqn:Hn; simpl;
      try (eexists; split; [done|]; simpl; split; [by auto|done]).
    destruct (computeDiff_output (split_lines (text oldContent))
                (split_lines (text newContent)))
      as (lcs & d & _ & -> & _ & _ & H5 & H6).
    simpl. rewrite count_changes_raw.
    eexists. split; [done|]. simpl. split; [lia|]. intros _ _. lia.
Qed.

Lemma computeDiff_same lines : computeDiff lines lines = Some (Context <$> lines).
Proof.
  destruct (computeDiff_output lines lines) as (lcs & d & H1 & H2 & H3 & H4 & H5 & H6).
  destruct (computeLCS_longest lines lines) as (lcs' & Hlcs' & Ha & _ & Hmax).
  assert (lcs' = lcs) as -> by congruence.
  assert (lcs = lines) as ->.
  { apply sublist_full; [done|]. by apply Hmax. }
  rewrite H2. f_equal. transitivity (Context <$> contexts d); [|by rewrite H4].
  apply only_contexts; lia.
Qed.

Lemma contexts_have_no_changes (l : list string) :
  raw_added (Context <$> l) = 0 ∧ raw_removed (Context <$> l) = 0.
Proof. unfold raw_added, raw_removed. by induction l. Qed.

(** X4. A text is never different from itself: the diff of a line sequence
    with itself is all Context lines, and the statistics of a content
    against itself are all zero. *)
Theorem identical_texts_have_no_changes :
  (∀ lines, computeDiff lines lines = Some (Context <$> lines)) ∧
  (∀ content, computeStats content content = Some (mkStats 0 0 0)).
Proof.
  split; [exact computeDiff_same|]. intros content. unfold computeStats.
  destruct (truthy content); simpl; [|done].
  rewrite computeDiff_same. simpl. rewrite count_changes_raw.
  by destruct (contexts_have_no_changes (split_lines (text content))) as [-> ->].
Qed.

End DiffProperties.

(* ===================================================================== *)
(** ** DiffViewer: the unified format *)
(* ===================================================================== *)

Module DiffFormat.
Import DiffViewer DiffProperties.

(** The newline character as a string. *)
Definition nl : string := String "010"%char EmptyString.

(** [parts.join(sep)] *)
Definition join (sep : string) (parts : list string) : string :=
  String.concat sep parts.

(** The loop variables of [formatUnifiedDiff]. *)
Record FormatState : Type := mkFormat {
  chunks : list string;
  currentChunk : list string;
  contextCount : Z
}.

(** The leading context of a new chunk: the Context lines among the
    [contextLines] lines before line [i]. *)
Definition leading_context (diffLines : list DiffLine) (contextLines : Z) (i : nat)
    : list string :=
  let start := Z.to_nat (Z.max 0 (Z.of_nat i - contextLines)) in
  flat_map (fun j => match diffLines !! j with
                     | Some (Context c) => [(" " ++ c)%string]
                     | _ => []
                     end) (seq start (i - start)).

(** How a changed line is printed. *)
Definition render (line : DiffLine) : string :=
  match line with
  | Context c => (" " ++ c)%string
  | Added c => ("+" ++ c)%string
  | Removed c => ("-" ++ c)%string
  end.

(** The body of the [for] loop, on line [i]. *)
Definition format_step (diffLines : list DiffLine) (contextLines : Z)
    (st : FormatState) (i : nat) (line : DiffLine) : FormatState :=
  match line with
  | Context c =>
      if 0 <? length (currentChunk st) then
        let count := (contextCount st + 1)%Z in
        if (count <=? contextLines * 2)%Z then
          mkFormat (chunks st) (currentChunk st ++ [render line]) count
        else if 0 <? length (currentChunk st) then
          mkFormat (chunks st ++ [join nl (currentChunk st)]) [] 0
        else mkFormat (chunks st) (currentChunk st) count
      else mkFormat (chunks st) (currentChunk st) 0
  | _ =>
      let chunk :=
        if (length (currentChunk st) =? 0) && (contextCount st =? 0)%Z
        then currentChunk st ++ leading_context diffLines contextLines i
        else currentChunk st in
      mkFormat (chunks st) (chunk ++ [render line]) 0
  end.

(** [for (let i = ...; i < diffLines.length; i++)], from line [i] on. *)
Fixpoint format_loop (diffLines : list DiffLine) (contextLines : Z)
    (i : nat) (rest : list DiffLine) (st : FormatState) : FormatState :=
  match rest with
  | [] => st
  | line :: rest' =>
      format_loop diffLines contextLines (S i) rest'
        (format_step diffLines contextLines st i line)
  end.

(** The chunks after the final chunk is added. *)
Definition final_chunks (st : FormatState) : list string :=
  if 0 <? length (currentChunk st)
  then chunks st ++ [join nl (currentChunk st)]
  else chunks st.

Definition formatUnifiedDiff (diffLines : list DiffLine) (contextLines : Z) : string :=
  let st := format_loop diffLines contextLines 0 diffLines (mkFormat [] [] 0) in
  if length (final_chunks st) =? 0 then "(no changes)"
  else join (nl ++ nl) (final_chunks st).

(** [generateDiff]; [None] only if [computeDiff] ran out of fuel. *)
Definition generateDiff (oldContent newContent : option string) (contextLines : Z)
    : option string :=
  if negb (truthy oldContent) && negb (truthy newContent) then Some "(no changes)"
  else if negb (truthy oldContent) then
    Some ("New file" ++ nl ++ "+++ "
          ++ pretty (length (split_lines (text newContent))) ++ " lines")%string
  else if negb (truthy newContent) then
    Some ("Deleted file" ++ nl ++ "--- "
          ++ pretty (length (split_lines (text oldContent))) ++ " lines")%string
  else
    diffLines ← computeDiff (split_lines (text oldContent)) (split_lines (text newContent));
    Some (formatUnifiedDiff diffLines contextLines).

(** A line of the diff that is a change. *)
Definition is_change (line : DiffLine) : bool :=
  match line with Context _ => false | _ => true end.

(** [r] occurs in [s]. *)
Definition occurs_in (r s : string) : Prop :=
  ∃ before after, s = (before ++ r ++ after)%string.

(** A printed line or chunk opens with a space, a plus or a minus. *)
Definition opens_with_mark (s : string) : Prop :=
  ∃ c rest, s = String c rest ∧ (c = " " ∨ c = "+" ∨ c = "-")%char.

(** Something has been printed. *)
Definition printed (st : FormatState) : Prop :=
  chunks st ≠ [] ∨ currentChunk st ≠ [].

(** The printed text is well formed: chunks and the chunk being built open
    with a mark. *)
Definition marked (st : FormatState) : Prop :=
  Forall opens_with_mark (chunks st) ∧
  match currentChunk st with [] => True | x :: _ => opens_with_mark x end.

(** [r] is on a line of the chunk being built or inside a finished
    chunk. *)
Definition shown (r : string) (st : FormatState) : Prop :=
  r ∈ currentChunk st ∨ ∃ chunk, chunk ∈ chunks st ∧ occurs_in r chunk.

(** *** Strings *)

Lemma str_app_assoc (a b c : string) : ((a ++ b) ++ c = a ++ b ++ c)%string.
Proof.
  induction a as [|x a IH]; [done|].
  change (String x ((a ++ b) ++ c) = String x (a ++ b ++ c))%string. by f_equal.
Qed.

Lemma str_app_nil_r (a : string) : (a ++ "")%string = a.
Proof.
  induction a as [|x a IH]; [done|].
  change (String x (a ++ "") = String x a)%string. by f_equal.
Qed.

Lemma occurs_in_refl r : occurs_in r r.
Proof. exists ""%string, ""%string. simpl. by rewrite str_app_nil_r. Qed.

Lemma occurs_in_app_l r s p : occurs_in r s → occurs_in r (p ++ s)%string.
Proof.
  intros (before & after & ->). exists (p ++ before)%string, after.
  by rewrite str_app_assoc.
Qed.

Lemma occurs_in_app_r r s p : occurs_in r s → occurs_in r (s ++ p)%string.
Proof.
  intros (before & after & ->). exists before, (after ++ p)%string.
  by rewrite !str_app_assoc.
Qed.

Lemma occurs_in_join sep (l : list string) x : x ∈ l → occurs_in x (join sep l).
Proof.
  unfold join. induction l as [|y l IH]; intros Hx; [by apply elem_of_nil in Hx|].
  apply elem_of_cons in Hx as [->|Hx].
  - destruct l as [|z l]; simpl; [apply occurs_in_refl|].
    apply occurs_in_app_r, occurs_in_refl.
  - destruct l as [|z l]; [by apply elem_of_nil in Hx|].
    change (occurs_in x (y ++ sep ++ String.concat sep (z :: l))%string).
    by apply occurs_in_app_l, occurs_in_app_l, IH.
Qed.

Lemma occurs_in_trans r s t : occurs_in r s → occurs_in s t → occurs_in r t.
Proof.
  intros Hrs (before & after & ->).
  by apply occurs_in_app_l, occurs_in_app_r.
Qed.

Lemma join_opens_with_mark sep x l :
  opens_with_mark x → opens_with_mark (join sep (x :: l)).
Proof.
  intros (c & rest & -> & Hc). unfold join.
  destruct l as [|y l]; simpl; by eexists _, _.
Qed.

Lemma render_opens_with_mark line : opens_with_mark (render line).
Proof. destruct line; simpl; eexists _, _; split; eauto. Qed.

Lemma leading_context_marked diffLines contextLines i :
  Forall opens_with_mark (leading_context diffLines contextLines i).
Proof.
  unfold leading_context. cbv zeta.
  match goal with |- context [seq ?start ?len] => generalize (seq start len) end.
  intros js. induction js as [|j js IH]; simpl; [done|].
  apply Forall_app. split; [|done].
  destruct (diffLines !! j) as [[c|c|c]|]; try done.
  constructor; [|done]. apply (render_opens_with_mark (Context c)).
Qed.

(** *** The loop *)

Lemma format_step_marked diffLines contextLines st i line :
  marked st → marked (format_step diffLines contextLines st i line).
Proof.
  intros [Hchunks Hcur]. unfold format_step, marked.
  destruct line as [c|c|c]; simpl.
  - destruct (currentChunk st) as [|x xs] eqn:Hx; simpl; [done|].
    destruct (contextCount st + 1 <=? contextLines * 2)%Z; simpl; [done|].
    split; [|done]. apply Forall_app. split; [done|].
    constructor; [|done]. by apply join_opens_with_mark.
  - split; [done|].
    destruct (currentChunk st) as [|x xs]; simpl; [|done].
    pose proof (leading_context_marked diffLines contextLines i) as Hlead.
    destruct (contextCount st =? 0)%Z; simpl.
    + destruct (leading_context diffLines contextLines i) as [|y ys]; simpl;
        [apply (render_opens_with_mark (Added c))|by inversion Hlead].
    + apply (render_opens_with_mark (Added c)).
  - split; [done|].
    destruct (currentChunk st) as [|x xs]; simpl; [|done].
    pose proof (leading_context_marked diffLines contextLines i) as Hlead.
    destruct (contextCount st =? 0)%Z; simpl.
    + destruct (leading_context diffLines contextLines i) as [|y ys]; simpl;
        [apply (render_opens_with_mark (Removed c))|by inversion Hlead].
    + apply (render_opens_with_mark (Removed c)).
Qed.

Lemma snoc_not_nil {A} (l : list A) x : l ++ [x] ≠ [].
Proof. by destruct l. Qed.

Lemma format_step_printed diffLines contextLines st i line :
  printed st ∨ is_change line = true →
  printed (format_step diffLines contextLines st i line).
Proof.
  unfold printed, format_step. intros H.
  destruct line as [c|c|c]; simpl.
  - destruct H as [H|?]; [|done].
    destruct (currentChunk st) as [|x xs] eqn:Hx; simpl.
    + destruct H; [by left|done].
    + destruct (contextCount st + 1 <=? contextLines * 2)%Z; simpl.
      * by right.
      * left. apply snoc_not_nil.
  - right. apply snoc_not_nil.
  - right. apply snoc_not_nil.
Qed.

Lemma format_step_idle diffLines contextLines st i c :
  currentChunk st = [] →
  format_step diffLines contextLines st i (Context c) = mkFormat (chunks st) [] 0.
Proof. unfold format_step. by intros ->. Qed.

Lemma format_loop_marked diffLines contextLines i rest st :
  marked st → marked (format_loop diffLines contextLines i rest st).
Proof.
  revert i st. induction rest as [|line rest IH]; intros i st H; simpl; [done|].
  by apply IH, format_step_marked.
Qed.

Lemma format_loop_printed diffLines contextLines i rest st :
  printed st ∨ Exists (fun line => is_change line = true) rest →
  printed (format_loop diffLines contextLines i rest st).
Proof.
  revert i st. induction rest as [|line rest IH]; intros i st H; simpl.
  - destruct H as [?|H]; [done|by inversion H].
  - apply IH. destruct H as [H|H].
    + left. apply format_step_printed. by left.
    + inversion H; subst; [left; apply format_step_printed; by right|by right].
Qed.

Lemma format_loop_idle diffLines contextLines i rest st :
  Forall (fun line => is_change line = false) rest →
  chunks st = [] → currentChunk st = [] →
  final_chunks (format_loop diffLines contextLines i rest st) = [].
Proof.
  revert i st. induction rest as [|line rest IH]; intros i st Hall Hc Hcur; simpl.
  - unfold final_chunks. by rewrite Hcur, Hc.
  - inversion Hall as [|? ? Hline Hrest]; subst.
    destruct line as [c|c|c]; [|done..].
    rewrite format_step_idle by done. by apply IH.
Qed.

Lemma final_chunks_marked st :
  marked st → printed st →
  ∃ chunk more, final_chunks st = chunk :: more ∧ opens_with_mark chunk.
Proof.
  unfold marked, printed, final_chunks. intros [Hchunks Hcur] Hprinted.
  destruct (chunks st) as [|chunk more]; simpl.
  - destruct (currentChunk st) as [|x xs]; simpl; [by destruct Hprinted|].
    eexists _, _. split; [done|]. by apply join_opens_with_mark.
  - inversion Hchunks; subst. destruct (0 <? length (currentChunk st));
      by eexists _, _.
Qed.

Lemma formatUnifiedDiff_unchanged (diffLines : list DiffLine) (contextLines : Z) :
  formatUnifiedDiff diffLines contextLines = "(no changes)"
  ↔ Forall (fun line => is_change line = false) diffLines.
Proof.
  unfold formatUnifiedDiff. split.
  - intros Hout.
    destruct (decide (Forall (fun line => is_change line = false) diffLines))
      as [|Hsome]; [done|].
    exfalso. apply not_Forall_Exists in Hsome; [|intros line; apply _].
    assert (Exists (fun line => is_change line = true) diffLines) as Hchange.
    { eapply Exists_impl; [exact Hsome|]. intros line. simpl.
      by destruct (is_change line). }
    destruct (final_chunks_marked
                (format_loop diffLines contextLines 0 diffLines (mkFormat [] [] 0)))
      as (chunk & more & Hfinal & Hmark).
    + by apply format_loop_marked.
    + apply format_loop_printed. by right.
    + rewrite Hfinal in Hout.
      change (join (nl ++ nl) (chunk :: more) = "(no changes)") in Hout.
      destruct (join_opens_with_mark (nl ++ nl) chunk more Hmark)
        as (c & rest & Hjoin & Hc).
      rewrite Hjoin in Hout. destruct Hc as [->|[->| ->]]; discriminate.
  - intros Hall. by rewrite format_loop_idle.
Qed.

(** X5. [formatUnifiedDiff] answers [(no changes)] exactly for the diffs
    without an Added or Removed line, whatever the number of context lines
    asked for. *)
Theorem formatUnifiedDiff_no_changes (diffLines : list DiffLine) (contextLines : Z) :
  formatUnifiedDiff diffLines contextLines = "(no changes)"
  ↔ Forall (fun line => is_change line = false) diffLines.
Proof. apply formatUnifiedDiff_unchanged. Qed.

(** X6. [generateDiff] of a content against itself is [(no changes)], for
    every content (absent, empty or not) and every number of context
    lines. *)
Theorem generateDiff_of_identical_contents (content : option string) (contextLines : Z) :
  generateDiff content content contextLines = Some "(no changes)".
Proof.
  unfold generateDiff. destruct (truthy content); simpl; [|done].
  rewrite computeDiff_same. simpl. f_equal.
  apply formatUnifiedDiff_unchanged.
  by induction (split_lines (text content)); constructor.
Qed.

(** *** No change is left out *)

Lemma format_step_shown diffLines contextLines st i line r :
  shown r st → shown r (format_step diffLines contextLines st i line).
Proof.
  unfold shown, format_step. intros Hshown.
  destruct line as [c|c|c]; simpl.
  - destruct (0 <? length (currentChunk st)); simpl; [|done].
    destruct (contextCount st + 1 <=? contextLines * 2)%Z; simpl.
    + destruct Hshown as [H|H]; [left|by right]. apply elem_of_app. by left.
    + right. destruct Hshown as [H|(chunk & Hin & Hocc)].
      * exists (join nl (currentChunk st)). split; [|by apply occurs_in_join].
        apply elem_of_app. right. by apply list_elem_of_singleton.
      * exists chunk. split; [|done]. apply elem_of_app. by left.
  - destruct Hshown as [H|H]; [left|by right].
    apply elem_of_app. left.
    destruct (_ && _); [apply elem_of_app; by left|done].
  - destruct Hshown as [H|H]; [left|by right].
    apply elem_of_app. left.
    destruct (_ && _); [apply elem_of_app; by left|done].
Qed.

Lemma format_step_shows diffLines contextLines st i line :
  is_change line = true →
  shown (render line) (format_step diffLines contextLines st i line).
Proof.
  unfold shown, format_step. intros Hchange.
  destruct line as [c|c|c]; [done|left; simpl..];
    apply elem_of_app; right; by apply list_elem_of_singleton.
Qed.

Lemma format_loop_shown diffLines contextLines i rest st r :
  shown r st → shown r (format_loop diffLines contextLines i rest st).
Proof.
  revert i st. induction rest as [|line rest IH]; intros i st H; simpl; [done|].
  by apply IH, format_step_shown.
Qed.

Lemma format_loop_shows diffLines contextLines i rest st line :
  line ∈ rest → is_change line = true →
  shown (render line) (format_loop diffLines contextLines i rest st).
Proof.
  revert i st. induction rest as [|line' rest IH]; intros i st Hin Hchange; simpl.
  - by apply elem_of_nil in Hin.
  - apply elem_of_cons in Hin as [->|Hin]; [|by apply IH].
    by apply format_loop_shown, format_step_shows.
Qed.

Lemma shown_in_final st r :
  shown r st → ∃ chunk, chunk ∈ final_chunks st ∧ occurs_in r chunk.
Proof.
  unfold shown, final_chunks. intros [Hcur|(chunk & Hin & Hocc)].
  - destruct (currentChunk st) as [|x xs] eqn:Hx; [by apply elem_of_nil in Hcur|].
    simpl. exists (join nl (x :: xs)). split; [|by apply occurs_in_join].
    apply elem_of_app. right. by apply list_elem_of_singleton.
  - exists chunk. split; [|done].
    destruct (0 <? length (currentChunk st)); [|done]. apply elem_of_app. by left.
Qed.

(** X7. [formatUnifiedDiff] never leaves a change out: every Added line
    occurs in the output as [+text] and every Removed line as [-text],
    however few context lines are asked for. *)
Theorem formatUnifiedDiff_shows_every_change (diffLines : list DiffLine) (contextLines : Z) :
  Forall (fun line => is_change line = true →
                      occurs_in (render line) (formatUnifiedDiff diffLines contextLines))
         diffLines.
Proof.
  apply Forall_forall. intros line Hin Hchange.
  destruct (shown_in_final
              (format_loop diffLines contextLines 0 diffLines (mkFormat [] [] 0))
              (render line)) as (chunk & Hchunk & Hocc).
  { by apply format_loop_shows. }
  unfold formatUnifiedDiff.
  destruct (final_chunks _) as [|first more] eqn:Hfinal;
    [by apply elem_of_nil in Hchunk|].
  change (occurs_in (render line) (join (nl ++ nl) (first :: more))).
  eapply occurs_in_trans; [exact Hocc|]. by apply occurs_in_join.
Qed.

End DiffFormat.

(* ===================================================================== *)
(** ** Interactive handler: what it never does, and how answers are read *)
(* ===================================================================== *)

Module InteractiveProperties.
Import JsString ToolValidation Interactive.

(** An outcome the prompt can produce. *)
Definition is_verdict (c : FileWriteConfirmation) : Prop :=
  c = approved ∨ c = rejected.

(** At most one of the two sticky flags is set. *)
Definition flags_exclusive (h : Handler) : Prop :=
  alwaysApprove h = false ∨ alwaysDeny h = false.

(** A flag that is set stays set. *)
Definition flags_kept (h h' : Handler) : Prop :=
  (alwaysApprove h = true → alwaysApprove h' = true) ∧
  (alwaysDeny h = true → alwaysDeny h' = true).

Lemma file_turn_return h a ide c h' ide' :
  file_turn h a ide = Return c h' ide' →
  is_verdict c ∧
  (keeps_flags h h' ∨
   (alwaysApprove h' = true ∧ alwaysDeny h' = alwaysDeny h) ∨
   (alwaysDeny h' = true ∧ alwaysApprove h' = alwaysApprove h)).
Proof.
  unfold file_turn, tryIDEApproval, is_verdict, keeps_flags. intros H.
  destruct (showMenu a) as [[]|]; simpl in H;
    try (destruct ide as [|[[]|] ?]; simpl in H);
    repeat match type of H with
    | context [match ?x with _ => _ end] => destruct x; simpl in H
    end;
    simplify_eq/=; (split; [first [by left | by right]|]);
    first [by left | by right; left | by right; right].
Qed.

Lemma command_turn_return h a ide c h' ide' :
  command_turn h a ide = Return c h' ide' →
  is_verdict c ∧
  (keeps_flags h h' ∨
   (alwaysApprove h' = true ∧ alwaysDeny h' = alwaysDeny h) ∨
   (alwaysDeny h' = true ∧ alwaysApprove h' = alwaysApprove h)).
Proof.
  unfold command_turn, is_verdict, keeps_flags. intros H.
  destruct (showTextMenu a) as [[]|]; simplify_eq/=;
    (split; [first [by left | by right]|]);
    first [by left | by right; left | by right; right].
Qed.

(** A call that is answered from the flags or without a TTY. *)
Lemma answered_at_once c (h : Handler) (t : Terminal) c' h' t' :
  is_verdict c → Some (c, h, t) = Some (c', h', t') →
  is_verdict c' ∧ flags_kept h h' ∧ (flags_exclusive h → flags_exclusive h').
Proof. intros Hv ?. simplify_eq. by repeat split. Qed.

(** A call that went to the prompt: no flag was set before it. *)
Lemma answered_by_turn h h0 c h' :
  alwaysDeny h = false → alwaysApprove h = false → keeps_flags h h0 →
  is_verdict c ∧
  (keeps_flags h0 h' ∨
   (alwaysApprove h' = true ∧ alwaysDeny h' = alwaysDeny h0) ∨
   (alwaysDeny h' = true ∧ alwaysApprove h' = alwaysApprove h0)) →
  is_verdict c ∧ flags_kept h h' ∧ (flags_exclusive h → flags_exclusive h').
Proof.
  unfold keeps_flags, flags_kept, flags_exclusive.
  intros Hd Ha [Hk1 Hk2] (Hv & Hflags). split; [done|].
  rewrite Hd, Ha. split; [by split|]. intros _.
  destruct Hflags as [[H1 H2]|[[H1 H2]|[H1 H2]]]; rewrite H1, H2, ?Hk1, ?Hk2; auto.
Qed.

Lemma request_step r h t c h' t' :
  request r h t = Some (c, h', t') →
  is_verdict c ∧ flags_kept h h' ∧ (flags_exclusive h → flags_exclusive h').
Proof.
  intros Hr.
  destruct r as [options|command]; simpl in Hr;
    unfold requestFileWriteConfirmation, requestShellCommandConfirmation in Hr;
    (destruct (alwaysDeny h) eqn:Hd;
      [by eapply (answered_at_once rejected); [by right|]|]);
    (destruct (alwaysApprove h) eqn:Ha;
      [by eapply (answered_at_once approved); [by left|]|]);
    (destruct (isTTY t); simpl in Hr;
      [|by eapply (answered_at_once approved); [by left|]]).
  - apply prompt_loop_returns in Hr as (pre & a & h0 & ide0 & _ & Hk & Ht);
      [|exact file_turn_again].
    eapply answered_by_turn; [done..|]. by eapply file_turn_return.
  - apply prompt_loop_returns in Hr as (pre & a & h0 & ide0 & _ & Hk & Ht);
      [|exact command_turn_again].
    eapply answered_by_turn; [done..|]. by eapply command_turn_return.
Qed.

Lemma session_invariants rs h t cs h' t' :
  session rs h t = Some (cs, h', t') →
  Forall is_verdict cs ∧ flags_kept h h' ∧ (flags_exclusive h → flags_exclusive h').
Proof.
  revert h t cs. induction rs as [|r rs IH]; intros h t cs Hs; simpl in Hs.
  - simplify_eq. unfold flags_kept. auto.
  - destruct (request r h t) as [[[c h1] t1]|] eqn:Hr; [|done]. simpl in Hs.
    destruct (session rs h1 t1) as [[[cs1 h2] t2]|] eqn:Hs1; [|done].
    simplify_eq/=.
    apply request_step in Hr as (Hv & [Hk1 Hk2] & Hex).
    apply IH in Hs1 as (Hvs & [Hk3 Hk4] & Hex').
    unfold flags_kept. split; [by constructor|]. split; [split|]; auto.
Qed.

(** X8. Whatever the user answers in a series of confirmation calls on a
    new interactive handler, every call that returns is approved or
    rejected (never an error outcome), and the handler never has both
    [alwaysApprove] and [alwaysDeny] set; on any handler, a sticky flag that
    is set is still set after the series. *)
Theorem interactive_handler_invariants rs h t cs h' t' :
  session rs h t = Some (cs, h', t') →
  Forall is_verdict cs ∧ flags_kept h h' ∧
  (h = fresh → flags_exclusive h').
Proof.
  intros Hs. apply session_invariants in Hs as (H1 & H2 & H3).
  repeat split; [done|apply H2..|]. intros ->. apply H3. by left.
Qed.

(** A session with a view, an invalid answer, an IDE escalation nobody can
    serve, and an Always. *)
Lemma interactive_handler_invariants_witness :
  let options := mkOptions (js "a.txt") true (Some "old") (Some "new") in
  session [FileWrite options; ShellCommand (js "ls"); FileWrite options] fresh
      (mkTerminal true [js "v"; js "??"; js "i"; js "n"; js "always"] [None])
    = Some ([rejected; approved; approved], mkHandler true false 0,
            mkTerminal true [] []) ∧
  Forall is_verdict [rejected; approved; approved] ∧
  flags_exclusive (mkHandler true false 0).
Proof.
  split; [vm_compute; reflexivity|].
  pose proof (interactive_handler_invariants
    [FileWrite (mkOptions (js "a.txt") true (Some "old") (Some "new"));
     ShellCommand (js "ls");
     FileWrite (mkOptions (js "a.txt") true (Some "old") (Some "new"))]
    fresh (mkTerminal true [js "v"; js "??"; js "i"; js "n"; js "always"] [None])
    [rejected; approved; approved] (mkHandler true false 0)
    (mkTerminal true [] []) eq_refl) as (H1 & _ & H3).
  split; [exact H1|exact (H3 eq_refl)].
Defined.

(** *** How the text menu reads an answer *)

Lemma not_white_space c : (33 <= c <= 159)%N → is_white_space c = false.
Proof.
  intros Hc. unfold is_white_space.
  repeat match goal with
  | |- context [(c =? ?k)%N] =>
      replace (c =? k)%N with false by (symmetry; apply N.eqb_neq; lia)
  end.
  replace (c <=? 13)%N with false by (symmetry; apply N.leb_gt; lia).
  replace (8192 <=? c)%N with false by (symmetry; apply N.leb_gt; lia).
  by rewrite andb_false_r.
Qed.

(** Lowering a letter never makes or unmakes white space. *)
Lemma lower_white_space c : is_white_space (lower c) = is_white_space c.
Proof.
  unfold lower.
  destruct (N.leb_spec 65 c); [|done]. destruct (N.leb_spec c 90); [|done].
  simpl. rewrite !not_white_space; [done|lia..].
Qed.

Lemma toLowerCase_trim_start s :
  toLowerCase (trim_start s) = trim_start (toLowerCase s).
Proof.
  unfold toLowerCase. induction s as [|c s IH]; simpl; [done|].
  rewrite lower_white_space. by destruct (is_white_space c).
Qed.

Lemma toLowerCase_trim s : toLowerCase (trim s) = trim (toLowerCase s).
Proof.
  assert (Hrev : ∀ t, toLowerCase (rev t) = rev (toLowerCase t))
    by (intros t; apply map_rev).
  unfold trim.
  by rewrite Hrev, toLowerCase_trim_start, Hrev, toLowerCase_trim_start.
Qed.

Lemma trim_start_app_blank pre s :
  blank pre → trim_start (pre ++ s) = trim_start s.
Proof. induction 1 as [|c pre Hc _ IH]; simpl; [done|]. by rewrite Hc. Qed.

Lemma trim_start_app s post :
  trim_start s ≠ [] → trim_start (s ++ post) = trim_start s ++ post.
Proof.
  induction s as [|c s IH]; simpl; [done|].
  by destruct (is_white_space c).
Qed.

Lemma trim_padding pre s post :
  blank pre → blank post → trim (pre ++ s ++ post) = trim s.
Proof.
  intros Hpre Hpost. unfold trim. rewrite trim_start_app_blank by done.
  destruct (decide (trim_start s = [])) as [Hs|Hs].
  - rewrite Hs. apply trim_start_nil in Hs.
    rewrite trim_start_app_blank by done.
    by rewrite (proj2 (trim_start_nil post)).
  - rewrite trim_start_app by done. rewrite rev_app_distr.
    rewrite trim_start_app_blank; [done|]. by apply blank_rev.
Qed.

(** X9. The text menu reads an answer up to the case of its letters and up
    to white space around it: an answer with white space before and after
    it, in any mix of upper and lower case, is read as the same choice (or
    as the same invalid input). *)
Theorem showTextMenu_ignores_case_and_padding pre s post s' :
  blank pre → blank post → toLowerCase s = toLowerCase s' →
  showTextMenu (pre ++ s ++ post) = showTextMenu s'.
Proof.
  intros Hpre Hpost Hs. unfold showTextMenu.
  by rewrite trim_padding, !toLowerCase_trim, Hs.
Qed.

Lemma showTextMenu_ignores_case_and_padding_witness :
  showTextMenu (js "  " ++ js "AlWays" ++ [9; 13; 10]%N) = showTextMenu (js "always") ∧
  showTextMenu (js "always") = Some ALWAYS.
Proof.
  split; [|reflexivity].
  apply (showTextMenu_ignores_case_and_padding (js "  ") (js "AlWays") [9; 13; 10]%N).
  - by repeat constructor.
  - by repeat constructor.
  - reflexivity.
Defined.

End InteractiveProperties.

(* ===================================================================== *)
(** ** The tools: file system and shell *)
(* ===================================================================== *)

Module Tools.
Import JsString ToolValidation Effects.

(** [type Result<T, Error>]; of the error the tools read the message. *)
Inductive Result (A : Type) : Type :=
| ok (value : A)
| err (message : jsstring).
Arguments ok {A} value.
Arguments err {A} message.

(** [interface FileSystemProvider], over the state of the file system. *)
Record FileSystemProvider (World : Type) : Type := mkProvider {
  canWrite : bool;
  listDirectory : jsstring → World → Result (list jsstring) * World;
  readFile : jsstring → World → Result string * World;
  writeFile : jsstring → string → World → Result unit * World;
  fileExists : jsstring → World → bool * World
}.
Arguments mkProvider {World}.
Arguments canWrite {World}.
Arguments listDirectory {World}.
Arguments readFile {World}.
Arguments writeFile {World}.
Arguments fileExists {World}.

(** [interface ConfirmationHandler], over the state of the handler; a call
    on which the handler never answers is [None]. *)
Record ConfirmationHandler (H : Type) : Type := mkConfirmationHandler {
  requestFileWriteConfirmation :
    Interactive.WriteOptions → H → option (Interactive.FileWriteConfirmation * H);
  requestShellCommandConfirmation :
    jsstring → H → option (Interactive.FileWriteConfirmation * H)
}.
Arguments mkConfirmationHandler {H}.
Arguments requestFileWriteConfirmation {H}.
Arguments requestShellCommandConfirmation {H}.

(** [class BraveConfirmationHandler] *)
Definition BraveConfirmationHandler : ConfirmationHandler unit :=
  mkConfirmationHandler
    (λ _ h, Some (Interactive.approved, h))
    (λ _ h, Some (Interactive.approved, h)).

(** [class SafeConfirmationHandler] *)
Definition SafeConfirmationHandler : ConfirmationHandler unit :=
  mkConfirmationHandler
    (λ _ h, Some (Interactive.approved, h))
    (λ _ h, Some (Interactive.approved, h)).

(** [class InteractiveConfirmationHandler]: its fields and the terminal it
    reads. *)
Definition InteractiveConfirmationHandler
    : ConfirmationHandler (Interactive.Handler * Interactive.Terminal) :=
  mkConfirmationHandler
    (λ options s,
       '(c, h, t) ← Interactive.requestFileWriteConfirmation options s.1 s.2;
       Some (c, (h, t)))
    (λ command s,
       '(c, h, t) ← Interactive.requestShellCommandConfirmation command s.1 s.2;
       Some (c, (h, t))).

(** How the child process of [executeCommand] ends: with an [exit] event
    (the code, what was collected from stdout and stderr, whether the
    timeout had fired), with an [error] event, or [spawn] throws. *)
Inductive ProcessEnd : Type :=
| exited (code : option Z) (collected : jsstring) (timedOut : bool)
| errored (message : string) (timedOut : bool)
| spawn_threw (e : JsError).

(** [interface ShellCommandResult] *)
Record ShellCommandResult : Type := mkShellResult {
  command : jsstring;
  exitCode : option Z;
  output : jsstring;
  timedOut : bool
}.

(** The arguments of [execute__shell_command]. *)
Record ShellArgs : Type := mkShellArgs {
  args_command : jsstring;
  timeoutSeconds : option float;
  workingDirectory : option jsstring
}.

(** Template literals and [join] on code units. *)
Definition nl : jsstring := [10%N].

Fixpoint join (separator : jsstring) (parts : list jsstring) : jsstring :=
  match parts with
  | [] => []
  | [part] => part
  | part :: rest => part ++ separator ++ join separator rest
  end.

(** [`${n}`] for a length. *)
Definition number (n : nat) : jsstring := js (pretty n).

(** [`${code}`] for [number | null]. *)
Definition exit_code (code : option Z) : jsstring :=
  match code with
  | Some n => js (pretty n)
  | None => js "null"
  end.

(** [content.split('\n').length] *)
Definition lineCount (content : string) : nat :=
  length (DiffViewer.split_lines content).

(** A tool's [execute] over a state: it returns or throws, or never
    settles ([None]) when the user never answers. *)
Definition Run (St A : Type) : Type := St → option (Outcome A * St).

Definition ret {St A} (a : A) : Run St A := λ s, Some (Returns a, s).

Definition throw {St A} (e : JsError) : Run St A := λ s, Some (Throws e, s).

Definition bind {St A B} (c : Run St A) (k : A → Run St B) : Run St B :=
  λ s, match c s with
       | Some (Returns a, s1) => k a s1
       | Some (Throws e, s1) => Some (Throws e, s1)
       | None => None
       end.

Notation "'let*' x := c 'in' k" := (bind c (λ x, k))
  (at level 10, x name, c at level 100, k at level 200).

Section Tools.

(** What the tools are constructed with and what they import: the file
    system, the confirmation handler, [path.basename], [os.platform()] and
    the child process. *)
Variable World : Type.
Variable H : Type.
Variable fileSystem : FileSystemProvider World.
Variable confirmationHandler : ConfirmationHandler H.
Variable basename : jsstring → jsstring.
Variable platform : string.
Variable child_process :
  string → list jsstring → option jsstring → float → World → ProcessEnd * World.

Record ToolState : Type := mkToolState {
  world : World;
  handler : H
}.

(** [await this.fileSystem.method(...)] *)
Definition on_fileSystem {A} (f : World → A * World) : Run ToolState A :=
  λ s, let '(a, w) := f (world s) in Some (Returns a, mkToolState w (handler s)).

(** [await this.confirmationHandler.method(...)] *)
Definition on_confirmationHandler {A} (f : H → option (A * H)) : Run ToolState A :=
  λ s, match f (handler s) with
       | Some (a, h) => Some (Returns a, mkToolState (world s) h)
       | None => None
       end.

(** [ListDirectoryTool.execute] *)
Definition ListDirectoryTool_execute (path : jsstring) : Run ToolState jsstring :=
  match validatePath path with
  | invalid errorMessage => ret (js "ERROR: " ++ js errorMessage)
  | valid =>
      let* result := on_fileSystem (listDirectory fileSystem path) in
      match result with
      | err message =>
          ret (js "ERROR: Failed to list directory '" ++ path ++ js "': " ++ message
               ++ nl ++ nl
               ++ js "Suggestion: Verify the path exists and you have permission to read it.")
      | ok entries =>
          if length entries =? 0 then
            ret (js "Contents of '" ++ path ++ js "' (0 items):" ++ nl
                 ++ js "(empty directory)")
          else
            let formattedEntries :=
              join nl (map (λ entry, js "  - " ++ basename entry) entries) in
            ret (js "Contents of '" ++ path ++ js "' (" ++ number (length entries)
                 ++ js " items):" ++ nl ++ formattedEntries)
      end
  end.

(** [ReadFileTool.execute] *)
Definition ReadFileTool_execute (path : jsstring) : Run ToolState jsstring :=
  match validatePath path with
  | invalid errorMessage => ret (js "ERROR: " ++ js errorMessage)
  | valid =>
      let* result := on_fileSystem (readFile fileSystem path) in
      match result with
      | err message =>
          ret (js "ERROR: Failed to read file '" ++ path ++ js "': " ++ message
               ++ nl ++ nl
               ++ js "Suggestion: Verify the file exists and you have permission to read it.")
      | ok content =>
          ret (js "File: " ++ path ++ nl
               ++ js "Lines: " ++ number (lineCount content)
               ++ js " | Characters: " ++ number (String.length content) ++ nl ++ nl
               ++ js "```" ++ nl ++ js content ++ nl ++ js "```")
      end
  end.

(** The lines both write tools end with. *)
Definition size_report (content : string) : jsstring :=
  js "Lines: " ++ number (lineCount content)
  ++ js " | Characters: " ++ number (String.length content).

(** [CreateFileTool.execute] *)
Definition CreateFileTool_execute (path : jsstring) (content : string)
    : Run ToolState jsstring :=
  if negb (canWrite fileSystem) then
    ret (js "ERROR: Write operations not allowed (read-only file system)")
  else
    match validatePath path with
    | invalid errorMessage => ret (js "ERROR: " ++ js errorMessage)
    | valid =>
        match validateContent (js content) with
        | invalid errorMessage => ret (js "ERROR: " ++ js errorMessage)
        | valid =>
            let* exists_ := on_fileSystem (fileExists fileSystem path) in
            let overwrite := exists_ in
            let* confirmation :=
              on_confirmationHandler
                (requestFileWriteConfirmation confirmationHandler
                   (Interactive.mkOptions path overwrite None (Some content))) in
            match confirmation with
            | Interactive.error message => ret (js "ERROR: " ++ js message)
            | Interactive.rejected =>
                ret (js "REJECTED: File creation cancelled by user for '" ++ path ++ js "'")
            | Interactive.approved =>
                let* result := on_fileSystem (writeFile fileSystem path content) in
                match result with
                | err message =>
                    ret (js "ERROR: Failed to create file '" ++ path ++ js "': " ++ message)
                | ok _ =>
                    ret (js "SUCCESS: Created file '" ++ path ++ js "'" ++ nl
                         ++ size_report content)
                end
            end
        end
    end.

(** [EditFileTool.execute] *)
Definition EditFileTool_execute (path : jsstring) (content : string)
    : Run ToolState jsstring :=
  if negb (canWrite fileSystem) then
    ret (js "ERROR: Write operations not allowed (read-only file system)")
  else
    match validatePath path with
    | invalid errorMessage => ret (js "ERROR: " ++ js errorMessage)
    | valid =>
        match validateContent (js content) with
        | invalid errorMessage => ret (js "ERROR: " ++ js errorMessage)
        | valid =>
            let* oldContentResult := on_fileSystem (readFile fileSystem path) in
            match oldContentResult with
            | err _ =>
                ret (js "ERROR: File '" ++ path
                     ++ js "' not found. Use create__file for new files." ++ nl
                     ++ js "Suggestion: First use read__file to verify the file exists.")
            | ok oldContent =>
                let* confirmation :=
                  on_confirmationHandler
                    (requestFileWriteConfirmation confirmationHandler
                       (Interactive.mkOptions path true (Some oldContent) (Some content))) in
                match confirmation with
                | Interactive.error message => ret (js "ERROR: " ++ js message)
                | Interactive.rejected =>
                    ret (js "REJECTED: File edit cancelled by user for '" ++ path ++ js "'")
                | Interactive.approved =>
                    let* result := on_fileSystem (writeFile fileSystem path content) in
                    match result with
                    | err message =>
                        ret (js "ERROR: Failed to edit file '" ++ path ++ js "': " ++ message)
                    | ok _ =>
                        ret (js "SUCCESS: Edited file '" ++ path ++ js "'" ++ nl
                             ++ size_report content)
                    end
                end
            end
        end
    end.

(** [executeCommand]: the shell of the platform runs the command; the
    promise resolves on the first of the events [exit] and [error]. *)
Definition executeCommand (command : jsstring) (timeoutSeconds : float)
    (workingDirectory : option jsstring) : Run ToolState ShellCommandResult :=
  let isWindows := String.eqb platform "win32" in
  let shell := if isWindows then "cmd.exe" else "/bin/sh" in
  let shellArgs := if isWindows then [js "/c"; command] else [js "-c"; command] in
  let* ending :=
    on_fileSystem (child_process shell shellArgs workingDirectory timeoutSeconds) in
  match ending with
  | exited code collected timedOut =>
      ret (mkShellResult command code (trim collected) timedOut)
  | errored message timedOut =>
      ret (mkShellResult command None (js "ERROR: " ++ js message) timedOut)
  | spawn_threw e => throw e
  end.

(** [formatResult] *)
Definition formatResult (result : ShellCommandResult) : jsstring :=
  let formatted := js "Command: " ++ command result ++ nl in
  if timedOut result then
    formatted ++ js "Status: TIMED OUT" ++ nl
    ++ (nl ++ js "Partial output:" ++ nl ++ output result ++ nl)
    ++ (nl ++ js "Suggestion: The command exceeded the timeout. Consider increasing timeoutSeconds or optimizing the operation.")
  else if bool_decide (exitCode result = Some 0%Z) then
    formatted ++ js "Status: SUCCESS (exit code: 0)" ++ nl
    ++ (if is_empty (output result) then []
        else nl ++ js "Output:" ++ nl ++ output result)
  else
    formatted ++ js "Status: FAILED (exit code: " ++ exit_code (exitCode result)
    ++ js ")" ++ nl
    ++ (nl ++ js "Output:" ++ nl ++ output result ++ nl)
    ++ (nl ++ js "Suggestion: The command failed. Review the output above for error details and adjust your approach.").

(** [ExecuteShellCommandTool.execute] *)
Definition ExecuteShellCommandTool_execute (args : ShellArgs) : Run ToolState jsstring :=
  let timeout := default 30%float (timeoutSeconds args) in
  match validateCommand (args_command args) with
  | invalid errorMessage => ret (js "ERROR: " ++ js errorMessage)
  | valid =>
      match validateTimeout timeout with
      | invalid errorMessage => ret (js "ERROR: " ++ js errorMessage)
      | valid =>
          let* confirmation :=
            on_confirmationHandler
              (requestShellCommandConfirmation confirmationHandler (args_command args)) in
          match confirmation with
          | Interactive.error message => ret (js "ERROR: " ++ js message)
          | Interactive.rejected =>
              ret (js "REJECTED: Shell command execution cancelled by user: "
                   ++ args_command args)
          | Interactive.approved =>
              let* result :=
                executeCommand (args_command args) timeout (workingDirectory args) in
              ret (formatResult result)
          end
      end
  end.

(** A call of one of the five tools. *)
Inductive Invocation : Type :=
| list__directory (path : jsstring)
| read__file (path : jsstring)
| create__file (path : jsstring) (content : string)
| edit__file (path : jsstring) (content : string)
| execute__shell_command (args : ShellArgs).

Definition invoke (call : Invocation) : Run ToolState jsstring :=
  match call with
  | list__directory path => ListDirectoryTool_execute path
  | read__file path => ReadFileTool_execute path
  | create__file path content => CreateFileTool_execute path content
  | edit__file path content => EditFileTool_execute path content
  | execute__shell_command args => ExecuteShellCommandTool_execute args
  end.

(** The calls of an agent turn, one after the other. *)
Fixpoint invoke_all (calls : list Invocation) : Run ToolState (list jsstring) :=
  match calls with
  | [] => ret []
  | call :: rest =>
      let* result := invoke call in
      let* results := invoke_all rest in
      ret (result :: results)
  end.

End Tools.

Arguments mkToolState {World H}.
Arguments world {World H}.
Arguments handler {World H}.

(** *** What the tools do to the outside *)

(** The two calls by which a tool changes the outside: [writeFile] on the
    file system and the spawn of a shell. *)
Inductive Effect : Type :=
| Wrote (path : jsstring) (content : string)
| Spawned (shell : string) (shellArgs : list jsstring)
    (cwd : option jsstring) (timeoutSeconds : float).

Section Journal.

Variable World : Type.
Variable H : Type.
Variable fileSystem : FileSystemProvider World.
Variable confirmationHandler : ConfirmationHandler H.
Variable basename : jsstring → jsstring.
Variable platform : string.
Variable child_process :
  string → list jsstring → option jsstring → float → World → ProcessEnd * World.

(** The outside together with a journal of the effects so far. *)
Definition Journaled : Type := World * list Effect.

Definition passing {A} (f : World → A * World) : Journaled → A * Journaled :=
  λ s, let '(a, w) := f s.1 in (a, (w, s.2)).

Definition recording {A} (e : Effect) (f : World → A * World)
    : Journaled → A * Journaled :=
  λ s, let '(a, w) := f s.1 in (a, (w, s.2 ++ [e])).

(** The same file system and child process, observed: each [writeFile] and
    each spawn is entered in the journal, nothing else changes. *)
Definition journaling : FileSystemProvider Journaled :=
  mkProvider (canWrite fileSystem)
    (λ path, passing (listDirectory fileSystem path))
    (λ path, passing (readFile fileSystem path))
    (λ path content, recording (Wrote path content) (writeFile fileSystem path content))
    (λ path, passing (fileExists fileSystem path)).

Definition journaling_process (shell : string) (shellArgs : list jsstring)
    (cwd : option jsstring) (timeoutSeconds : float) : Journaled → ProcessEnd * Journaled :=
  recording (Spawned shell shellArgs cwd timeoutSeconds)
    (child_process shell shellArgs cwd timeoutSeconds).

(** A tool call on the observed outside. *)
Definition observed (call : Invocation) : Run (ToolState Journaled H) jsstring :=
  invoke Journaled H journaling confirmationHandler basename platform
    journaling_process call.

Definition observed_all (calls : list Invocation)
    : Run (ToolState Journaled H) (list jsstring) :=
  invoke_all Journaled H journaling confirmationHandler basename platform
    journaling_process calls.

Definition journal (s : ToolState Journaled H) : list Effect := (world s).2.

(** Forget the journal. *)
Definition plain (s : ToolState Journaled H) : ToolState World H :=
  mkToolState (world s).1 (handler s).

Definition plainly {A} (r : option (Outcome A * ToolState Journaled H))
    : option (Outcome A * ToolState World H) :=
  match r with
  | Some (a, s) => Some (a, plain s)
  | None => None
  end.

(** The file system asked for a write approved it. *)
Definition write_approved (path : jsstring) (content : string)
    (s s' : ToolState Journaled H) : Prop :=
  ∃ options,
    Interactive.path options = path ∧
    Interactive.newContent options = Some content ∧
    requestFileWriteConfirmation confirmationHandler options (handler s)
      = Some (Interactive.approved, handler s').

Definition command_approved (command : jsstring)
    (s s' : ToolState Journaled H) : Prop :=
  requestShellCommandConfirmation confirmationHandler command (handler s)
    = Some (Interactive.approved, handler s').

(** What a call may have entered in the journal, and under which
    conditions. *)
Definition guarded (call : Invocation) (s s' : ToolState Journaled H)
    (entries : list Effect) : Prop :=
  entries = [] ∨
  match call with
  | create__file path content | edit__file path content =>
      entries = [Wrote path content] ∧
      canWrite fileSystem = true ∧
      validatePath path = valid ∧
      validateContent (js content) = valid ∧
      write_approved path content s s'
  | execute__shell_command args =>
      let timeout := default 30%float (timeoutSeconds args) in
      (∃ shell option,
         entries = [Spawned shell [option; args_command args]
                      (workingDirectory args) timeout]) ∧
      validateCommand (args_command args) = valid ∧
      validateTimeout timeout = valid ∧
      command_approved (args_command args) s s'
  | _ => False
  end.

Ltac tool_cbn :=
  cbn beta iota zeta delta
    [world handler fst snd canWrite listDirectory readFile writeFile fileExists
     journaling negb requestFileWriteConfirmation requestShellCommandConfirmation
     args_command timeoutSeconds workingDirectory] in *.

Ltac tool_reduce :=
  tool_cbn; unfold journaling_process, passing, recording in *; tool_cbn.

Ltac tool_destruct T :=
  match T with
  | context [validatePath ?p] => destruct (validatePath p) eqn:?
  | context [validateContent ?p] => destruct (validateContent p) eqn:?
  | context [validateCommand ?p] => destruct (validateCommand p) eqn:?
  | context [validateTimeout ?p] => destruct (validateTimeout p) eqn:?
  | context [canWrite fileSystem] => destruct (canWrite fileSystem) eqn:?
  | context [listDirectory fileSystem ?p ?w] =>
      destruct (listDirectory fileSystem p w) as [[?|?] ?] eqn:?
  | context [readFile fileSystem ?p ?w] =>
      destruct (readFile fileSystem p w) as [[?|?] ?] eqn:?
  | context [fileExists fileSystem ?p ?w] =>
      destruct (fileExists fileSystem p w) as [? ?] eqn:?
  | context [writeFile fileSystem ?p ?c ?w] =>
      destruct (writeFile fileSystem p c w) as [[[]|?] ?] eqn:?
  | context [child_process ?a ?b ?c ?d ?w] =>
      destruct (child_process a b c d w) as [[?|?|?] ?] eqn:?
  | context [requestFileWriteConfirmation confirmationHandler ?o ?h] =>
      destruct (requestFileWriteConfirmation confirmationHandler o h)
        as [[[| |?] ?]|] eqn:?
  | context [requestShellCommandConfirmation confirmationHandler ?o ?h] =>
      destruct (requestShellCommandConfirmation confirmationHandler o h)
        as [[[| |?] ?]|] eqn:?
  | context [if length ?l =? 0 then _ else _] => destruct (length l =? 0)
  | context [if String.eqb ?a ?b then _ else _] => destruct (String.eqb a b)
  end.

Ltac run_step H := let T := type of H in tool_destruct T; tool_reduce.

Ltac goal_step := match goal with |- ?G => tool_destruct G end; tool_reduce.

Ltac run_tool H :=
  unfold observed, invoke, ListDirectoryTool_execute, ReadFileTool_execute,
    CreateFileTool_execute, EditFileTool_execute, ExecuteShellCommandTool_execute,
    executeCommand, bind, ret, throw, on_fileSystem, on_confirmationHandler in H;
  tool_reduce; repeat run_step H;
  try discriminate H; try (injection H as ? ?; subst).

(** Every entry a call makes in the journal is guarded. *)
Lemma observed_guarded call s outcome s' :
  observed call s = Some (outcome, s') →
  ∃ entries, journal s' = journal s ++ entries ∧ guarded call s s' entries.
Proof.
  destruct s as [[w j] h]. intros Hrun. unfold journal, guarded, write_approved,
    command_approved.
  destruct call as [path|path|path content|path content|[cmd seconds cwd]];
    run_tool Hrun; tool_reduce;
    try (by exists []; rewrite app_nil_r; split; [|left]);
    (eexists; split; [reflexivity|right]); repeat split;
    try (do 2 eexists; reflexivity);
    (eexists; split; [|split]; [| |eassumption]; reflexivity).
Qed.

(** A tool reports [SUCCESS:] only after a write that the file system
    answered with [ok]. *)
Lemma observed_success call s result s' :
  observed call s = Some (Returns result, s') →
  starts_with (js "SUCCESS: ") result = true →
  ∃ path content w,
    journal s' = journal s ++ [Wrote path content] ∧
    writeFile fileSystem path content w = (ok (), (world s').1).
Proof.
  destruct s as [[w j] h]. intros Hrun Hs. unfold journal.
  destruct call as [path|path|path content|path content|[cmd seconds cwd]];
    run_tool Hrun; tool_reduce;
    try (eexists _, _, _; split; [reflexivity|eassumption]);
    try discriminate Hs.
  all: unfold formatResult in Hs; cbn [timedOut exitCode output command] in Hs;
    repeat match type of Hs with
    | context [if ?b then _ else _] => destruct b
    end; discriminate Hs.
Qed.

(** Observing changes nothing: without the journal, an observed call is the
    call itself. *)
Lemma observed_plainly call s :
  plainly (observed call s)
  = invoke World H fileSystem confirmationHandler basename platform child_process
      call (plain s).
Proof.
  destruct s as [[w j] h].
  unfold observed, invoke, ListDirectoryTool_execute, ReadFileTool_execute,
    CreateFileTool_execute, EditFileTool_execute, ExecuteShellCommandTool_execute,
    executeCommand, bind, ret, throw, on_fileSystem, on_confirmationHandler,
    plainly, plain.
  destruct call as [path|path|path content|path content|[cmd seconds cwd]];
    tool_reduce; repeat goal_step; reflexivity.
Qed.

(** What a call that asks for confirmation answers when it did nothing. *)
Definition declined (call : Invocation) (result : jsstring) : Prop :=
  match call with
  | list__directory _ | read__file _ => True
  | _ =>
      starts_with (js "REJECTED: ") result = true ∨
      starts_with (js "ERROR: ") result = true
  end.

(** With a handler that rejects whatever it is asked, a call returns, and
    nothing is entered in the journal. *)
Lemma observed_rejected call s :
  (∀ options,
     requestFileWriteConfirmation confirmationHandler options (handler s)
     = Some (Interactive.rejected, handler s)) →
  (∀ command,
     requestShellCommandConfirmation confirmationHandler command (handler s)
     = Some (Interactive.rejected, handler s)) →
  ∃ result w,
    observed call s = Some (Returns result, mkToolState (w, journal s) (handler s)) ∧
    declined call result.
Proof.
  destruct s as [[w j] h]. unfold journal. tool_reduce. intros Hfile Hcommand.
  unfold observed, invoke, ListDirectoryTool_execute, ReadFileTool_execute,
    CreateFileTool_execute, EditFileTool_execute, ExecuteShellCommandTool_execute,
    bind, ret, on_fileSystem, on_confirmationHandler, declined.
  destruct call as [path|path|path content|path content|[cmd seconds cwd]];
    tool_reduce;
    repeat first [rewrite Hfile | rewrite Hcommand | goal_step];
    eexists _, _; (split; [reflexivity|]);
    first [done | by left | by right].
Qed.

(** With a handler that approves whatever it is asked, a valid
    [create__file] on a writable file system writes. *)
Lemma observed_create_approved path content s :
  canWrite fileSystem = true →
  validatePath path = valid →
  validateContent (js content) = valid →
  (∀ options,
     requestFileWriteConfirmation confirmationHandler options (handler s)
     = Some (Interactive.approved, handler s)) →
  ∃ result w,
    observed (create__file path content) s
    = Some (Returns result,
            mkToolState (w, journal s ++ [Wrote path content]) (handler s)).
Proof.
  destruct s as [[w j] h]. unfold journal. tool_reduce.
  intros Hwrite Hpath Hcontent Hfile.
  unfold observed, invoke, CreateFileTool_execute,
    bind, ret, on_fileSystem, on_confirmationHandler.
  tool_reduce. rewrite Hwrite, Hpath, Hcontent. tool_reduce.
  destruct (fileExists fileSystem path w) as [exists_ w1]. tool_reduce.
  rewrite Hfile. tool_reduce.
  destruct (writeFile fileSystem path content w1) as [[[]|message] w2];
    by eexists _, _.
Qed.

(** X10. No tool changes the outside unasked.  In one call a tool makes at
    most one of the two calls that change the outside ([writeFile] on the
    file system, the spawn of a shell).  [writeFile] is called only by
    [create__file] and [edit__file], with the path and content of the call,
    and only when the file system is writable, [validatePath] and
    [validateContent] accepted them and the confirmation handler answered
    approved for that path and content.  A shell is spawned only by
    [execute__shell_command], for the command of the call with the timeout
    of the call (30 by default), and only when [validateCommand] and
    [validateTimeout] accepted them and the confirmation handler approved
    the command.  A result that begins with [SUCCESS:] is given only after a
    [writeFile] that answered [ok].  (The journal only observes: without it
    the call is the call on the file system itself.) *)
Theorem tool_effects_are_guarded (call : Invocation) (s : ToolState Journaled H) :
  plainly (observed call s)
  = invoke World H fileSystem confirmationHandler basename platform child_process
      call (plain s) ∧
  (∀ outcome s',
     observed call s = Some (outcome, s') →
     ∃ entries, journal s' = journal s ++ entries ∧ guarded call s s' entries) ∧
  (∀ result s',
     observed call s = Some (Returns result, s') →
     starts_with (js "SUCCESS: ") result = true →
     ∃ path content w,
       journal s' = journal s ++ [Wrote path content] ∧
       writeFile fileSystem path content w = (ok (), (world s').1)).
Proof.
  split; [apply observed_plainly|]. split.
  - intros outcome s'. apply observed_guarded.
  - intros result s'. apply observed_success.
Qed.

End Journal.

(** *** Arguments that are refused *)

Section Refused.

Variable World : Type.
Variable H : Type.
Variable fileSystem : FileSystemProvider World.
Variable confirmationHandler : ConfirmationHandler H.
Variable basename : jsstring → jsstring.
Variable platform : string.
Variable child_process :
  string → list jsstring → option jsstring → float → World → ProcessEnd * World.

Definition refused_path (path : jsstring) : Prop :=
  blank path ∨ contains_dotdot path.

Definition refused_content (content : string) : Prop :=
  content = "" ∨ (1000000 < N.of_nat (String.length content))%N.

Definition refused_timeout (timeoutSeconds : float) : Prop :=
  PrimFloat.leb timeoutSeconds 0%float = true ∨
  PrimFloat.ltb 600%float timeoutSeconds = true.

(** The calls whose arguments the validators refuse, and the write calls on
    a read-only file system. *)
Definition refused (call : Invocation) : Prop :=
  match call with
  | list__directory path | read__file path => refused_path path
  | create__file path content | edit__file path content =>
      canWrite fileSystem = false ∨ refused_path path ∨ refused_content content
  | execute__shell_command args =>
      blank (args_command args) ∨
      refused_timeout (default 30%float (timeoutSeconds args))
  end.

Lemma length_js s : length (js s) = String.length s.
Proof. induction s as [|c s IH]; simpl; [done|by rewrite IH]. Qed.

Lemma refused_path_invalid path :
  refused_path path → ∃ errorMessage, validatePath path = invalid errorMessage.
Proof.
  intros Hp. apply validatePath_rejects in Hp.
  destruct (validatePath path); [done|by eexists].
Qed.

Lemma refused_content_invalid content :
  refused_content content →
  ∃ errorMessage, validateContent (js content) = invalid errorMessage.
Proof.
  intros Hc.
  assert (isValid (validateContent (js content)) = false) as Hv.
  { apply validateContent_rejects. rewrite length_js.
    destruct Hc as [->|Hc]; [by left|by right]. }
  destruct (validateContent (js content)); [done|by eexists].
Qed.

Lemma refused_command_invalid command :
  blank command → ∃ errorMessage, validateCommand command = invalid errorMessage.
Proof.
  intros Hc. apply validateCommand_rejects in Hc.
  destruct (validateCommand command); [done|by eexists].
Qed.

Lemma refused_timeout_invalid timeoutSeconds :
  refused_timeout timeoutSeconds →
  ∃ errorMessage, validateTimeout timeoutSeconds = invalid errorMessage.
Proof.
  intros Ht. apply validateTimeout_rejects in Ht.
  destruct (validateTimeout timeoutSeconds); [done|by eexists].
Qed.

(** X11. A call whose arguments are refused stops before anything is
    called: for a blank path or a path with two consecutive dots (all four
    file tools), for empty content or content of more than 1,000,000
    characters or a read-only file system (the two write tools), for a blank
    command or a timeout that compares [<= 0] or [> 600] (the shell tool,
    30 taken for a missing timeout), the tool returns a text that begins
    with [ERROR: ], and neither the file system, nor the confirmation
    handler, nor a child process has been called: the state of the outside
    and of the handler is the one before the call. *)
Theorem refused_calls_touch_nothing (call : Invocation) (s : ToolState World H) :
  refused call →
  ∃ result,
    invoke World H fileSystem confirmationHandler basename platform child_process call s
      = Some (Returns result, s) ∧
    starts_with (js "ERROR: ") result = true.
Proof.
  unfold invoke, ListDirectoryTool_execute, ReadFileTool_execute,
    CreateFileTool_execute, EditFileTool_execute, ExecuteShellCommandTool_execute, ret.
  destruct call as [path|path|path content|path content|args]; cbn [refused].
  - intros (m & ->)%refused_path_invalid. by eexists.
  - intros (m & ->)%refused_path_invalid. by eexists.
  - destruct (canWrite fileSystem); [|by eexists]. cbn [negb].
    intros [?|[(m & ->)%refused_path_invalid|Hc]]; [done|by eexists|].
    apply refused_content_invalid in Hc as (m & ->).
    destruct (validatePath path); by eexists.
  - destruct (canWrite fileSystem); [|by eexists]. cbn [negb].
    intros [?|[(m & ->)%refused_path_invalid|Hc]]; [done|by eexists|].
    apply refused_content_invalid in Hc as (m & ->).
    destruct (validatePath path); by eexists.
  - intros [(m & ->)%refused_command_invalid|Ht]; [by eexists|].
    apply refused_timeout_invalid in Ht as (m & ->).
    destruct (validateCommand (args_command args)); by eexists.
Qed.

End Refused.

(** *** A session after Deny *)

Section Denied.

Variable World : Type.
Variable fileSystem : FileSystemProvider World.
Variable basename : jsstring → jsstring.
Variable platform : string.
Variable child_process :
  string → list jsstring → option jsstring → float → World → ProcessEnd * World.

Definition interactive (call : Invocation) :=
  observed World _ fileSystem InteractiveConfirmationHandler basename platform
    child_process call.

Definition interactive_all (calls : list Invocation) :=
  observed_all World _ fileSystem InteractiveConfirmationHandler basename platform
    child_process calls.

Lemma denied_call call w j a n t :
  ∃ result w',
    interactive call (mkToolState (w, j) (Interactive.mkHandler a true n, t))
    = Some (Returns result,
            mkToolState (w', j) (Interactive.mkHandler a true n, t)) ∧
    declined call result.
Proof.
  by apply (observed_rejected World _ fileSystem InteractiveConfirmationHandler
              basename platform child_process call
              (mkToolState (w, j) (Interactive.mkHandler a true n, t))).
Qed.

(** X12. After Deny nothing is written and nothing is run.  With the
    interactive handler's [alwaysDeny] set, every series of tool calls
    returns; no [writeFile] and no spawn happens in it; every
    [create__file], [edit__file] and [execute__shell_command] call answers
    with a text that begins with [REJECTED: ] or [ERROR: ]; and the handler
    and the terminal are as before: the user is not asked again. *)
Theorem nothing_happens_after_deny (calls : list Invocation) (w : World)
    (j : list Effect) (a : bool) (n : nat) (t : Interactive.Terminal) :
  ∃ results w',
    interactive_all calls (mkToolState (w, j) (Interactive.mkHandler a true n, t))
    = Some (Returns results,
            mkToolState (w', j) (Interactive.mkHandler a true n, t)) ∧
    Forall2 declined calls results.
Proof.
  revert w. induction calls as [|call calls IH]; intros w.
  - exists [], w. by split.
  - destruct (denied_call call w j a n t) as (result & w1 & Hcall & Hd).
    destruct (IH w1) as (results & w' & Hcalls & Hds).
    exists (result :: results), w'. split; [|by constructor].
    unfold interactive_all, observed_all in *. cbn [invoke_all].
    unfold interactive, observed in Hcall.
    unfold bind at 1. rewrite Hcall. unfold bind at 1. rewrite Hcalls. done.
Qed.

End Denied.

(** *** Concrete calls *)

Module Scenario.

(** A file system in memory: the files written so far, the last write
    first. *)
Definition Files : Type := list (jsstring * string).

Definition stored (path : jsstring) (files : Files) : option string :=
  snd <$> List.find (λ file, str_eqb file.1 path) files.

Definition memory : FileSystemProvider Files :=
  mkProvider true
    (λ path files, (ok (fst <$> files), files))
    (λ path files,
       match stored path files with
       | Some content => (ok content, files)
       | None => (err (js "File not found: " ++ path), files)
       end)
    (λ path content files, (ok (), (path, content) :: files))
    (λ path files, (bool_decide (is_Some (stored path files)), files)).

Definition no_process (shell : string) (shellArgs : list jsstring)
    (cwd : option jsstring) (timeoutSeconds : float) (files : Files)
    : ProcessEnd * Files :=
  (exited (Some 0%Z) (js " done ") false, files).

Definition start : ToolState (Journaled Files) unit := mkToolState ([], []) ().

(** In brave mode a valid [create__file] writes, and says so. *)
Example create_file_in_brave_mode :
  observed Files unit memory BraveConfirmationHandler id "linux" no_process
    (create__file (js "a.txt") "hi") start
  = Some (Returns (js "SUCCESS: Created file 'a.txt'" ++ nl
                   ++ js "Lines: 1 | Characters: 2"),
          mkToolState ([(js "a.txt", "hi")], [Wrote (js "a.txt") "hi"]) ()).
Proof. vm_compute. reflexivity. Qed.

(** An approved command is run by [/bin/sh -c] with the default timeout. *)
Example shell_command_in_brave_mode :
  observed Files unit memory BraveConfirmationHandler id "linux" no_process
    (execute__shell_command (mkShellArgs (js "make") None None)) start
  = Some (Returns (js "Command: make" ++ nl ++ js "Status: SUCCESS (exit code: 0)" ++ nl
                   ++ nl ++ js "Output:" ++ nl ++ js "done"),
          mkToolState ([], [Spawned "/bin/sh" [js "-c"; js "make"] None 30%float]) ()).
Proof. vm_compute. reflexivity. Qed.

Lemma refused_calls_touch_nothing_witness :
  ∃ result,
    invoke Files unit memory BraveConfirmationHandler id "linux" no_process
      (edit__file (js "../etc/passwd") "x") (mkToolState [] ())
      = Some (Returns result, mkToolState [] ()) ∧
    starts_with (js "ERROR: ") result = true.
Proof.
  apply (refused_calls_touch_nothing Files unit memory BraveConfirmationHandler id
           "linux" no_process (edit__file (js "../etc/passwd") "x")).
  right. left. right. exists [], (js "/etc/passwd"). reflexivity.
Defined.

End Scenario.

End Tools.

(* ===================================================================== *)
(** ** MCP: calling a remote tool, and what goes over the wire *)
(* ===================================================================== *)

Module McpProperties.
Import Effects Effects.Notations JsValue Mcp.

(** [interface ToolCallResult], as [execute] reads it off the wire: the
    result may be [null]; [content] may be missing; an entry of [content]
    may be [null], and its [text] may be missing; [isError] by its
    truthiness. *)
Inductive ToolCallResult : Type :=
| null_result
| call_result (content : option (list (option (option string)))) (isError : bool).

(** [interface JsonRpcError], as [sendRequest] reads it. *)
Record RpcError : Type := mkRpcError {
  rpc_message : string;
  rpc_code : JsValue
}.

(** [response.data] of the POST of a [tools/call]. *)
Record CallResponse : Type := mkCallResponse {
  call_error : option RpcError;
  call_data : option ToolCallResult
}.

Definition nl : string := String "010"%char EmptyString.

(** [texts.join(separator)]: a missing text is joined as the empty
    string. *)
Definition join (separator : string) (texts : list (option string)) : string :=
  String.concat separator (default "" <$> texts).

Section Adapter.

Variable World : Type.
Variable axios_get : string → World → Outcome Z * World.
Variable axios_post : string → JsonRpcRequest → World → Outcome Json * World.
Variable axios_post_call : string → JsonRpcRequest → World → Outcome CallResponse * World.
Variable ToString : Json → JsError + string.

Definition http_post_call (url : string) (request : JsonRpcRequest) : M (ClientState World) CallResponse :=
  fun s => let '(r, w) := axios_post_call url request (world World s) in
           (r, mkState World w (requestId World s)).

(** [sendRequest<ToolCallResult>] *)
Definition sendCallRequest (serverUrl : string) (request : JsonRpcRequest)
    : M (ClientState World) ToolCallResult :=
  try_catch
    (let! response := http_post_call serverUrl request in
     match call_error response with
     | Some err => throw (McpException (rpc_message err) (rpc_code err))
     | None =>
         match call_data response with
         | None => throw (McpException "No result in response" None)
         | Some result => ret result
         end
     end)
    (rethrow_as_mcp World).

(** [callTool] *)
Definition callTool (serverUrl : string) (name : JsValue) (args : string)
    : M (ClientState World) ToolCallResult :=
  let! i := nextId World in
  sendCallRequest serverUrl (mkRequest "2.0" i "tools/call" (CallParams name args)).

(** [content.text] in the [map] of [formatResult] *)
Definition text_of (content : option (option string)) : M (ClientState World) (option string) :=
  match content with
  | None => throw (TypeError "Cannot read properties of null (reading 'text')")
  | Some text => ret text
  end.

(** [McpToolAdapter.formatResult] *)
Definition formatResult (content : option (list (option (option string))))
    : M (ClientState World) string :=
  match content with
  | None | Some [] => ret "(no output)"
  | Some entries =>
      let! texts := map_m World text_of entries in
      ret (join (nl ++ nl)%string texts)
  end.

(** [McpToolAdapter.execute], of an adapter whose client talks to
    [serverUrl]. *)
Definition execute (serverUrl : string) (adapter : McpToolAdapter) (args : string)
    : M (ClientState World) string :=
  try_catch
    (let! result := callTool serverUrl (name adapter) args in
     match result with
     | null_result =>
         throw (TypeError "Cannot read properties of null (reading 'isError')")
     | call_result content isError =>
         if isError then
           let! formatted := formatResult content in
           ret ("ERROR: " ++ formatted)%string
         else formatResult content
     end)
    (fun error =>
       let! shown := to_text World ToString (name adapter) in
       ret ("ERROR: Failed to call MCP tool '" ++ shown ++ "': "
            ++ describe error)%string).

(** The calls a user of an [McpClient] makes, each of which may throw. *)
Inductive ClientCall : Type :=
| Initialize
| ListTools
| CallTool (name : JsValue) (args : string).

Definition call (serverUrl : string) (c : ClientCall) : M (ClientState World) unit :=
  match c with
  | Initialize => do! initialize World axios_post ToString serverUrl in ret tt
  | ListTools => do! listTools World axios_post ToString serverUrl in ret tt
  | CallTool name args => do! callTool serverUrl name args in ret tt
  end.

(** A series of calls on one client; a call that throws does not stop the
    series. *)
Fixpoint calls (serverUrl : string) (cs : list ClientCall) : M (ClientState World) unit :=
  match cs with
  | [] => ret tt
  | c :: rest =>
      do! try_catch (call serverUrl c) (fun _ => ret tt) in
      calls serverUrl rest
  end.

(** *** A remote tool call never throws *)

(** A text that begins with [ERROR: ]. *)
Definition is_error (text : string) : Prop :=
  ∃ rest, text = ("ERROR: " ++ rest)%string.

(** The text [formatResult] gives for a content it can read. *)
Definition formatted (content : option (list (option (option string))))
    (text : string) : Prop :=
  match content with
  | None | Some [] => text = "(no output)"
  | Some entries =>
      ∃ texts, entries = Some <$> texts ∧ text = join (nl ++ nl)%string texts
  end.

Lemma map_m_text_of entries s :
  (∃ texts, entries = Some <$> texts ∧
            map_m World text_of entries s = (Returns texts, s)) ∨
  (∃ e, map_m World text_of entries s = (Throws e, s)).
Proof.
  induction entries as [|[text|] entries IH]; cbn [map_m].
  - left. by exists [].
  - unfold bind. cbv beta.
    change (text_of (Some text) s) with (Returns text, s). cbv beta iota.
    unfold ret.
    destruct IH as [(texts & -> & ->)|(e & ->)].
    + left. by exists (text :: texts).
    + right. by exists e.
  - right. by eexists.
Qed.

Lemma formatResult_settles content s :
  (∃ text, formatted content text ∧ formatResult content s = (Returns text, s)) ∨
  (∃ e, formatResult content s = (Throws e, s)).
Proof.
  destruct content as [[|entry entries]|]; [by left; eexists..| |by left; eexists].
  unfold formatResult, formatted, bind.
  destruct (map_m_text_of (entry :: entries) s) as [(texts & Ht & ->)|(e & ->)].
  - left. eexists. split; [by exists texts|done].
  - right. by eexists.
Qed.

(** The [catch] of [execute] reports the error, provided the name of the
    adapter converts to a string. *)
Lemma execute_catch adapter shown error s :
  String_of ToString (name adapter) = inr shown →
  ∃ text,
    (let! shown := to_text World ToString (name adapter) in
     ret ("ERROR: Failed to call MCP tool '" ++ shown ++ "': "
          ++ describe error)%string) s
    = (Returns text, s) ∧
    is_error text.
Proof.
  intros Hname. unfold bind, to_text. rewrite Hname.
  eexists. split; [reflexivity|]. by eexists.
Qed.

(** X13. [McpToolAdapter.execute], of an adapter whose name converts to a
    string (a name that is a string does, and so does a missing one),
    never throws, uses up exactly one request id, and reports every failure
    in its result: it returns a text that begins with [ERROR: ] unless the
    POST returned a response without [error] whose [result] is an object
    with a falsy [isError] and a readable [content]; then the text is
    [(no output)] for a missing or empty [content] and else the texts of
    the entries joined by a blank line. *)
Theorem remote_tool_failures_are_reported (serverUrl : string)
    (adapter : McpToolAdapter) (args : string) (s : ClientState World)
    (shown : string) :
  String_of ToString (name adapter) = inr shown →
  let request :=
    mkRequest "2.0" (S (requestId World s)) "tools/call"
      (CallParams (name adapter) args) in
  ∃ text outcome w',
    axios_post_call serverUrl request (world World s) = (outcome, w') ∧
    execute serverUrl adapter args s
      = (Returns text, mkState World w' (S (requestId World s))) ∧
    (is_error text ∨
     ∃ content,
       outcome = Returns (mkCallResponse None (Some (call_result content false))) ∧
       formatted content text).
Proof.
  intros Hname request.
  destruct (axios_post_call serverUrl request (world World s)) as [outcome w'] eqn:Hpost.
  set (s' := mkState World w' (S (requestId World s))).
  assert (Hcatch : ∀ error,
    ∃ text,
      (let! shown := to_text World ToString (name adapter) in
       ret ("ERROR: Failed to call MCP tool '" ++ shown ++ "': "
            ++ describe error)%string) s'
      = (Returns text, s') ∧
      (is_error text ∨
       ∃ content,
         outcome = Returns (mkCallResponse None (Some (call_result content false))) ∧
         formatted content text)).
  { intros error. destruct (execute_catch adapter shown error s' Hname) as (text & -> & He).
    exists text. split; [done|by left]. }
  assert (Hcall : callTool serverUrl (name adapter) args s
    = match outcome with
      | Returns response =>
          match call_error response with
          | Some err => (Throws (McpException (rpc_message err) (rpc_code err)), s')
          | None =>
              match call_data response with
              | None => (Throws (McpException "No result in response" None), s')
              | Some result => (Returns result, s')
              end
          end
      | Throws e => rethrow_as_mcp World e s'
      end).
  { unfold callTool, bind at 1, nextId, sendCallRequest, try_catch, bind, http_post_call.
    cbn [world requestId]. fold request. rewrite Hpost.
    destruct outcome as [[[err|] [result|]]|e]; done. }
  unfold execute, try_catch, bind at 1. rewrite Hcall. clear Hcall.
  destruct outcome as [[[err|] [[|content isError]|]]|e];
    cbn [call_error call_data].
  - destruct (Hcatch (McpException (rpc_message err) (rpc_code err)))
      as (text & Ht & Hgood).
    exists text. eexists _, w'. split; [reflexivity|]. split; [exact Ht|exact Hgood].
  - destruct (Hcatch (McpException (rpc_message err) (rpc_code err)))
      as (text & Ht & Hgood).
    exists text. eexists _, w'. split; [reflexivity|]. split; [exact Ht|exact Hgood].
  - destruct (Hcatch (McpException (rpc_message err) (rpc_code err)))
      as (text & Ht & Hgood).
    exists text. eexists _, w'. split; [reflexivity|]. split; [exact Ht|exact Hgood].
  - destruct (Hcatch (TypeError "Cannot read properties of null (reading 'isError')"))
      as (text & Ht & Hgood).
    exists text. eexists _, w'. split; [reflexivity|]. split; [exact Ht|exact Hgood].
  - cbv beta iota.
    destruct (formatResult_settles content s') as [(text & Hf & Hr)|(e & Hr)].
    + destruct isError.
      * unfold bind. rewrite Hr. eexists _, _, w'. split; [reflexivity|]. split; [reflexivity|].
        left. by eexists.
      * rewrite Hr. exists text. eexists _, w'. split; [reflexivity|]. split; [done|].
        right. by exists content.
    + destruct (Hcatch e) as (text & Ht & Hgood).
      exists text. eexists _, w'. split; [reflexivity|].
      destruct isError; [unfold bind|]; rewrite Hr; (split; [exact Ht|exact Hgood]).
  - destruct (Hcatch (McpException "No result in response" None))
      as (text & Ht & Hgood).
    exists text. eexists _, w'. split; [reflexivity|]. split; [exact Ht|exact Hgood].
  - destruct (rethrow_as_mcp_throws World (A := ToolCallResult) e s')
      as (message & code & ->).
    destruct (Hcatch (McpException message code)) as (text & Ht & Hgood).
    exists text. eexists _, w'. split; [reflexivity|]. split; [exact Ht|exact Hgood].
Qed.

End Adapter.

(** *** What goes over the wire *)

Section Wire.

Variable World : Type.
Variable axios_get : string → World → Outcome Z * World.
Variable axios_post : string → JsonRpcRequest → World → Outcome Json * World.
Variable axios_post_call : string → JsonRpcRequest → World → Outcome CallResponse * World.
Variable ToString : Json → JsError + string.

(** The network together with the requests posted so far. *)
Definition Wire : Type := World * list JsonRpcRequest.

(** The same network, observed: each POST is entered, nothing else
    changes. *)
Definition wired_get (url : string) : Wire → Outcome Z * Wire :=
  λ s, let '(r, w) := axios_get url s.1 in (r, (w, s.2)).

Definition wired_post (url : string) (request : JsonRpcRequest)
    : Wire → Outcome Json * Wire :=
  λ s, let '(r, w) := axios_post url request s.1 in (r, (w, s.2 ++ [request])).

Definition wired_post_call (url : string) (request : JsonRpcRequest)
    : Wire → Outcome CallResponse * Wire :=
  λ s, let '(r, w) := axios_post_call url request s.1 in (r, (w, s.2 ++ [request])).

Definition posted (s : ClientState Wire) : list JsonRpcRequest := (world Wire s).2.

(** The request a call posts when the client's counter is at [n]. *)
Definition request_of (n : nat) (c : ClientCall) : JsonRpcRequest :=
  match c with
  | Initialize =>
      mkRequest "2.0" (S n) "initialize"
        (InitializeParams "2024-11-05" "typescript-ai-agent" "1.0.0")
  | ListTools => mkRequest "2.0" (S n) "tools/list" NoParams
  | CallTool name args => mkRequest "2.0" (S n) "tools/call" (CallParams name args)
  end.

(** The requests a series of calls posts, from a counter at [n]. *)
Fixpoint requests_of (n : nat) (cs : list ClientCall) : list JsonRpcRequest :=
  match cs with
  | [] => []
  | c :: rest => request_of n c :: requests_of (S n) rest
  end.

(** A POST on the observed network enters its request. *)
Lemma wired_post_enters url request (s : ClientState Wire) outcome w :
  wired_post url request (world Wire s) = (outcome, w) →
  ∃ w', w = (w', posted s ++ [request]).
Proof.
  unfold wired_post, posted. destruct (axios_post url request _) as [r w1].
  intros [= <- <-]. by exists w1.
Qed.

Lemma initialize_wire serverUrl s :
  ∃ r w',
    initialize Wire wired_post ToString serverUrl s
    = (r, mkState Wire (w', posted s ++ [request_of (requestId Wire s) Initialize])
            (S (requestId Wire s))).
Proof.
  destruct (initialize_posts_once Wire wired_post ToString serverUrl s)
    as (r & outcome & w & Hpost & ->).
  apply wired_post_enters in Hpost as [w' ->]. by exists r, w'.
Qed.

Lemma listTools_wire serverUrl s :
  ∃ r w',
    listTools Wire wired_post ToString serverUrl s
    = (r, mkState Wire (w', posted s ++ [request_of (requestId Wire s) ListTools])
            (S (requestId Wire s))).
Proof.
  destruct (listTools_posts_once Wire wired_post ToString serverUrl s)
    as (r & outcome & w & Hpost & ->).
  apply wired_post_enters in Hpost as [w' ->]. by exists r, w'.
Qed.

Lemma callTool_wire serverUrl name args s :
  ∃ r w',
    callTool Wire wired_post_call serverUrl name args s
    = (r, mkState Wire
            (w', posted s ++ [request_of (requestId Wire s) (CallTool name args)])
            (S (requestId Wire s))).
Proof.
  destruct s as [[w log] n].
  unfold callTool, bind at 1, nextId, sendCallRequest, try_catch, bind, http_post_call,
    wired_post_call, posted.
  cbn [world requestId fst snd request_of].
  destruct (axios_post_call _ _ w) as [[[[err|] [result|]]|e] w']; cbn;
    try destruct e; by eexists _, _.
Qed.

Lemma call_posts_one serverUrl c s :
  ∃ w',
    try_catch (call Wire wired_post wired_post_call ToString serverUrl c)
      (fun _ => ret tt) s
    = (Returns tt,
       mkState Wire (w', posted s ++ [request_of (requestId Wire s) c])
         (S (requestId Wire s))).
Proof.
  destruct c as [| |name args]; unfold try_catch, call, bind.
  - destruct (initialize_wire serverUrl s) as (r & w' & ->).
    exists w'. by destruct r.
  - destruct (listTools_wire serverUrl s) as (r & w' & ->).
    exists w'. by destruct r.
  - destruct (callTool_wire serverUrl name args s) as (r & w' & ->).
    exists w'. by destruct r.
Qed.

Lemma requests_of_ids n cs : id <$> requests_of n cs = seq (S n) (length cs).
Proof.
  revert n. induction cs as [|c cs IH]; intros n; simpl; [done|].
  rewrite IH. by destruct c.
Qed.

(** X14. The request ids of one client are consecutive and never used
    twice, whatever the server answers: a series of [initialize],
    [listTools] and [callTool] calls on a client whose counter is at [n]
    posts exactly one request per call, in order, with the ids [n+1],
    [n+2], ...; a call that fails (transport error, error response, missing
    result) has used up its id all the same, and the counter ends at [n]
    plus the number of calls. *)
Theorem request_ids_are_consecutive (serverUrl : string) (cs : list ClientCall)
    (s : ClientState Wire) :
  (∃ w',
     calls Wire wired_post wired_post_call ToString serverUrl cs s
     = (Returns tt,
        mkState Wire (w', posted s ++ requests_of (requestId Wire s) cs)
          (requestId Wire s + length cs))) ∧
  id <$> requests_of (requestId Wire s) cs
  = seq (S (requestId Wire s)) (length cs).
Proof.
  split; [|apply requests_of_ids].
  revert s. induction cs as [|c cs IH]; intros s.
  - destruct s as [[w log] n]. unfold posted. simpl.
    exists w. by rewrite app_nil_r, Nat.add_0_r.
  - simpl. unfold bind at 1.
    destruct (call_posts_one serverUrl c s) as (w1 & ->).
    destruct (IH (mkState Wire (w1, posted s ++ [request_of (requestId Wire s) c])
                    (S (requestId Wire s)))) as (w' & ->).
    exists w'. unfold posted. simpl. rewrite <- app_assoc. simpl.
    by rewrite Nat.add_succ_r.
Qed.

(** *** Discovery on the wire *)

(** A computation that leaves client and network as they are. *)
Definition quiet {A} (c : M (ClientState Wire) A) : Prop := ∀ s, (c s).2 = s.

Lemma quiet_log_initialized verbose initResult :
  quiet (when verbose (log_initialized Wire initResult)).
Proof. intros s. destruct verbose; [|done]. apply log_initialized_state. Qed.

Lemma quiet_adapters mcpTools : quiet (array_map Wire (newAdapter Wire) mcpTools).
Proof. intros s. apply array_map_state. intros t. apply newAdapter_state. Qed.

Lemma quiet_log_discovered verbose mcpTools :
  quiet (when verbose (log_discovered Wire ToString mcpTools)).
Proof. intros s. destruct verbose; [|done]. apply log_discovered_state. Qed.

Lemma isServerAvailable_wire serverUrl s :
  ∃ available w',
    isServerAvailable Wire wired_get serverUrl s
    = (Returns available, mkState Wire (w', posted s) (requestId Wire s)) ∧
    (available = true →
     axios_get (replace_first "/mcp" "/health" serverUrl) (world Wire s).1
     = (Returns 200%Z, w')).
Proof.
  destruct s as [[w log] n].
  unfold isServerAvailable, try_catch, bind, http_get, wired_get, ret, posted.
  cbn [world requestId fst snd].
  destruct (axios_get _ w) as [[status|e] w1]; [|by exists false, w1].
  exists (bool_decide (status = 200%Z)), w1. split; [done|].
  by intros ->%bool_decide_eq_true.
Qed.

Ltac quietly lemma :=
  match goal with
  | |- context [let (_, _) := ?c ?s in _] =>
      let Hq := fresh in
      pose proof (lemma s) as Hq;
      destruct (c s) as [[?|?] ?]; cbn [snd] in Hq; subst
  end.

(** The requests a discovery has posted, by how far it came: none when the
    probe failed, [initialize] when that call or its log threw, both
    otherwise. *)
Lemma discover_body_wire serverUrl verbose s :
  let healthUrl := replace_first "/mcp" "/health" serverUrl in
  ∃ r w' n' sent,
    discover_body Wire wired_get wired_post ToString serverUrl verbose s
    = (r, mkState Wire (w', posted s ++ sent) n') ∧
    sent `prefix_of` requests_of 0 [Initialize; ListTools] ∧
    (r ≠ Returns [] ∧ (∀ e, r ≠ Throws e) → sent = requests_of 0 [Initialize; ListTools]) ∧
    ((∀ w1, axios_get healthUrl (world Wire s).1 ≠ (Returns 200%Z, w1)) → sent = []).
Proof.
  intros healthUrl. unfold discover_body, bind at 1 2, get, put. cbv beta iota.
  unfold bind at 1.
  destruct (isServerAvailable_wire serverUrl (mkState Wire (world Wire s) 0))
    as (available & w1 & -> & Hprobe).
  change (posted (mkState Wire (world Wire s) 0)) with (posted s).
  cbn [requestId world] in *.
  destruct available; cbn [negb].
  2: { exists (Returns []), w1, 0, []. rewrite app_nil_r.
       split; [done|]. split; [apply prefix_nil|]. split; [|done]. by intros []. }
  specialize (Hprobe eq_refl).
  assert (Hhealthy : ∀ sent : list JsonRpcRequest,
            (∀ w2, axios_get healthUrl (world Wire s).1 ≠ (Returns 200%Z, w2)) →
            sent = []).
  { intros sent Hno. by destruct (Hno w1). }
  unfold bind at 1.
  destruct (initialize_wire serverUrl (mkState Wire (w1, posted s) 0))
    as (r1 & w2 & ->).
  change (posted (mkState Wire (w1, posted s) 0)) with (posted s).
  cbn [requestId request_of].
  set (init := mkRequest "2.0" 1 "initialize" _).
  assert (Hinit : [init] `prefix_of` requests_of 0 [Initialize; ListTools])
    by (by apply prefix_cons, prefix_nil).
  destruct r1 as [initResult|e].
  2: { exists (Throws e), w2, 1, [init]. split; [done|]. split; [done|].
       split; [|apply Hhealthy]. intros [_ He]. by destruct (He e). }
  unfold bind at 1. quietly (quiet_log_initialized verbose initResult).
  2: { eexists (Throws _), w2, 1, [init]. split; [done|]. split; [done|].
       split; [|apply Hhealthy]. intros [_ He]. exfalso. by eapply He. }
  unfold bind at 1.
  destruct (listTools_wire serverUrl (mkState Wire (w2, posted s ++ [init]) 1))
    as (r2 & w3 & ->).
  change (posted (mkState Wire (w2, posted s ++ [init]) 1)) with (posted s ++ [init]).
  cbn [requestId request_of]. rewrite <- app_assoc. cbn [app].
  set (listing := mkRequest "2.0" 2 "tools/list" _).
  assert (Hboth : ∀ r : Outcome (list McpToolAdapter),
    ∃ (r' : Outcome (list McpToolAdapter)) (w' : World) (n' : nat)
      (sent : list JsonRpcRequest),
      (r, mkState Wire (w3, posted s ++ [init; listing]) 2)
      = (r', mkState Wire (w', posted s ++ sent) n') ∧
      sent `prefix_of` requests_of 0 [Initialize; ListTools] ∧
      (r' ≠ Returns [] ∧ (∀ e, r' ≠ Throws e) →
       sent = requests_of 0 [Initialize; ListTools]) ∧
      ((∀ w1, axios_get healthUrl (world Wire s).1 ≠ (Returns 200%Z, w1)) → sent = [])).
  { intros r. exists r, w3, 2, [init; listing]. split; [done|]. split; [done|].
    split; [done|apply Hhealthy]. }
  destruct r2 as [mcpTools|e]; [|apply Hboth].
  unfold bind at 1. quietly (quiet_log_discovered verbose mcpTools); [|apply Hboth].
  unfold bind at 1. quietly (quiet_adapters mcpTools); apply Hboth.
Qed.

(** X15. Discovery posts at most two requests: [initialize] with id 1 and
    then [tools/list] with id 2, in this order.  It posts nothing when the
    health probe throws or answers another status than 200, and it has
    posted both whenever it returns a tool. *)
Theorem discovery_posts_at_most_two (serverUrl : string) (verbose : bool)
    (s : ClientState Wire) :
  let run := discoverTools Wire wired_get wired_post ToString serverUrl verbose s in
  let healthUrl := replace_first "/mcp" "/health" serverUrl in
  ∃ tools sent,
    run.1 = Returns tools ∧
    posted run.2 = posted s ++ sent ∧
    sent `prefix_of` requests_of 0 [Initialize; ListTools] ∧
    (tools ≠ [] → sent = requests_of 0 [Initialize; ListTools]) ∧
    ((∀ w', axios_get healthUrl (world Wire s).1 ≠ (Returns 200%Z, w')) → sent = []).
Proof.
  intros run healthUrl. subst run. unfold discoverTools, try_catch.
  destruct (discover_body_wire serverUrl verbose s)
    as (r & w' & n' & sent & -> & Hprefix & Hboth & Hnone).
  destruct r as [tools|e]; cbn.
  - exists tools, sent. repeat split; [done|..|done].
    intros Hne. apply Hboth. split; [congruence|done].
  - exists [], sent. repeat split; done.
Qed.

End Wire.

(** An adapter named [search] whose server refuses the connection: the
    failure comes back as the result of the call. *)
Lemma remote_tool_failures_are_reported_witness :
  let adapter :=
    mkAdapter (Some (JString "search")) (Some (JString "Searches the index")) None in
  let refusing (url : string) (request : JsonRpcRequest) :=
    refused (A := CallResponse) in
  let s := mkState unit tt 0 in
  let request := mkRequest "2.0" 1 "tools/call" (CallParams (name adapter) "{}") in
  String_of unconverted (name adapter) = inr "search" ∧
  ∃ text outcome w',
    refusing "http://localhost:8080/mcp" request (world unit s) = (outcome, w') ∧
    execute unit refusing unconverted "http://localhost:8080/mcp" adapter "{}" s
      = (Returns text, mkState unit w' 1) ∧
    (is_error text ∨
     ∃ content,
       outcome = Returns (mkCallResponse None (Some (call_result content false))) ∧
       formatted content text).
Proof.
  intros adapter refusing s request. split; [reflexivity|].
  apply (remote_tool_failures_are_reported unit refusing unconverted
           "http://localhost:8080/mcp" adapter "{}" s "search").
  reflexivity.
Defined.

End McpProperties.

(* ===================================================================== *)
(** ** AIAgent: the registry and the shape of the conversation *)
(* ===================================================================== *)

Module AgentProperties.
Import Effects Effects.Notations Agent.

Section Orchestrator.

Variable World : Type.
Variable Json : Type.
Variable JSON_parse : string → JsError + Json.
Variable getCompletion : list Message → World → Outcome (option Reply) * World.
Variable config : AIAgentConfig World Json.

(** *** The registry *)

(** The tools registered under a name, in the order of [config.tools]. *)
Definition registered (toolName : string) (l : list (Tool World Json))
    : list (Tool World Json) :=
  List.filter (λ t, bool_decide (name World Json t = toolName)) l.

Lemma registry_lookup (l : list (Tool World Json))
    (m : gmap string (Tool World Json)) toolName :
  foldl (λ m t, <[name World Json t := t]> m) m l !! toolName
  = match last (registered toolName l) with
    | Some t => Some t
    | None => m !! toolName
    end.
Proof.
  revert m. induction l as [|t l IH]; intros m; [done|].
  cbn [foldl registered List.filter]. rewrite IH. fold (registered toolName l).
  destruct (bool_decide_reflect (name World Json t = toolName)) as [<-|Hne].
  - rewrite last_cons. destruct (last (registered _ l)); [done|].
    by rewrite lookup_insert_eq.
  - destruct (last (registered _ l)); [done|]. by rewrite lookup_insert_ne.
Qed.

Lemma registered_nil toolName l :
  registered toolName l = [] ↔ Forall (λ t, name World Json t ≠ toolName) l.
Proof.
  induction l as [|t l IH]; cbn [registered List.filter]; [by split|].
  fold (registered toolName l).
  destruct (bool_decide_reflect (name World Json t = toolName)) as [Heq|Hne].
  - split; [done|]. by inversion 1.
  - rewrite IH. split; [by constructor|by inversion 1].
Qed.

Lemma toolMap_lookup toolName :
  toolMap World Json config !! toolName
  = last (registered toolName (tools World Json config)).
Proof.
  unfold toolMap. rewrite registry_lookup, lookup_empty. by destruct (last _).
Qed.

(** X16. The agent's registry holds, under each name, the last tool of
    [config.tools] with that name: a tool registered later under a name
    replaces an earlier one (so does a discovered remote tool that is named
    like a built-in one, since discovered tools are added after them), and
    a name is unknown exactly when no tool of the configuration has it. *)
Theorem registry_keeps_last_registration (toolName : string) :
  toolMap World Json config !! toolName
    = last (registered toolName (tools World Json config)) ∧
  (toolMap World Json config !! toolName = None
   ↔ Forall (λ t, name World Json t ≠ toolName) (tools World Json config)) ∧
  (∀ earlier t later,
     tools World Json config = earlier ++ t :: later →
     Forall (λ t', name World Json t' ≠ name World Json t) later →
     toolMap World Json config !! name World Json t = Some t).
Proof.
  split; [apply toolMap_lookup|]. split.
  - rewrite toolMap_lookup, last_None. apply registered_nil.
  - intros earlier t later Htools Hlater. rewrite toolMap_lookup, Htools.
    unfold registered. rewrite List.filter_app. cbn [List.filter].
    rewrite bool_decide_eq_true_2 by done.
    apply registered_nil in Hlater. unfold registered in Hlater. rewrite Hlater.
    by rewrite last_snoc.
Qed.

(** *** The shape of the conversation *)

(** A conversation the completion service accepts: the tool calls of an
    assistant message are answered, one tool message each and in order, by
    the messages that directly follow it, and there is no other tool
    message.  [pending] are the calls still to be answered. *)
Fixpoint well_formed (pending : list ToolCall) (conversation : list Message) : Prop :=
  match conversation with
  | [] => pending = []
  | m :: rest =>
      match pending with
      | toolCall :: pending' => is_result_of toolCall m ∧ well_formed pending' rest
      | [] =>
          match role m with
          | tool => False
          | assistant => well_formed (default [] (tool_calls m)) rest
          | _ => well_formed [] rest
          end
      end
  end.

Lemma well_formed_app pending first second :
  well_formed pending first → well_formed [] second →
  well_formed pending (first ++ second).
Proof.
  revert pending. induction first as [|m first IH]; intros pending; cbn.
  - by intros ->.
  - destruct pending as [|toolCall pending]; [|intros [? ?] ?; split; auto].
    destruct (role m); auto.
Qed.

Lemma well_formed_results toolCalls results :
  Forall2 is_result_of toolCalls results → well_formed toolCalls results.
Proof. induction 1; cbn; auto. Qed.

(** The loop keeps the conversation well formed, however it ends. *)
Lemma run_loop_well_formed remaining s :
  well_formed [] (messages World s) →
  well_formed []
    (messages World (run_loop World Json JSON_parse getCompletion config remaining s).2).
Proof.
  revert s. induction remaining as [|remaining IH]; intros s Hs; [done|].
  rewrite run_loop_S.
  destruct (getCompletion (messages World s) (world World s)) as [[[reply|]|e] w1];
    [|done..].
  assert (Hfinal : reply_tool_calls reply = None ∨ reply_tool_calls reply = Some [] →
    well_formed [] (messages World s ++ [assistantMessage reply])).
  { intros Hnone. apply well_formed_app; [done|]. cbn. by destruct Hnone as [-> | ->]. }
  destruct (reply_tool_calls reply) as [[|toolCall rest]|] eqn:Hcalls;
    [apply Hfinal; auto| |apply Hfinal; auto].
  cbv zeta.
  destruct (executeToolCalls_appends World Json JSON_parse config (toolCall :: rest)
              (mkAgent World (messages World s ++ [assistantMessage reply]) w1))
    as (results & w' & -> & Hresults).
  apply IH. cbn [messages]. rewrite <- app_assoc. apply well_formed_app; [done|].
  cbn. rewrite Hcalls. cbn. by apply well_formed_results.
Qed.

Lemma run_well_formed userInput s :
  well_formed [] (messages World s) →
  well_formed []
    (messages World (run World Json JSON_parse getCompletion config userInput s).2).
Proof.
  intros Hs. unfold run, bind, push. cbn.
  apply run_loop_well_formed. cbn. by apply well_formed_app.
Qed.

(** Several tasks given to one agent, one after the other, whatever the
    outcome of each. *)
Fixpoint runs (userInputs : list string) (s : AgentState World) : AgentState World :=
  match userInputs with
  | [] => s
  | userInput :: rest =>
      runs rest (run World Json JSON_parse getCompletion config userInput s).2
  end.

(** X17. The agent keeps its conversation in the shape the completion
    service requires, however a run ends: after any number of runs on one
    agent (each returning, or throwing the iteration-limit error, the
    no-message error or an error of the completion call), every assistant
    message with tool calls is directly followed by exactly one tool message
    per call, in the order of the calls and with their ids, and there are
    no other tool messages; no run removes or changes an earlier message. *)
Theorem conversation_stays_well_formed (userInputs : list string) (w : World) :
  let start := mkAgent World (initialMessages World Json config) w in
  well_formed [] (messages World (runs userInputs start)) ∧
  messages World start `prefix_of` messages World (runs userInputs start).
Proof.
  cbv zeta.
  assert (Hgen : ∀ s, well_formed [] (messages World s) →
            well_formed [] (messages World (runs userInputs s)) ∧
            messages World s `prefix_of` messages World (runs userInputs s)).
  { induction userInputs as [|userInput rest IH]; intros s Hs; [done|].
    cbn [runs].
    destruct (IH (run World Json JSON_parse getCompletion config userInput s).2)
      as [Hwf Hprefix]; [by apply run_well_formed|].
    split; [done|]. etrans; [|exact Hprefix].
    unfold run, bind, push. cbn.
    destruct (run_loop_ends World Json JSON_parse getCompletion config
                (Z.to_nat (effectiveMaxIterations World Json config))
                (mkAgent World
                   (messages World s ++ [mkMessage user userInput None None])
                   (world World s))) as (appended & -> & _).
    cbn [messages]. rewrite <- app_assoc. by apply prefix_app_r. }
  by apply Hgen.
Qed.

End Orchestrator.

(** *** The code search sub-agent *)

Section CodeSearch.

Variable World : Type.
Variable Json : Type.
Variable JSON_parse : string → JsError + Json.
Variable getCompletion : list Message → World → Outcome (option Reply) * World.

(** The prompt constant of CodeSearchAgent.ts and the two read-only tools
    the sub-agent is constructed with. *)
Variable CODE_SEARCH_SYSTEM_PROMPT : string.
Variable ListDirectoryTool : Tool World Json.
Variable ReadFileTool : Tool World Json.

(** [createCodeSearchAgent]: the configuration of the sub-agent. *)
Definition createCodeSearchAgent : AIAgentConfig World Json :=
  mkConfig World Json CODE_SEARCH_SYSTEM_PROMPT [ListDirectoryTool; ReadFileTool]
    (Some 15%Z).

(** [CodeSearchAgentTool.execute], on the one sub-agent the tool holds. *)
Definition CodeSearchAgentTool_execute (query : string) : M (AgentState World) string :=
  try_catch
    (run World Json JSON_parse getCompletion createCodeSearchAgent query)
    (fun error => ret ("ERROR: Code search failed: " ++ describe error)%string).

(** X18. A code search never throws, and is bounded by 15 iterations.
    [CodeSearchAgentTool.execute] pushes the query as a user message onto
    the conversation of its sub-agent, which is kept from call to call, and
    returns: the sub-agent's final text when the sub-agent answers without
    tool calls within 15 iterations, and else the text [ERROR: Code search
    failed: ] followed by the message of the error that ended the run,
    which is [Max iterations (15) reached] when 15 replies in a row asked
    for tools. *)
Theorem code_search_never_throws (query : string) (s : AgentState World) :
  ∃ text s' appended,
    CodeSearchAgentTool_execute query s = (Returns text, s') ∧
    messages World s'
      = messages World s ++ mkMessage user query None None :: appended ∧
    (ended_by World Json getCompletion createCodeSearchAgent 15 (Returns text) appended ∨
     ∃ e, ended_by World Json getCompletion createCodeSearchAgent 15 (Throws e) appended ∧
          text = ("ERROR: Code search failed: " ++ describe e)%string ∧
          (length (List.filter is_assistant appended) = 15 →
           text = "ERROR: Code search failed: Max iterations (15) reached")).
Proof.
  unfold CodeSearchAgentTool_execute, try_catch, run, bind, push. cbn [fst snd].
  change (Z.to_nat (effectiveMaxIterations World Json createCodeSearchAgent)) with 15.
  destruct (run_loop_ends World Json JSON_parse getCompletion createCodeSearchAgent 15
              (mkAgent World (messages World s ++ [mkMessage user query None None])
                 (world World s))) as (appended & Hm & Hend).
  cbn [messages] in Hm. rewrite <- app_assoc in Hm.
  destruct (run_loop World Json JSON_parse getCompletion createCodeSearchAgent 15 _)
    as [[text|e] s'] eqn:Hrun; cbn [fst snd] in *.
  - exists text, s', appended. split; [done|]. split; [done|]. by left.
  - eexists _, s', appended.
    split; [done|]. split; [done|]. right. exists e. split; [done|]. split; [done|].
    destruct Hend as [_ [[Hlen ->]|[Hlen He]]]; [done|lia].
Qed.

End CodeSearch.

End AgentProperties.

(* ===================================================================== *)
(** ** IDEDiffApproval: approval through the merge window *)
(* ===================================================================== *)

Module IdeApproval.
Import Effects Effects.Notations.
Import Interactive (ApprovalResult, APPROVED, REJECTED, IDE_NOT_AVAILABLE).

Section Ide.

(** What the module reads and calls: [os.platform()], two environment
    variables (absent: [None]), [existsSync], the path of a fresh temporary
    file ([join(tmpdir(), `${prefix}-${Date.now()}.txt`)]), the [fs]
    functions, and the merge window: the spawn of IntelliJ and the wait for
    its [exit] (returns) or [error] (throws). *)
Variable World : Type.
Variable platform : string.
Variable HOME : option string.
Variable LOCALAPPDATA : option string.
Variable existsSync : string → World → bool.
Variable temp_path : string → World → string * World.
Variable fs_writeFile : string → string → World → Outcome unit * World.
Variable merge_window : string → list string → World → Outcome unit * World.
Variable fs_readFile : string → World → Outcome string * World.
Variable fs_unlink : string → World → Outcome unit * World.

(** [`${process.env.NAME}`] *)
Definition env (value : option string) : string := default "undefined" value.

Definition macPaths : list string :=
  ["/Applications/IntelliJ IDEA.app/Contents/MacOS/idea";
   "/Applications/IntelliJ IDEA CE.app/Contents/MacOS/idea";
   "/Applications/IntelliJ IDEA Ultimate.app/Contents/MacOS/idea";
   "/usr/local/bin/idea";
   env HOME ++ "/Applications/IntelliJ IDEA.app/Contents/MacOS/idea"]%string.

Definition winPaths : list string :=
  ["C:\Program Files\JetBrains\IntelliJ IDEA\bin\idea64.exe";
   "C:\Program Files (x86)\JetBrains\IntelliJ IDEA\bin\idea64.exe";
   env LOCALAPPDATA ++ "\JetBrains\Toolbox\apps\IDEA-U\ch-0\bin\idea64.exe"]%string.

Definition linuxPaths : list string :=
  ["/usr/bin/idea";
   "/usr/local/bin/idea";
   "/opt/idea/bin/idea.sh";
   env HOME ++ "/.local/share/JetBrains/Toolbox/apps/IDEA-U/ch-0/bin/idea.sh"]%string.

(** The installation paths searched on this platform, in order. *)
Definition searched : list string :=
  if String.eqb platform "darwin" then macPaths
  else if String.eqb platform "win32" then winPaths
  else linuxPaths.

(** [findIntelliJPath] *)
Definition findIntelliJPath (w : World) : option string :=
  List.find (λ path, existsSync path w) searched.

(** [isIntelliJAvailable] *)
Definition isIntelliJAvailable (w : World) : bool :=
  match findIntelliJPath w with Some _ => true | None => false end.

Definition call {A} (f : World → Outcome A * World) : M World A := f.

(** [readFileIfExists] *)
Definition readFileIfExists (path : string) : M World (option string) :=
  try_catch
    (let! content := call (fs_readFile path) in ret (Some content))
    (fun _ => ret None).

(** [cleanupTempFiles] *)
Fixpoint cleanupTempFiles (paths : list string) : M World unit :=
  match paths with
  | [] => ret tt
  | path :: rest =>
      do! try_catch (call (fs_unlink path)) (fun _ => ret tt) in
      cleanupTempFiles rest
  end.

(** [outputContent === newContent], of [string | null] and
    [string | undefined]. *)
Definition same_content (outputContent newContent : option string) : bool :=
  match outputContent, newContent with
  | Some output, Some proposed => String.eqb output proposed
  | _, _ => false
  end.

(** [showIntelliJDiffForApproval] *)
Definition showIntelliJDiffForApproval (oldContent newContent : option string)
    : M World ApprovalResult :=
  let! w := get in
  match findIntelliJPath w with
  | None => ret IDE_NOT_AVAILABLE
  | Some ideaPath =>
      let! basePath := (fun w => let '(p, w') := temp_path "base" w in (Returns p, w')) in
      let! proposedPath :=
        (fun w => let '(p, w') := temp_path "proposed" w in (Returns p, w')) in
      let! outputPath :=
        (fun w => let '(p, w') := temp_path "output" w in (Returns p, w')) in
      try_catch
        (do! call (fs_writeFile basePath (default "" oldContent)) in
         do! call (fs_writeFile proposedPath (default "" newContent)) in
         do! call (fs_writeFile outputPath (default "" oldContent)) in
         do! call (merge_window ideaPath ["merge"; basePath; proposedPath; outputPath]) in
         let! outputContent := readFileIfExists outputPath in
         do! cleanupTempFiles [basePath; proposedPath; outputPath] in
         if same_content outputContent newContent then ret APPROVED else ret REJECTED)
        (fun _ => ret IDE_NOT_AVAILABLE)
  end.

(** *** Properties *)

Lemma readFileIfExists_returns path w :
  (∃ content w', fs_readFile path w = (Returns content, w') ∧
                 readFileIfExists path w = (Returns (Some content), w')) ∨
  (∃ w', readFileIfExists path w = (Returns None, w')).
Proof.
  unfold readFileIfExists, try_catch, bind, call, ret.
  destruct (fs_readFile path w) as [[content|e] w']; [left|right]; by eexists _, _ || eexists.
Qed.

Lemma cleanupTempFiles_returns paths w :
  ∃ w', cleanupTempFiles paths w = (Returns tt, w').
Proof.
  revert w. induction paths as [|path paths IH]; intros w; [by eexists|].
  cbn [cleanupTempFiles]. unfold bind at 1, try_catch, call.
  destruct (fs_unlink path w) as [[[]|e] w1]; apply IH.
Qed.

Lemma find_first {A} (f : A → bool) (l : list A) (x : A) :
  List.find f l = Some x ↔
  ∃ before after, l = before ++ x :: after ∧ f x = true ∧
                  Forall (λ y, f y = false) before.
Proof.
  induction l as [|y l IH]; cbn [List.find].
  - split; [done|]. intros (before & after & Hl & _). by destruct before.
  - destruct (f y) eqn:Hy.
    + split.
      * intros [= ->]. by exists [], l.
      * intros ([|z before] & after & Hl & Hx & Hb); simplify_eq/=; [done|].
        inversion Hb; congruence.
    + rewrite IH. split.
      * intros (before & after & -> & Hx & Hb). exists (y :: before), after.
        by repeat constructor.
      * intros ([|z before] & after & Hl & Hx & Hb); simplify_eq/=; [congruence|].
        exists before, after. by inversion Hb.
Qed.

Lemma find_nothing {A} (f : A → bool) (l : list A) :
  List.find f l = None ↔ Forall (λ y, f y = false) l.
Proof.
  induction l as [|y l IH]; cbn [List.find]; [by split|].
  destruct (f y) eqn:Hy.
  - split; [done|]. inversion 1; congruence.
  - rewrite IH. split; [by constructor|by inversion 1].
Qed.

(** The merge window of one call, from the world [w] in which the call
    started: the three temporary paths are made, the three files are
    written (base and output with the old content, proposed with the new
    content), IntelliJ is started on them with [merge], and its process has
    exited in the world [closed]. *)
Definition merge_window_closed (ideaPath : string) (oldContent newContent : option string)
    (w : World) (basePath proposedPath outputPath : string) (closed : World) : Prop :=
  ∃ w1 w2 w3 w4 w5 w6,
    temp_path "base" w = (basePath, w1) ∧
    temp_path "proposed" w1 = (proposedPath, w2) ∧
    temp_path "output" w2 = (outputPath, w3) ∧
    fs_writeFile basePath (default "" oldContent) w3 = (Returns tt, w4) ∧
    fs_writeFile proposedPath (default "" newContent) w4 = (Returns tt, w5) ∧
    fs_writeFile outputPath (default "" oldContent) w5 = (Returns tt, w6) ∧
    merge_window ideaPath ["merge"; basePath; proposedPath; outputPath] w6
      = (Returns tt, closed).

(** What was read back from the output file of that merge window, once it
    had closed: its content, or [None] when the read threw. *)
Definition read_back (outputPath : string) (closed : World)
    (outputContent : option string) (w' : World) : Prop :=
  match outputContent with
  | Some content => fs_readFile outputPath closed = (Returns content, w')
  | None => ∃ e, fs_readFile outputPath closed = (Throws e, w')
  end.

Lemma readFileIfExists_read_back path w :
  ∃ outputContent w',
    readFileIfExists path w = (Returns outputContent, w') ∧
    read_back path w outputContent w'.
Proof.
  unfold readFileIfExists, try_catch, bind, call, ret, read_back.
  destruct (fs_readFile path w) as [[content|e] w'].
  - by exists (Some content), w'.
  - exists None, w'. split; [done|]. by exists e.
Qed.

Lemma read_back_unique path w c1 w1 c2 w2 :
  read_back path w c1 w1 → read_back path w c2 w2 → c1 = c2.
Proof.
  unfold read_back. destruct c1, c2; try done.
  - congruence.
  - intros H [e He]. congruence.
  - intros [e He] H. congruence.
Qed.

Lemma merge_window_closed_unique ideaPath oldContent newContent w b p o c b' p' o' c' :
  merge_window_closed ideaPath oldContent newContent w b p o c →
  merge_window_closed ideaPath oldContent newContent w b' p' o' c' →
  o' = o ∧ c' = c.
Proof.
  intros (w1 & w2 & w3 & w4 & w5 & w6 & H1 & H2 & H3 & H4 & H5 & H6 & H7)
         (v1 & v2 & v3 & v4 & v5 & v6 & G1 & G2 & G3 & G4 & G5 & G6 & G7).
  rewrite H1 in G1. simplify_eq. rewrite H2 in G2. simplify_eq.
  rewrite H3 in G3. simplify_eq. rewrite H4 in G4. simplify_eq.
  rewrite H5 in G5. simplify_eq. rewrite H6 in G6. simplify_eq.
  rewrite H7 in G7. by simplify_eq.
Qed.

(** The call, step by step: nothing found; or a write or the window threw;
    or the window closed, the output file was read back and the temporary
    files were removed. *)
Lemma showIntelliJDiffForApproval_steps oldContent newContent w :
  (findIntelliJPath w = None ∧
   showIntelliJDiffForApproval oldContent newContent w = (Returns IDE_NOT_AVAILABLE, w)) ∨
  (∃ ideaPath w',
     findIntelliJPath w = Some ideaPath ∧
     showIntelliJDiffForApproval oldContent newContent w = (Returns IDE_NOT_AVAILABLE, w') ∧
     ∀ b p o closed, ¬ merge_window_closed ideaPath oldContent newContent w b p o closed) ∨
  (∃ ideaPath basePath proposedPath outputPath closed outputContent w1 w',
     findIntelliJPath w = Some ideaPath ∧
     merge_window_closed ideaPath oldContent newContent w
       basePath proposedPath outputPath closed ∧
     read_back outputPath closed outputContent w1 ∧
     cleanupTempFiles [basePath; proposedPath; outputPath] w1 = (Returns tt, w') ∧
     showIntelliJDiffForApproval oldContent newContent w
     = (Returns (if same_content outputContent newContent then APPROVED else REJECTED),
        w')).
Proof.
  remember (showIntelliJDiffForApproval oldContent newContent w) as run eqn:Hrun.
  unfold showIntelliJDiffForApproval, bind at 1, get in Hrun.
  destruct (findIntelliJPath w) as [ideaPath|]; [right|by left].
  unfold bind at 1 2 3 in Hrun.
  destruct (temp_path "base" w) as [basePath w1] eqn:H1.
  destruct (temp_path "proposed" w1) as [proposedPath w2] eqn:H2.
  destruct (temp_path "output" w2) as [outputPath w3] eqn:H3.
  assert (Hnever : ∀ w' : World,
    run = (Returns IDE_NOT_AVAILABLE, w') →
    (∀ w4 w5 w6 closed,
       fs_writeFile basePath (default "" oldContent) w3 = (Returns tt, w4) →
       fs_writeFile proposedPath (default "" newContent) w4 = (Returns tt, w5) →
       fs_writeFile outputPath (default "" oldContent) w5 = (Returns tt, w6) →
       merge_window ideaPath ["merge"; basePath; proposedPath; outputPath] w6
         = (Returns tt, closed) → False) →
    ∃ ideaPath0 w'0,
      Some ideaPath = Some ideaPath0 ∧
      run = (Returns IDE_NOT_AVAILABLE, w'0) ∧
      ∀ b p o closed,
        ¬ merge_window_closed ideaPath0 oldContent newContent w b p o closed).
  { intros w' Hw' Hno. exists ideaPath, w'. split; [done|]. split; [done|].
    intros b p o closed (v1 & v2 & v3 & v4 & v5 & v6 & G1 & G2 & G3 & G4 & G5 & G6 & G7).
    rewrite H1 in G1. simplify_eq. rewrite H2 in G2. simplify_eq.
    rewrite H3 in G3. simplify_eq. by eapply Hno. }
  unfold try_catch, bind at 1, call in Hrun.
  destruct (fs_writeFile basePath (default "" oldContent) w3) as [[[]|e] w4] eqn:H4.
  2: { left. apply (Hnever w4); [done|]. intros ? ? ? ? E4 E5 E6 E7. simplify_eq; congruence. }
  unfold bind at 1 in Hrun.
  destruct (fs_writeFile proposedPath (default "" newContent) w4) as [[[]|e] w5] eqn:H5.
  2: { left. apply (Hnever w5); [done|]. intros ? ? ? ? E4 E5 E6 E7. simplify_eq; congruence. }
  unfold bind at 1 in Hrun.
  destruct (fs_writeFile outputPath (default "" oldContent) w5) as [[[]|e] w6] eqn:H6.
  2: { left. apply (Hnever w6); [done|]. intros ? ? ? ? E4 E5 E6 E7. simplify_eq; congruence. }
  unfold bind at 1 in Hrun.
  destruct (merge_window ideaPath ["merge"; basePath; proposedPath; outputPath] w6)
    as [[[]|e] w7] eqn:H7.
  2: { left. apply (Hnever w7); [done|]. intros ? ? ? ? E4 E5 E6 E7. simplify_eq; congruence. }
  right. unfold bind at 1 in Hrun.
  destruct (readFileIfExists_read_back outputPath w7)
    as (outputContent & w8 & Hr & Hread).
  rewrite Hr in Hrun. unfold bind in Hrun.
  destruct (cleanupTempFiles_returns [basePath; proposedPath; outputPath] w8)
    as (w9 & Hclean). rewrite Hclean in Hrun.
  exists ideaPath, basePath, proposedPath, outputPath, w7, outputContent, w8, w9.
  split; [done|]. split; [by exists w1, w2, w3, w4, w5, w6|].
  split; [done|]. split; [done|]. rewrite Hrun.
  by destruct (same_content outputContent newContent).
Qed.

Lemma same_content_spec outputContent newContent :
  same_content outputContent newContent = true ↔
  ∃ proposed, newContent = Some proposed ∧ outputContent = Some proposed.
Proof.
  destruct outputContent as [output|], newContent as [proposed|]; cbn [same_content].
  - rewrite String.eqb_eq. split; [intros ->; by eexists|].
    by intros (? & [= <-] & [= <-]).
  - split; [done|]. by intros (? & ? & ?).
  - split; [done|]. by intros (? & ? & ?).
  - split; [done|]. by intros (? & ? & ?).
Qed.

(** X19. Approval through IntelliJ.  [findIntelliJPath] answers with the
    first path of the platform's list that exists, and with [null] exactly
    when none exists.  [showIntelliJDiffForApproval] never throws.  When no
    installation is found it answers IDE_NOT_AVAILABLE and has called
    nothing.  It answers APPROVED exactly when the merge window of this
    call was opened on the installation found and closed, and the output
    file of this call, read in the world the closing left, holds exactly the
    proposed content, which must be defined.  It answers REJECTED only when
    that window closed (and the content read back, if any, differs or the
    proposed content is undefined); every other run answers
    IDE_NOT_AVAILABLE. *)
Theorem ide_approval_needs_matching_output (oldContent newContent : option string)
    (w : World) :
  (∀ path, findIntelliJPath w = Some path ↔
     ∃ before after, searched = before ++ path :: after ∧
                     existsSync path w = true ∧
                     Forall (λ p, existsSync p w = false) before) ∧
  (findIntelliJPath w = None ↔ Forall (λ p, existsSync p w = false) searched) ∧
  ∃ result w',
    showIntelliJDiffForApproval oldContent newContent w = (Returns result, w') ∧
    (findIntelliJPath w = None → result = IDE_NOT_AVAILABLE ∧ w' = w) ∧
    (result = APPROVED ↔
     ∃ ideaPath basePath proposedPath outputPath closed proposed w1,
       findIntelliJPath w = Some ideaPath ∧
       merge_window_closed ideaPath oldContent newContent w
         basePath proposedPath outputPath closed ∧
       fs_readFile outputPath closed = (Returns proposed, w1) ∧
       newContent = Some proposed) ∧
    (result = REJECTED →
     ∃ ideaPath basePath proposedPath outputPath closed outputContent w1,
       findIntelliJPath w = Some ideaPath ∧
       merge_window_closed ideaPath oldContent newContent w
         basePath proposedPath outputPath closed ∧
       read_back outputPath closed outputContent w1 ∧
       (outputContent = None ∨ newContent = None ∨ outputContent ≠ newContent)).
Proof.
  split; [intros path; apply (find_first (λ p, existsSync p w))|].
  split; [apply (find_nothing (λ p, existsSync p w))|].
  destruct (showIntelliJDiffForApproval_steps oldContent newContent w)
    as [[Hnone ->]|[(ideaPath & w' & Hfound & -> & Hnever)|
        (ideaPath & basePath & proposedPath & outputPath & closed & outputContent &
         w1 & w' & Hfound & Hwindow & Hread & Hclean & ->)]].
  - exists IDE_NOT_AVAILABLE, w. split; [done|]. split; [done|]. split; [|done].
    split; [done|]. intros (? & ? & ? & ? & ? & ? & ? & ? & _). congruence.
  - exists IDE_NOT_AVAILABLE, w'. split; [done|]. split; [congruence|].
    split; [|done]. split; [done|].
    intros (ideaPath' & b & p & o & c & ? & ? & Hf & Hw & _).
    rewrite Hfound in Hf. simplify_eq. by destruct (Hnever b p o c).
  - eexists _, w'. split; [reflexivity|]. split; [congruence|].
    destruct (same_content outputContent newContent) eqn:Hsame; (split; [split|]).
    + intros _. apply same_content_spec in Hsame as (proposed & -> & ->).
      by exists ideaPath, basePath, proposedPath, outputPath, closed, proposed, w1.
    + done.
    + done.
    + done.
    + intros (ideaPath' & b & p & o & c & proposed & v1 & Hf & Hw & Hr & ->).
      rewrite Hfound in Hf. simplify_eq.
      destruct (merge_window_closed_unique _ _ _ _ _ _ _ _ _ _ _ _ Hwindow Hw)
        as [-> ->].
      assert (outputContent = Some proposed) as ->
        by (eapply read_back_unique; [exact Hread|exact Hr]).
      cbn [same_content] in Hsame. by rewrite String.eqb_refl in Hsame.
    + intros _.
      exists ideaPath, basePath, proposedPath, outputPath, closed, outputContent, w1.
      split; [done|]. split; [done|]. split; [done|].
      destruct outputContent as [output|]; [|by left].
      destruct newContent as [proposed|]; [|by right; left].
      right; right. intros [= ->]. cbn [same_content] in Hsame.
      by rewrite String.eqb_refl in Hsame.
Qed.

End Ide.

End IdeApproval.

(* ===================================================================== *)
(** ** DiffViewer: the lines of the unified diff *)
(* ===================================================================== *)

Module DiffLayout.
Import DiffViewer DiffProperties DiffFormat.

(** [line.content] *)
Definition content (line : DiffLine) : string :=
  match line with Context c | Added c | Removed c => c end.

(** A text without a line break. *)
Definition single_line (s : string) : Prop := split_lines s = [s].

(** [s.startsWith(mark)] for a one-character mark. *)
Definition starts_with_char (mark : ascii) (s : string) : bool :=
  match s with
  | String c _ => Ascii.eqb c mark
  | EmptyString => false
  end.

(** The lines of a text that begin with [mark]. *)
Definition marked_lines (mark : ascii) (output : string) : list string :=
  List.filter (starts_with_char mark) (split_lines output).

(** All lines printed so far, chunk after chunk. *)
Definition printed_lines (st : FormatState) : list string :=
  flat_map split_lines (chunks st) ++ currentChunk st.

(** *** Splitting and joining *)

Lemma split_lines_nonempty s : split_lines s ≠ [].
Proof.
  destruct s as [|c s]; [done|]. cbn [split_lines].
  destruct (Ascii.eqb c "010"); [done|]. by destruct (split_lines s).
Qed.

Lemma split_lines_cons c s :
  split_lines (String c s)
  = if Ascii.eqb c "010" then "" :: split_lines s
    else match split_lines s with
         | l :: ls => String c l :: ls
         | [] => [String c ""]
         end.
Proof. done. Qed.

Lemma split_lines_app a b :
  split_lines (a ++ nl ++ b) = split_lines a ++ split_lines b.
Proof.
  induction a as [|c a IH]; [done|].
  change (String c a ++ nl ++ b)%string with (String c (a ++ nl ++ b)).
  rewrite !split_lines_cons, IH.
  destruct (Ascii.eqb c "010"); [done|].
  pose proof (split_lines_nonempty a). by destruct (split_lines a).
Qed.

Lemma split_lines_single s : Forall single_line (split_lines s).
Proof.
  induction s as [|c s IH]; [by constructor|].
  rewrite split_lines_cons. destruct (Ascii.eqb c "010") eqn:Hc.
  - by constructor.
  - pose proof (split_lines_nonempty s).
    destruct (split_lines s) as [|l ls]; [done|].
    inversion IH as [|? ? Hl Hls]; subst. constructor; [|done].
    unfold single_line in *. by rewrite split_lines_cons, Hc, Hl.
Qed.

Lemma single_line_mark (mark : ascii) s :
  Ascii.eqb mark "010" = false → single_line s → single_line (String mark s).
Proof. unfold single_line. intros Hm Hs. by rewrite split_lines_cons, Hm, Hs. Qed.

Lemma split_join_lines ls :
  ls ≠ [] → Forall single_line ls → split_lines (join nl ls) = ls.
Proof.
  induction ls as [|l ls IH]; [done|]. intros _ Hall.
  inversion Hall as [|? ? Hl Hls]; subst.
  destruct ls as [|l2 ls]; [done|].
  change (join nl (l :: l2 :: ls)) with (l ++ nl ++ join nl (l2 :: ls))%string.
  rewrite split_lines_app, Hl, IH; done.
Qed.

(** Between two chunks there is one empty line. *)
Lemma marked_lines_chunks mark cs :
  cs ≠ [] →
  marked_lines mark (join (nl ++ nl) cs)
  = List.filter (starts_with_char mark) (flat_map split_lines cs).
Proof.
  unfold marked_lines. induction cs as [|c cs IH]; [done|]. intros _.
  destruct cs as [|c2 cs]; [cbn [flat_map]; by rewrite app_nil_r|].
  change (join (nl ++ nl) (c :: c2 :: cs))
    with (c ++ (nl ++ nl) ++ join (nl ++ nl) (c2 :: cs))%string.
  rewrite str_app_assoc, split_lines_app.
  change (nl ++ join (nl ++ nl) (c2 :: cs))%string
    with ("" ++ nl ++ join (nl ++ nl) (c2 :: cs))%string.
  rewrite split_lines_app. cbn [flat_map].
  rewrite !List.filter_app, IH by done.
  cbn [flat_map]. by rewrite List.filter_app.
Qed.

(** *** The loop prints each change once *)

Section Marks.

(** A mark and the kind of line it marks: [+] and Added, or [-] and
    Removed. *)
Variable mark : ascii.
Variable marks : DiffLine → bool.
Hypothesis marks_render : ∀ line, starts_with_char mark (render line) = marks line.
Hypothesis marks_no_context : ∀ c, marks (Context c) = false.

Variable diffLines : list DiffLine.
Variable contextLines : Z.
Hypothesis single_lines : Forall (λ line, single_line (content line)) diffLines.

Lemma render_single line : single_line (content line) → single_line (render line).
Proof. destruct line; by apply single_line_mark. Qed.

Lemma leading_context_lines i :
  Forall single_line (leading_context diffLines contextLines i) ∧
  List.filter (starts_with_char mark) (leading_context diffLines contextLines i) = [].
Proof.
  unfold leading_context.
  match goal with |- context [seq ?start ?len] => generalize (seq start len) end.
  intros indices. induction indices as [|j indices [IH1 IH2]]; [done|].
  cbn [flat_map]. rewrite List.filter_app, IH2, app_nil_r.
  destruct (diffLines !! j) as [[c|c|c]|] eqn:Hj; try done.
  split.
  - apply Forall_app. split; [|done]. constructor; [|done].
    apply (render_single (Context c)).
    by apply (Forall_lookup_1 _ _ _ _ single_lines Hj).
  - cbn [List.filter]. change (" " ++ c)%string with (render (Context c)).
    by rewrite marks_render, marks_no_context.
Qed.

(** What the loop has printed after the lines [processed]: single lines,
    of which those that begin with the mark are the marked lines of
    [processed], in order. *)
Definition printed_once (processed : list DiffLine) (st : FormatState) : Prop :=
  Forall single_line (currentChunk st) ∧
  List.filter (starts_with_char mark) (printed_lines st)
  = render <$> List.filter marks processed.

Lemma printed_lines_push chunks cur count :
  cur ≠ [] → Forall single_line cur →
  printed_lines (mkFormat (chunks ++ [join nl cur]) [] count)
  = printed_lines (mkFormat chunks cur 0).
Proof.
  intros Hne Hcur. unfold printed_lines. cbn [DiffFormat.chunks currentChunk].
  rewrite flat_map_app. cbn [flat_map].
  by rewrite split_join_lines, !app_nil_r.
Qed.

Lemma printed_lines_add chunks cur more count count' :
  printed_lines (mkFormat chunks (cur ++ more) count)
  = printed_lines (mkFormat chunks cur count') ++ more.
Proof. unfold printed_lines. cbn. by rewrite app_assoc. Qed.

Lemma format_step_printed_once processed st i line :
  single_line (content line) →
  printed_once processed st →
  printed_once (processed ++ [line]) (format_step diffLines contextLines st i line).
Proof.
  intros Hline [Hcur Hprinted]. unfold printed_once.
  rewrite List.filter_app, fmap_app. cbn [List.filter].
  destruct st as [chunks cur count]. cbn [currentChunk] in Hcur.
  destruct line as [c|c|c]; unfold format_step; cbn [currentChunk DiffFormat.chunks contextCount].
  - rewrite marks_no_context, app_nil_r.
    destruct (0 <? length cur) eqn:Hlen; [|done].
    destruct (count + 1 <=? contextLines * 2)%Z.
    + split.
      * apply Forall_app. split; [done|]. constructor; [|done].
        by apply (render_single (Context c)).
      * rewrite (printed_lines_add _ _ _ _ count), List.filter_app, Hprinted.
        cbn [List.filter]. by rewrite marks_render, marks_no_context, app_nil_r.
    + split; [done|]. rewrite printed_lines_push; [|by destruct cur|done].
      by rewrite <- Hprinted.
  - pose proof (leading_context_lines i) as [Hlead1 Hlead2].
    split.
    + apply Forall_app. split; [|constructor; [by apply (render_single (Added c))|done]].
      destruct ((length cur =? 0) && (count =? 0)%Z); [|done].
      apply Forall_app. by split.
    + rewrite (printed_lines_add _ _ _ _ count), List.filter_app.
      cbn [List.filter]. rewrite marks_render. f_equal; [|by destruct (marks (Added c))].
      destruct ((length cur =? 0) && (count =? 0)%Z); [|done].
      by rewrite (printed_lines_add _ _ _ _ count), List.filter_app, Hlead2, app_nil_r.
  - pose proof (leading_context_lines i) as [Hlead1 Hlead2].
    split.
    + apply Forall_app. split; [|constructor; [by apply (render_single (Removed c))|done]].
      destruct ((length cur =? 0) && (count =? 0)%Z); [|done].
      apply Forall_app. by split.
    + rewrite (printed_lines_add _ _ _ _ count), List.filter_app.
      cbn [List.filter]. rewrite marks_render. f_equal; [|by destruct (marks (Removed c))].
      destruct ((length cur =? 0) && (count =? 0)%Z); [|done].
      by rewrite (printed_lines_add _ _ _ _ count), List.filter_app, Hlead2, app_nil_r.
Qed.

Lemma format_loop_printed_once processed i rest st :
  Forall (λ line, single_line (content line)) rest →
  printed_once processed st →
  printed_once (processed ++ rest) (format_loop diffLines contextLines i rest st).
Proof.
  revert processed i st. induction rest as [|line rest IH]; intros processed i st Hrest Hst.
  - by rewrite app_nil_r.
  - inversion Hrest; subst. cbn [format_loop].
    rewrite (cons_middle line processed rest), app_assoc.
    apply IH; [done|]. by apply format_step_printed_once.
Qed.

Lemma final_chunks_lines processed st :
  printed_once processed st →
  List.filter (starts_with_char mark) (flat_map split_lines (final_chunks st))
  = render <$> List.filter marks processed.
Proof.
  intros [Hcur <-]. unfold final_chunks, printed_lines.
  destruct (currentChunk st) as [|l cur] eqn:Hc; cbn [length Nat.ltb Nat.leb].
  - by rewrite app_nil_r.
  - rewrite flat_map_app. cbn [flat_map].
    by rewrite split_join_lines, app_nil_r.
Qed.

Lemma formatUnifiedDiff_marked_lines :
  starts_with_char mark "(no changes)" = false →
  marked_lines mark (formatUnifiedDiff diffLines contextLines)
  = render <$> List.filter marks diffLines.
Proof.
  intros Hmark. unfold formatUnifiedDiff.
  pose proof (final_chunks_lines diffLines
    (format_loop diffLines contextLines 0 diffLines (mkFormat [] [] 0))) as Hfinal.
  rewrite <- Hfinal.
  2: { apply (format_loop_printed_once [] 0 diffLines); [done|]. by split. }
  destruct (final_chunks _) as [|chunk more] eqn:Hf; cbn [length Nat.eqb].
  - unfold marked_lines. change (split_lines "(no changes)") with ["(no changes)"].
    cbn [List.filter flat_map]. by rewrite Hmark.
  - by apply marked_lines_chunks.
Qed.

End Marks.

(** X20. The unified diff prints every change exactly once and in order:
    for a diff whose contents are single lines, the lines of
    [formatUnifiedDiff]'s output that begin with [+] are exactly the Added
    lines of the diff, each as [+] followed by its content and in the order
    of the diff, and the lines that begin with [-] are exactly the Removed
    lines, whatever [contextLines] is; no context line, chunk separator or
    the text [(no changes)] begins with either mark. *)
Theorem formatUnifiedDiff_prints_each_change_once (diffLines : list DiffLine)
    (contextLines : Z) :
  Forall (λ line, single_line (content line)) diffLines →
  marked_lines "+" (formatUnifiedDiff diffLines contextLines)
    = render <$> List.filter is_added diffLines ∧
  marked_lines "-" (formatUnifiedDiff diffLines contextLines)
    = render <$> List.filter is_removed diffLines.
Proof.
  intros Hsingle. split.
  - apply formatUnifiedDiff_marked_lines; [by intros []|done..].
  - apply formatUnifiedDiff_marked_lines; [by intros []|done..].
Qed.

Lemma formatUnifiedDiff_prints_each_change_once_witness :
  let diffLines := [Context "a"; Removed "+b"; Added "-c"; Context "d"; Context "e";
                    Context "f"; Added "g"] in
  formatUnifiedDiff diffLines 1
    = join_lines [" a"; "-+b"; "+-c"; " d"; " e"; ""; " f"; "+g"] ∧
  marked_lines "+" (formatUnifiedDiff diffLines 1) = ["+-c"; "+g"] ∧
  marked_lines "-" (formatUnifiedDiff diffLines 1) = ["-+b"].
Proof.
  split; [vm_compute; reflexivity|].
  apply (formatUnifiedDiff_prints_each_change_once
           [Context "a"; Removed "+b"; Added "-c"; Context "d"; Context "e";
            Context "f"; Added "g"] 1).
  by repeat constructor.
Defined.

(** *** The diff of two texts *)

Lemma at_index_single l i : Forall single_line l → single_line (at_index l i).
Proof.
  intros Hl. unfold at_index. destruct (l !! i) as [s|] eqn:Hi; [|done].
  by apply (Forall_lookup_1 _ _ _ _ Hl Hi).
Qed.

Lemma skip_removed_single fuel oldLines lcs k i d i' d' :
  Forall single_line oldLines →
  Forall (λ line, single_line (content line)) d →
  skip_removed fuel oldLines lcs k i d = Some (i', d') →
  Forall (λ line, single_line (content line)) d'.
Proof.
  intros Hold. revert i d. induction fuel as [|fuel IH]; intros i d Hd; [done|].
  cbn [skip_removed].
  destruct ((i <? length oldLines) && negb (same_line oldLines i lcs k)).
  - apply IH. apply Forall_app. split; [done|].
    constructor; [|done]. by apply at_index_single.
  - by intros [= <- <-].
Qed.

Lemma diff_walk_single fuel oldLines newLines lcs i j k d d' :
  Forall single_line oldLines → Forall single_line newLines →
  Forall (λ line, single_line (content line)) d →
  diff_walk fuel oldLines newLines lcs i j k d = Some d' →
  Forall (λ line, single_line (content line)) d'.
Proof.
  intros Hold Hnew. revert i j k d.
  induction fuel as [|fuel IH]; intros i j k d Hd; [done|].
  assert (Hpush : ∀ line, single_line (content line) →
            Forall (λ line, single_line (content line)) (d ++ [line])).
  { intros line Hline. apply Forall_app. split; [done|]. by constructor. }
  cbn [diff_walk].
  destruct ((i <? length oldLines) || (j <? length newLines)); [|by intros [= <-]].
  destruct ((k <? length lcs) && (i <? length oldLines) && same_line oldLines i lcs k).
  { apply IH, Hpush. by apply at_index_single. }
  destruct ((k <? length lcs) && (j <? length newLines) && same_line newLines j lcs k).
  { destruct (skip_removed fuel oldLines lcs k i d) as [[i1 d1]|] eqn:Hskip; [|done].
    apply IH. exact (skip_removed_single _ _ _ _ _ _ _ _ Hold Hd Hskip). }
  destruct ((i <? length oldLines)
            && (negb (k <? length lcs) || negb (same_line oldLines i lcs k)));
    destruct ((j <? length newLines)
              && (negb (k <? length lcs) || negb (same_line newLines j lcs k)));
    apply IH; try done.
  - apply Forall_app. split; [apply Hpush|constructor; [|done]];
      by apply (at_index_single _ _).
  - apply Hpush. by apply (at_index_single _ _).
  - apply Hpush. by apply (at_index_single _ _).
Qed.

Lemma computeDiff_single oldContent newContent d :
  computeDiff (split_lines oldContent) (split_lines newContent) = Some d →
  Forall (λ line, single_line (content line)) d.
Proof.
  unfold computeDiff, computeDiff_fuel. intros Hd.
  destruct (computeLCS_fuel _ _ _) as [lcs|]; [|done]. cbn [mbind option_bind] in Hd.
  eapply diff_walk_single; [apply split_lines_single..|constructor|exact Hd].
Qed.

(** X21. What [generateDiff] shows agrees with what [computeStats]
    counts.  Both always return.  For two non-empty texts the diff has as
    many lines beginning with [+] as [computeStats] reports additions plus
    modifications, and as many lines beginning with [-] as it reports
    deletions plus modifications.  For a new file (no or empty old text)
    the summary names the number of lines that [computeStats] reports as
    additions, and for a deleted file the number it reports as
    deletions. *)
Theorem generateDiff_agrees_with_computeStats (oldContent newContent : option string)
    (contextLines : Z) :
  ∃ output stats,
    generateDiff oldContent newContent contextLines = Some output ∧
    computeStats oldContent newContent = Some stats ∧
    (truthy oldContent = true → truthy newContent = true →
     length (marked_lines "+" output) = additions stats + modifications stats ∧
     length (marked_lines "-" output) = deletions stats + modifications stats) ∧
    (truthy oldContent = false → truthy newContent = true →
     output = ("New file" ++ nl ++ "+++ " ++ pretty (additions stats) ++ " lines")%string) ∧
    (truthy oldContent = true → truthy newContent = false →
     output = ("Deleted file" ++ nl ++ "--- " ++ pretty (deletions stats) ++ " lines")%string).
Proof.
  unfold generateDiff, computeStats.
  destruct (truthy oldContent) eqn:Ho, (truthy newContent) eqn:Hn; cbn [negb andb];
    try (by eexists _, _).
  destruct (computeDiff_total (split_lines (text oldContent))
              (split_lines (text newContent))) as [d Hd].
  rewrite Hd. cbn [mbind option_bind]. rewrite count_changes_raw.
  eexists _, _. split; [done|]. split; [done|]. split; [|by split].
  intros _ _. cbn [additions deletions modifications].
  pose proof (computeDiff_single _ _ _ Hd) as Hsingle.
  rewrite (formatUnifiedDiff_marked_lines "+" is_added) by (done || by intros []).
  rewrite (formatUnifiedDiff_marked_lines "-" is_removed) by (done || by intros []).
  rewrite !length_fmap. unfold raw_added, raw_removed. lia.
Qed.

End DiffLayout.

(* ===================================================================== *)
(** ** The entry point: arguments, mode and the tools of the agent *)
(* ===================================================================== *)

Module Main.
Import Effects Agent AgentProperties.

(** What [parseArgs] returns. *)
Record ParsedArgs : Type := mkParsedArgs {
  projectPath : string;
  task : string;
  brave : bool;
  interactive : bool;
  userId : option string
}.

(** [parseArgs], on [process.argv.slice(2)]; [None]: [process.exit(1)]. *)
Definition parseArgs (args : list string) : option ParsedArgs :=
  match args with
  | projectPath :: task :: _ =>
      let userId :=
        match list_find (λ arg, arg = "--user") args with
        | Some (userIndex, _) =>
            match args !! (userIndex + 1) with
            | Some "" | None => None
            | Some value => Some value
            end
        | None => None
        end in
      Some (mkParsedArgs projectPath task
              (bool_decide ("--brave" ∈ args))
              (bool_decide ("--interactive" ∈ args))
              userId)
  | _ => None
  end.

(** The confirmation handler [main] constructs. *)
Inductive Mode : Type := Brave | Interactive | Safe.

Definition mode (parsed : ParsedArgs) : Mode :=
  if brave parsed then Brave
  else if interactive parsed then Interactive
  else Safe.

(** A handler without fields, beside the fields and the terminal of the
    interactive one. *)
Definition stateless {S} (h : Tools.ConfirmationHandler unit)
    : Tools.ConfirmationHandler S :=
  Tools.mkConfirmationHandler
    (λ options s,
       '(c, _) ← Tools.requestFileWriteConfirmation h options (); Some (c, s))
    (λ command s,
       '(c, _) ← Tools.requestShellCommandConfirmation h command (); Some (c, s)).

Definition confirmationHandler (m : Mode)
    : Tools.ConfirmationHandler (Interactive.Handler * Interactive.Terminal) :=
  match m with
  | Brave => stateless Tools.BraveConfirmationHandler
  | Interactive => Tools.InteractiveConfirmationHandler
  | Safe => stateless Tools.SafeConfirmationHandler
  end.

(** *** The mode of a run *)

(** X23. Which mode a run is in, and what the default is.  [parseArgs]
    stops the program exactly when fewer than two arguments are given.
    Otherwise the run is in brave mode exactly when [--brave] is among the
    arguments (in any position, the first two included), in interactive
    mode exactly when [--interactive] is among them and [--brave] is not,
    and in safe mode otherwise.  In safe mode, as in brave mode, the handler
    approves whatever it is asked and asks nobody: a [create__file] call
    with a valid path and content on a writable file system writes the
    file. *)
Theorem safe_mode_approves_like_brave_mode (args : list string) :
  (parseArgs args = None ↔ length args < 2) ∧
  ∀ parsed, parseArgs args = Some parsed →
    (mode parsed = Brave ↔ "--brave" ∈ args) ∧
    (mode parsed = Interactive ↔ "--interactive" ∈ args ∧ ("--brave" ∉ args)) ∧
    (mode parsed = Safe ↔ ("--brave" ∉ args) ∧ ("--interactive" ∉ args)) ∧
    (mode parsed ≠ Interactive →
     ∀ World (fileSystem : Tools.FileSystemProvider World) basename platform
       child_process path content w j s,
       Tools.canWrite fileSystem = true →
       ToolValidation.validatePath path = ToolValidation.valid →
       ToolValidation.validateContent (JsString.js content) = ToolValidation.valid →
       ∃ result w',
         Tools.observed World _ fileSystem (confirmationHandler (mode parsed))
           basename platform child_process (Tools.create__file path content)
           (Tools.mkToolState (w, j) s)
         = Some (Returns result,
                 Tools.mkToolState (w', j ++ [Tools.Wrote path content]) s)).
Proof.
  split.
  { destruct args as [|? [|? ?]]; cbn; (split; [done || lia|]); first [done|lia]. }
  intros parsed Hparsed.
  destruct args as [|projectPath_ [|task_ args]]; [done..|].
  cbn [parseArgs] in Hparsed. injection Hparsed as <-.
  unfold mode. cbn [brave interactive].
  set (all := projectPath_ :: task_ :: args).
  destruct (bool_decide_reflect ("--brave" ∈ all)) as [Hb|Hb];
    destruct (bool_decide_reflect ("--interactive" ∈ all)) as [Hi|Hi].
  all: repeat split; try done; try (by intros []); try (by intros [? ?]).
  all: intros _ World fileSystem basename platform child_process path content w j s
         Hwrite Hpath Hcontent.
  all: by apply (Tools.observed_create_approved World _ fileSystem _ basename platform
                   child_process path content (Tools.mkToolState (w, j) s)).
Qed.

(** A run without flags is in safe mode. *)
Lemma safe_mode_approves_like_brave_mode_witness :
  let args := ["/home/me/project"; "add a test"; "--user"; "me"] in
  parseArgs args
    = Some (mkParsedArgs "/home/me/project" "add a test" false false (Some "me")) ∧
  mode (mkParsedArgs "/home/me/project" "add a test" false false (Some "me")) = Safe.
Proof.
  cbv zeta. split; [vm_compute; reflexivity|].
  pose proof (proj2 (safe_mode_approves_like_brave_mode
    ["/home/me/project"; "add a test"; "--user"; "me"])
    (mkParsedArgs "/home/me/project" "add a test" false false (Some "me")) eq_refl)
    as (_ & _ & Hsafe & _).
  apply Hsafe. split; intros Hin; by repeat (apply elem_of_cons in Hin as [?|Hin]; [done|]);
    apply elem_of_nil in Hin.
Defined.

Section Registry.

Variable World : Type.
Variable Json : Type.

(** The [execute] methods of the six built-in tools, and the adapters that
    discovery returned. *)
Variable list_directory : Json → World → Outcome string * World.
Variable read_file : Json → World → Outcome string * World.
Variable create_file : Json → World → Outcome string * World.
Variable edit_file : Json → World → Outcome string * World.
Variable execute_shell_command : Json → World → Outcome string * World.
Variable find_in_codebase_agent : Json → World → Outcome string * World.
Variable mcpTools : list (Tool World Json).
Variable systemPrompt : string.

Definition fileSystemTools : list (Tool World Json) :=
  [mkTool World Json "list__directory" list_directory;
   mkTool World Json "read__file" read_file;
   mkTool World Json "create__file" create_file;
   mkTool World Json "edit__file" edit_file;
   mkTool World Json "execute__shell_command" execute_shell_command].

Definition codeSearchTool : Tool World Json :=
  mkTool World Json "__find_in_codebase_agent__" find_in_codebase_agent.

(** The configuration [main] gives the agent: the built-in tools, then the
    discovered tools, then the code search tool. *)
Definition config : AIAgentConfig World Json :=
  mkConfig World Json systemPrompt
    (fileSystemTools ++ mcpTools ++ [codeSearchTool]) (Some 20%Z).

(** X22. A discovered remote tool replaces a built-in tool of the same
    name.  In the agent that [main] builds, the name of a discovered tool
    other than [__find_in_codebase_agent__] resolves to the last discovered
    tool of that name, also when the name is [list__directory],
    [read__file], [create__file], [edit__file] or [execute__shell_command];
    a built-in file or shell tool answers only when no discovered tool has
    its name.  The code search tool, added last, is never replaced. *)
Theorem discovered_tools_replace_builtin_tools (toolName : string) :
  toolMap World Json config !! "__find_in_codebase_agent__" = Some codeSearchTool ∧
  (toolName ≠ "__find_in_codebase_agent__" →
   toolMap World Json config !! toolName
   = match last (registered World Json toolName mcpTools) with
     | Some remote => Some remote
     | None => last (registered World Json toolName fileSystemTools)
     end) ∧
  (∀ earlier t later,
     mcpTools = earlier ++ t :: later →
     name World Json t ≠ "__find_in_codebase_agent__" →
     Forall (λ t', name World Json t' ≠ name World Json t) later →
     toolMap World Json config !! name World Json t = Some t).
Proof.
  assert (Hlookup : ∀ n,
    toolMap World Json config !! n
    = match last (registered World Json n [codeSearchTool]) with
      | Some t => Some t
      | None =>
          match last (registered World Json n mcpTools) with
          | Some remote => Some remote
          | None => last (registered World Json n fileSystemTools)
          end
      end).
  { intros n. rewrite toolMap_lookup. cbn [tools config]. unfold registered.
    rewrite !List.filter_app, !last_app.
    by repeat destruct (last _). }
  assert (Hother : ∀ n, n ≠ "__find_in_codebase_agent__" →
            last (registered World Json n [codeSearchTool]) = None).
  { intros n Hn. unfold registered. cbn [List.filter name codeSearchTool].
    by rewrite bool_decide_eq_false_2. }
  split; [|split].
  - rewrite Hlookup. unfold registered. cbn [List.filter name codeSearchTool].
    by rewrite bool_decide_eq_true_2.
  - intros Hn. by rewrite Hlookup, Hother.
  - intros earlier t later -> Hn Hlater. rewrite Hlookup, Hother by done.
    unfold registered. rewrite List.filter_app. cbn [List.filter].
    rewrite bool_decide_eq_true_2 by done.
    apply registered_nil in Hlater. unfold registered in Hlater. rewrite Hlater.
    by rewrite last_snoc.
Qed.

End Registry.

End Main.

(* ===================================================================== *)
(** ** DiffViewer: the new side of a diff, and the statistics in closed form *)
(* ===================================================================== *)

Module DiffNewSide.
Import DiffViewer DiffProperties.

(** The lines a diff gives the new text, in order: the content of each
    Context and Added line, with whether it is an Added one. *)
Fixpoint new_side (diffLines : list DiffLine) : list (bool * string) :=
  match diffLines with
  | [] => []
  | Context c :: rest => (false, c) :: new_side rest
  | Added c :: rest => (true, c) :: new_side rest
  | Removed _ :: rest => new_side rest
  end.

(** Every Added line stands where the new text has it. *)
Definition added_in_place (diffLines : list DiffLine) (newLines : list string) : Prop :=
  ∀ position c, new_side diffLines !! position = Some (true, c) →
                newLines !! position = Some c.

Lemma new_side_app d1 d2 : new_side (d1 ++ d2) = new_side d1 ++ new_side d2.
Proof. induction d1 as [|[c|c|c] d1 IH]; cbn [app new_side]; by rewrite ?IH. Qed.

Lemma new_side_length d : length (new_side d) = length (contexts d) + raw_added d.
Proof.
  unfold raw_added.
  induction d as [|[c|c|c] d IH]; cbn [new_side contexts List.filter is_added length];
    lia.
Qed.

Lemma added_in_place_context d newLines c :
  added_in_place d newLines → added_in_place (d ++ [Context c]) newLines.
Proof.
  intros Hd position c'. rewrite new_side_app. cbn [new_side].
  intros [Hp|[_ Hp]]%lookup_app_Some; [by apply Hd|].
  by destruct (position - length (new_side d)).
Qed.

Lemma added_in_place_removed d newLines c :
  added_in_place d newLines → added_in_place (d ++ [Removed c]) newLines.
Proof.
  intros Hd position c'. rewrite new_side_app. cbn [new_side].
  rewrite app_nil_r. apply Hd.
Qed.

Lemma added_in_place_added d newLines :
  added_in_place d newLines →
  length (new_side d) < length newLines →
  added_in_place (d ++ [Added (at_index newLines (length (new_side d)))]) newLines.
Proof.
  intros Hd Hj position c'. rewrite new_side_app. cbn [new_side].
  intros [Hp|[Hge Hp]]%lookup_app_Some; [by apply Hd|].
  destruct (position - length (new_side d)) as [|n] eqn:Hn; [|done].
  assert (position = length (new_side d)) as -> by lia.
  simplify_eq/=. unfold at_index.
  destruct (lookup_lt_is_Some_2 newLines (length (new_side d)) Hj) as [c ->]. done.
Qed.

Lemma skip_removed_new_side fuel oldLines lcs k i d i' d' :
  skip_removed fuel oldLines lcs k i d = Some (i', d') → new_side d' = new_side d.
Proof.
  revert i d. induction fuel as [|fuel IH]; intros i d; [done|]. cbn [skip_removed].
  destruct ((i <? length oldLines) && negb (same_line oldLines i lcs k)).
  - intros ->%IH. rewrite new_side_app. cbn [new_side]. by rewrite app_nil_r.
  - by intros [= <- <-].
Qed.

(** The walk keeps the new cursor at the length of the new side, and puts
    each Added line in its place. *)
Lemma diff_walk_new_side fuel oldLines newLines lcs i j k acc d :
  diff_walk fuel oldLines newLines lcs i j k acc = Some d →
  length (new_side acc) = j → added_in_place acc newLines →
  added_in_place d newLines.
Proof.
  revert i j k acc. induction fuel as [|fuel IH]; intros i j k acc; [done|].
  cbn [diff_walk]. intros Hd Hj Hacc.
  destruct ((i <? length oldLines) || (j <? length newLines)); [|by simplify_eq].
  destruct ((k <? length lcs) && (i <? length oldLines) && same_line oldLines i lcs k).
  { eapply IH; [exact Hd| |by apply added_in_place_context].
    rewrite new_side_app, length_app. cbn. lia. }
  destruct ((k <? length lcs) && (j <? length newLines) && same_line newLines j lcs k).
  { destruct (skip_removed fuel oldLines lcs k i acc) as [[i1 d1]|] eqn:Hskip; [|done].
    apply skip_removed_new_side in Hskip.
    eapply IH; [exact Hd|by rewrite Hskip|].
    intros position c. rewrite Hskip. apply Hacc. }
  destruct (j <? length newLines) eqn:Hlt;
    [apply Nat.ltb_lt in Hlt|apply Nat.ltb_ge in Hlt].
  - destruct ((i <? length oldLines)
              && (negb (k <? length lcs) || negb (same_line oldLines i lcs k)));
      destruct (negb (k <? length lcs) || negb (same_line newLines j lcs k));
      cbn [andb] in Hd.
    + eapply IH; [exact Hd| |].
      * rewrite !new_side_app, !length_app. cbn. lia.
      * subst j.
        replace (length (new_side acc))
          with (length (new_side (acc ++ [Removed (at_index oldLines i)])))
          by (rewrite new_side_app; cbn; by rewrite app_nil_r).
        apply added_in_place_added; [by apply added_in_place_removed|].
        rewrite new_side_app. cbn. by rewrite app_nil_r.
    + eapply IH; [exact Hd| |by apply added_in_place_removed].
      rewrite new_side_app. cbn. by rewrite app_nil_r.
    + eapply IH; [exact Hd| |].
      * rewrite new_side_app, length_app. cbn. lia.
      * subst j. by apply added_in_place_added.
    + by eapply IH.
  - destruct ((i <? length oldLines)
              && (negb (k <? length lcs) || negb (same_line oldLines i lcs k)));
      cbn [andb] in Hd.
    + eapply IH; [exact Hd| |by apply added_in_place_removed].
      rewrite new_side_app. cbn. by rewrite app_nil_r.
    + by eapply IH.
Qed.

(** X24. How far the diff gives back the new text.  The Context and Added
    lines of [computeDiff(oldLines, newLines)], in order, are as many as the
    new text has lines, and every Added line stands at the position and has
    the content of the line of the new text there: the diff read as the new
    text can differ from it only where it has a Context line.  When the two
    texts have no line in common (an empty LCS), the Added lines are the
    new text. *)
Theorem computeDiff_adds_new_lines_in_place (oldLines newLines : list string) :
  ∃ lcs d,
    computeLCS oldLines newLines = Some lcs ∧
    computeDiff oldLines newLines = Some d ∧
    length (new_side d) = length newLines ∧
    added_in_place d newLines ∧
    (lcs = [] → new_side d = (λ c, (true, c)) <$> newLines).
Proof.
  destruct (computeDiff_output oldLines newLines)
    as (lcs & d & Hlcs & Hd & _ & Hctx & _ & Hadd).
  exists lcs, d. split; [done|]. split; [done|].
  assert (Hlen : length (new_side d) = length newLines)
    by (rewrite new_side_length, Hctx; lia).
  assert (Hplace : added_in_place d newLines).
  { unfold computeDiff, computeDiff_fuel in Hd.
    destruct (computeLCS_fuel _ _ _) as [lcs'|]; [|done]. cbn [mbind option_bind] in Hd.
    by eapply diff_walk_new_side. }
  split; [done|]. split; [done|].
  intros ->. apply list_eq. intros position.
  rewrite list_lookup_fmap.
  destruct (new_side d !! position) as [[added c]|] eqn:Hp.
  - assert (added = true) as ->.
    { clear Hlen Hplace Hd Hadd. revert position Hp.
      induction d as [|[c'|c'|c'] d IH]; intros position Hp; cbn in *; try done.
      - destruct position; simplify_eq/=; eauto.
      - eauto. }
    by rewrite (Hplace _ _ Hp).
  - apply lookup_ge_None in Hp. rewrite Hlen in Hp.
    by rewrite (proj2 (lookup_ge_None newLines position) Hp).
Qed.

(** X25. [computeStats] in closed form.  For two non-empty texts it depends
    only on the numbers of lines and on the length of their longest common
    subsequence: additions are the lines the new text has more than the old
    one, deletions the lines it has fewer, and modifications the lines of
    the shorter text that are outside the longest common subsequence. *)
Theorem computeStats_closed_form (oldContent newContent : option string) :
  let old_count := length (split_lines (text oldContent)) in
  let new_count := length (split_lines (text newContent)) in
  ∃ lcs stats,
    computeLCS (split_lines (text oldContent)) (split_lines (text newContent)) = Some lcs ∧
    computeStats oldContent newContent = Some stats ∧
    (truthy oldContent = true → truthy newContent = true →
     stats = mkStats (new_count - old_count) (old_count - new_count)
               (Nat.min old_count new_count - length lcs)) ∧
    length lcs ≤ Nat.min old_count new_count.
Proof.
  cbv zeta. unfold computeStats.
  destruct (computeDiff_output (split_lines (text oldContent))
              (split_lines (text newContent)))
    as (lcs & d & Hlcs & Hd & _ & _ & Hrem & Hadd).
  exists lcs.
  destruct (truthy oldContent) eqn:Ho, (truthy newContent) eqn:Hn; cbn [negb andb];
    try (eexists; split; [done|]; split; [done|]; split; [done|lia]).
  rewrite Hd. cbn [mbind option_bind]. rewrite count_changes_raw.
  eexists. split; [done|]. split; [done|]. split; [|lia].
  intros _ _. f_equal; lia.
Qed.

End DiffNewSide.

(* ===================================================================== *)
(** ** AIAgent: the tools offered to the completion service *)
(* ===================================================================== *)

Module AgentTools.
Import Effects Agent AgentProperties.

(** A JavaScript [Map] with string keys: the entries in the order in which
    their keys were first set. *)
Definition JsMap (V : Type) : Type := list (string * V).

(** [map.set(key, value)]: a key that is present keeps its place. *)
Fixpoint map_set {V} (map : JsMap V) (key : string) (value : V) : JsMap V :=
  match map with
  | [] => [(key, value)]
  | (k, v) :: rest =>
      if bool_decide (k = key) then (k, value) :: rest
      else (k, v) :: map_set rest key value
  end.

(** [map.get(key)] *)
Fixpoint map_get {V} (map : JsMap V) (key : string) : option V :=
  match map with
  | [] => None
  | (k, v) :: rest => if bool_decide (k = key) then Some v else map_get rest key
  end.

(** [Array.from(map.values())] *)
Definition map_values {V} (map : JsMap V) : list V := snd <$> map.

Section Offered.

Variable World : Type.
Variable Json : Type.
Variable config : AIAgentConfig World Json.

(** The constructor's loop, on the [Map] itself. *)
Definition toolMap_entries : JsMap (Tool World Json) :=
  foldl (λ map t, map_set map (name World Json t) t) [] (tools World Json config).

(** The tools [getCompletion] offers: [Array.from(this.toolMap.values())]. *)
Definition offered : list (Tool World Json) := map_values toolMap_entries.

Lemma map_get_set {V} (map : JsMap V) key value n :
  map_get (map_set map key value) n
  = if bool_decide (key = n) then Some value else map_get map n.
Proof.
  induction map as [|[k v] map IH]; cbn [map_set map_get]; [done|].
  destruct (bool_decide_reflect (k = key)) as [->|Hk]; cbn [map_get].
  - by destruct (bool_decide (key = n)).
  - rewrite IH. destruct (bool_decide_reflect (k = n)) as [->|Hn]; [|done].
    by rewrite bool_decide_eq_false_2.
Qed.

Lemma map_set_keys {V} (map : JsMap V) key value :
  fst <$> map_set map key value
  = if bool_decide (key ∈ fst <$> map) then fst <$> map else (fst <$> map) ++ [key].
Proof.
  induction map as [|[k v] map IH]; cbn [map_set fmap list_fmap fst]; [done|].
  destruct (bool_decide_reflect (k = key)) as [->|Hk]; cbn [fmap list_fmap fst].
  - rewrite bool_decide_eq_true_2; [done|]. apply elem_of_cons. by left.
  - change (list_fmap _ _ fst ?l) with (fst <$> l). rewrite IH.
    destruct (bool_decide_reflect (key ∈ fst <$> map)) as [Hin|Hin].
    + rewrite bool_decide_eq_true_2; [done|]. apply elem_of_cons. by right.
    + rewrite bool_decide_eq_false_2; [done|]. intros [?|?]%elem_of_cons; congruence.
Qed.

(** What the constructor's loop keeps: distinct keys, each entry under the
    name of its tool, and the same answers as the registry. *)
Definition registry_of (map : JsMap (Tool World Json))
    (registry : gmap string (Tool World Json)) : Prop :=
  NoDup (fst <$> map) ∧
  Forall (λ entry, entry.1 = name World Json entry.2) map ∧
  ∀ n, map_get map n = registry !! n.

Lemma registry_of_set map registry t :
  registry_of map registry →
  registry_of (map_set map (name World Json t) t) (<[name World Json t := t]> registry).
Proof.
  intros (Hdup & Hnames & Hget). split; [|split].
  - rewrite map_set_keys.
    destruct (bool_decide_reflect (name World Json t ∈ fst <$> map)); [done|].
    apply NoDup_app. split; [done|]. split; [|apply NoDup_singleton].
    intros x Hx ->%list_elem_of_singleton. done.
  - clear Hdup Hget. induction map as [|[k v] map IH]; cbn [map_set].
    + by repeat constructor.
    + inversion Hnames; subst.
      destruct (bool_decide_reflect (k = name World Json t)) as [->|Hk];
        constructor; auto.
  - intros n. rewrite map_get_set, Hget.
    destruct (bool_decide_reflect (name World Json t = n)) as [<-|Hn].
    + by rewrite lookup_insert_eq.
    + by rewrite lookup_insert_ne.
Qed.

Lemma toolMap_entries_registry :
  registry_of toolMap_entries (toolMap World Json config).
Proof.
  unfold toolMap_entries, toolMap.
  assert (Hgen : ∀ l map registry, registry_of map registry →
    registry_of (foldl (λ map t, map_set map (name World Json t) t) map l)
      (foldl (λ m t, <[name World Json t := t]> m) registry l)).
  { induction l as [|t l IH]; intros map registry Hm; [done|].
    cbn [foldl]. by apply IH, registry_of_set. }
  apply Hgen. split; [constructor|]. split; [constructor|]. intros n.
  by rewrite lookup_empty.
Qed.

Lemma map_get_elem {V} (map : JsMap V) key value :
  NoDup (fst <$> map) → (key, value) ∈ map ↔ map_get map key = Some value.
Proof.
  induction map as [|[k v] map IH]; cbn [map_get fmap list_fmap fst].
  - intros _. split; [by intros ?%elem_of_nil|done].
  - change (list_fmap _ _ fst ?l) with (fst <$> l).
    intros [Hk Hdup]%NoDup_cons. rewrite elem_of_cons, (IH Hdup).
    destruct (bool_decide_reflect (k = key)) as [->|Hne].
    + split; [intros [[= ->]|Hget]; [done|]|intros [= ->]; by left].
      exfalso. apply Hk. apply (IH Hdup) in Hget.
      apply list_elem_of_fmap. by exists (key, value).
    + split; [intros [[= -> ->]|?]; [done|done]|by right].
Qed.

Lemma registered_elem n (l : list (Tool World Json)) t :
  t ∈ registered World Json n l ↔ t ∈ l ∧ name World Json t = n.
Proof.
  unfold registered. rewrite !list_elem_of_In, List.filter_In.
  by rewrite bool_decide_eq_true.
Qed.

(** X26. The agent never offers two tools of one name.  The tools that
    [getCompletion] offers to the completion service have pairwise distinct
    names; they are exactly the tools that dispatch finds (for each name of
    the configuration, the last tool registered under it), and each name of
    the configuration is offered once. *)
Theorem offered_tools_have_distinct_names :
  NoDup (name World Json <$> offered) ∧
  (∀ t, t ∈ offered ↔ toolMap World Json config !! name World Json t = Some t) ∧
  (∀ n, n ∈ name World Json <$> offered ↔ n ∈ name World Json <$> tools World Json config).
Proof.
  destruct toolMap_entries_registry as (Hdup & Hnames & Hget).
  assert (Hkeys : name World Json <$> offered = fst <$> toolMap_entries).
  { unfold offered, map_values. rewrite <- list_fmap_compose.
    apply Forall_fmap_ext_1. eapply Forall_impl; [exact Hnames|].
    intros [k t] Hk. by cbn in *. }
  assert (Hoffered : ∀ t, t ∈ offered
            ↔ toolMap World Json config !! name World Json t = Some t).
  { intros t. rewrite <- Hget, <- map_get_elem by done.
    unfold offered, map_values. rewrite list_elem_of_fmap. split.
    - intros ([k t'] & -> & Hin). cbn.
      pose proof (proj1 (Forall_forall _ _) Hnames _ Hin) as Hk. cbn in Hk. by subst k.
    - intros Hin. by exists (name World Json t, t). }
  split; [by rewrite Hkeys|]. split; [done|].
  intros n. rewrite !list_elem_of_fmap. split.
  - intros (t & -> & Ht%Hoffered).
    rewrite toolMap_lookup in Ht.
    apply last_Some_elem_of, registered_elem in Ht as [Ht _]. by exists t.
  - intros (t & -> & Ht).
    destruct (last (registered World Json (name World Json t) (tools World Json config)))
      as [t'|] eqn:Hlast.
    + pose proof (last_Some_elem_of _ _ Hlast) as [_ Hname]%registered_elem.
      exists t'. split; [done|]. apply Hoffered. by rewrite Hname, toolMap_lookup.
    + apply last_None in Hlast.
      assert (t ∈ registered World Json (name World Json t) (tools World Json config))
        as Hin by (by apply registered_elem).
      rewrite Hlast in Hin. by apply elem_of_nil in Hin.
Qed.

End Offered.

End AgentTools.

(* ===================================================================== *)
(** ** DiffViewer: swapping the two texts *)
(* ===================================================================== *)

Module DiffSymmetry.
Import DiffViewer DiffProperties.

(** The two orders of the arguments give common subsequences of one
    length (the subsequences themselves can differ). *)
Lemma computeLCS_length_symmetric (a b : list string) :
  ∃ lcs lcs',
    computeLCS a b = Some lcs ∧ computeLCS b a = Some lcs' ∧
    length lcs = length lcs'.
Proof.
  destruct (computeLCS_longest a b) as (lcs & Hlcs & Ha & Hb & Hmax).
  destruct (computeLCS_longest b a) as (lcs' & Hlcs' & Hb' & Ha' & Hmax').
  exists lcs, lcs'. split; [done|]. split; [done|].
  apply Nat.le_antisymm; [by apply Hmax'|by apply Hmax].
Qed.

(** The statistics of two line sequences, from the counts of their diff. *)
Lemma computeStats_of_counts oldContent newContent :
  truthy oldContent = true → truthy newContent = true →
  ∃ lcs,
    computeLCS (split_lines (text oldContent)) (split_lines (text newContent)) = Some lcs ∧
    computeStats oldContent newContent
    = Some (mkStats
              (length (split_lines (text newContent)) - length (split_lines (text oldContent)))
              (length (split_lines (text oldContent)) - length (split_lines (text newContent)))
              (Nat.min (length (split_lines (text oldContent)))
                       (length (split_lines (text newContent))) - length lcs)).
Proof.
  intros Ho Hn. unfold computeStats. rewrite Ho, Hn. cbn [negb andb].
  destruct (computeDiff_output (split_lines (text oldContent))
              (split_lines (text newContent)))
    as (lcs & d & Hlcs & Hd & _ & _ & Hrem & Hadd).
  exists lcs. split; [done|].
  rewrite Hd. cbn [mbind option_bind]. rewrite count_changes_raw.
  do 2 f_equal; lia.
Qed.

(** X27. Swapping the old and the new text mirrors the statistics: for all
    contents (missing and empty ones included), [computeStats(new, old)]
    reports as additions what [computeStats(old, new)] reports as
    deletions, as deletions what it reports as additions, and the same
    number of modifications; and [computeLCS(a, b)] and [computeLCS(b, a)]
    have the same length. *)
Theorem swapping_the_texts_mirrors_the_statistics :
  (∀ a b, ∃ lcs lcs',
     computeLCS a b = Some lcs ∧ computeLCS b a = Some lcs' ∧
     length lcs = length lcs') ∧
  (∀ oldContent newContent, ∃ stats,
     computeStats oldContent newContent = Some stats ∧
     computeStats newContent oldContent
     = Some (mkStats (deletions stats) (additions stats) (modifications stats))).
Proof.
  split; [apply computeLCS_length_symmetric|].
  intros oldContent newContent.
  destruct (truthy oldContent) eqn:Ho, (truthy newContent) eqn:Hn.
  - destruct (computeStats_of_counts oldContent newContent Ho Hn) as (lcs & Hlcs & ->).
    destruct (computeStats_of_counts newContent oldContent Hn Ho) as (lcs' & Hlcs' & ->).
    eexists. split; [done|]. cbn [additions deletions modifications].
    destruct (computeLCS_length_symmetric (split_lines (text oldContent))
                (split_lines (text newContent))) as (l & l' & Hl & Hl' & Hlen).
    simplify_eq. rewrite Hlen. do 2 f_equal. lia.
  - unfold computeStats. rewrite Ho, Hn. cbn. by eexists.
  - unfold computeStats. rewrite Ho, Hn. cbn. by eexists.
  - unfold computeStats. rewrite Ho, Hn. cbn. by eexists.
Qed.

End DiffSymmetry.
